(** * Project-2.py: Huffman codes and red-black tree insertion

    A shallow embedding of [build_huffman_tree], [build_huffman_codes] and of
    the class [RedBlackTree] of [src/Project-2.py], with the properties of
    the specification proved (or refuted) on the embedding.

    Python objects live in an object store: an [RBNode] reference is an
    index into the list of allocated nodes, [None] is [None].  Python
    dictionaries that are iterated ([freq.items()]) are association lists in
    insertion order; the dictionary [codes], which is only written and looked
    up, is a finite map. *)

From Stdlib Require Import String Ascii ZArith DecimalString.
From stdpp Require Import base option list gmap strings.

Local Open Scope string_scope.
Local Open Scope nat_scope.

(** ** Python values, exceptions and results *)

Module Py.

(** The keys handed to [RedBlackTree.insert] are either [str] or [int]. *)
Inductive value :=
| Str (s : string)
| Int (z : Z).

Inductive exn :=
| ValueError (msg : string)
| TypeError
| AttributeError
| IndexError.

(** A call returns, raises, or has not finished within the fuel given to
    its loops. *)
Inductive result (A : Type) :=
| Ok (a : A)
| Raise (e : exn)
| OutOfFuel.
Arguments Ok {A} a.
Arguments Raise {A} e.
Arguments OutOfFuel {A}.

(** [str(v)] *)
Definition str (v : value) : string :=
  match v with
  | Str s => s
  | Int z => NilZero.string_of_int (Z.to_int z)
  end.

(** [v < s] for a stored key [s], which is always a [str]: strings compare
    by code point, an [int] against a [str] raises [TypeError]. *)
Definition lt (v : value) (s : string) : result bool :=
  match v with
  | Str k => Ok (String.ltb k s)
  | Int _ => Raise TypeError
  end.

End Py.

Import Py.

(** ** Huffman tree *)

Module Huffman.

(** [class HuffmanNode]: [left] and [right] default to [None]. *)
#[warnings="-register-all"]
Inductive HuffmanNode :=
| mkNode (char : string) (freq : nat) (left right : option HuffmanNode).

Definition char (n : HuffmanNode) : string :=
  match n with mkNode c _ _ _ => c end.
Definition freq (n : HuffmanNode) : nat :=
  match n with mkNode _ f _ _ => f end.
Definition left (n : HuffmanNode) : option HuffmanNode :=
  match n with mkNode _ _ l _ => l end.
Definition right (n : HuffmanNode) : option HuffmanNode :=
  match n with mkNode _ _ _ r => r end.

(** [list.sort(key=...)] is a stable sort: of two elements with the same
    key the one that came first stays first.  [place] puts [x], which
    preceded all of [l], before the first element whose key is not
    smaller. *)
Fixpoint place {A} (key : A -> nat) (x : A) (l : list A) : list A :=
  match l with
  | [] => [x]
  | y :: l' => if key x <=? key y then x :: y :: l' else y :: place key x l'
  end.

Fixpoint sort {A} (key : A -> nat) (l : list A) : list A :=
  match l with
  | [] => []
  | x :: l' => place key x (sort key l')
  end.

(** One line printed by the merge loop. *)
Record merge_line := MergeLine {
  line_step : nat;
  line_left : string * nat;
  line_right : string * nat;
  line_merged : nat
}.

(** The loop [while len(heap) > 1] of [build_huffman_tree], with the list
    of lines printed so far. *)
Fixpoint merge_loop (fuel : nat) (heap : list HuffmanNode) (step : nat)
    (out : list merge_line) : result (HuffmanNode * list merge_line) :=
  match fuel with
  | 0 => OutOfFuel
  | S fuel' =>
      if 1 <? length heap then
        match sort freq heap with
        | l :: r :: heap' =>
            let merged := mkNode "" (freq l + freq r) (Some l) (Some r) in
            let line := MergeLine step (char l, freq l) (char r, freq r)
                                  (freq merged) in
            merge_loop fuel' (heap' ++ [merged]) (S step) (out ++ [line])
        | _ => Raise IndexError
        end
      else
        match heap with
        | root :: _ => Ok (root, out)
        | [] => Raise IndexError
        end
  end.

(** [build_huffman_tree(freq)]; the dictionary is the list of its items in
    insertion order.  Every round of the loop shortens the heap by one, so
    [length items] rounds of fuel are enough. *)
Definition build_huffman_tree (items : list (string * nat))
    : result (HuffmanNode * list merge_line) :=
  match items with
  | [] => Raise (ValueError "Empty frequency map")
  | [(k, v)] => Ok (mkNode k v None None, [])
  | _ =>
      let heap := map (fun kv => mkNode (fst kv) (snd kv) None None) items in
      merge_loop (length heap) heap 1 []
  end.

(** [build_huffman_codes(node, prefix, codes)]: the dictionary [codes] is
    shared by all recursive calls, so it is threaded through them. *)
Fixpoint build_huffman_codes (node : HuffmanNode) (prefix : string)
    (codes : gmap string string) : gmap string string :=
  match node with
  | mkNode c _ None None =>
      <[c := if String.eqb prefix "" then "0" else prefix]> codes
  | mkNode _ _ l r =>
      let codes1 :=
        match l with
        | Some nl => build_huffman_codes nl (prefix ++ "0") codes
        | None => codes
        end in
      match r with
      | Some nr => build_huffman_codes nr (prefix ++ "1") codes1
      | None => codes1
      end
  end.

(** The call [build_huffman_codes(root)] with the default arguments. *)
Definition huffman_codes (root : HuffmanNode) : gmap string string :=
  build_huffman_codes root "" ∅.

(** *** The frequency table of [main] *)

(** A dictionary with string keys, as the list of its items in insertion
    order. *)
Definition dict_get {V} (d : list (string * V)) (k : string) : option V :=
  snd <$> List.find (fun kv => String.eqb (fst kv) k) d.

(** [d[k] = v]: a key that is there keeps its place, a new key goes to the
    end. *)
Fixpoint dict_set {V} (k : string) (v : V) (d : list (string * V))
    : list (string * V) :=
  match d with
  | [] => [(k, v)]
  | (k', v') :: d' =>
      if String.eqb k' k then (k', v) :: d' else (k', v') :: dict_set k v d'
  end.

(** [freq = {}] and [for t in combined_tokens: freq[t] = freq.get(t, 0) + 1]
    of [main]. *)
Definition count_tokens (tokens : list string) : list (string * nat) :=
  fold_left (fun freq t => dict_set t (default 0 (dict_get freq t) + 1) freq)
            tokens [].

(** The Huffman section of [main]: the frequency table of the tokens, the
    tree and the code map. *)
Definition huffman_index (tokens : list string)
    : result (gmap string string * list merge_line) :=
  match build_huffman_tree (count_tokens tokens) with
  | Ok (root, out) => Ok (huffman_codes root, out)
  | Raise e => Raise e
  | OutOfFuel => OutOfFuel
  end.

(** *** Notions of the specification *)

(** The trees the merge loop builds: a leaf per item, a branch per merge. *)
Inductive htree :=
| HLeaf (c : string) (f : nat)
| HBranch (l r : htree).

Fixpoint weight (t : htree) : nat :=
  match t with
  | HLeaf _ f => f
  | HBranch l r => weight l + weight r
  end.

Fixpoint to_node (t : htree) : HuffmanNode :=
  match t with
  | HLeaf c f => mkNode c f None None
  | HBranch l r =>
      mkNode "" (weight l + weight r) (Some (to_node l)) (Some (to_node r))
  end.

(** Sum over the leaves of frequency times depth. *)
Fixpoint cost (t : htree) : nat :=
  match t with
  | HLeaf _ _ => 0
  | HBranch l r => cost l + cost r + weight l + weight r
  end.

(** The leaves from left to right, each with the path that leads to it. *)
Fixpoint entries (t : htree) (prefix : string)
    : list (string * nat * string) :=
  match t with
  | HLeaf c f => [(c, f, prefix)]
  | HBranch l r => entries l (prefix ++ "0") ++ entries r (prefix ++ "1")
  end.

(** The leaves from left to right. *)
Fixpoint leaves (t : htree) : list (string * nat) :=
  match t with
  | HLeaf c f => [(c, f)]
  | HBranch l r => leaves l ++ leaves r
  end.

(** The merge loop on these trees. *)
Fixpoint hmerge (fuel : nat) (ts : list htree) : option htree :=
  match fuel with
  | 0 => None
  | S fuel' =>
      if 1 <? length ts then
        match sort weight ts with
        | l :: r :: ts' => hmerge fuel' (ts' ++ [HBranch l r])
        | _ => None
        end
      else head ts
  end.

Definition symbols (items : list (string * nat)) : list string :=
  map fst items.

(** [a] is a prefix of [b]. *)
Definition is_prefix (a b : string) : Prop := String.prefix a b = true.

(** No code of a symbol is a prefix of the code of another symbol. *)
Definition prefix_free (items : list (string * nat))
    (codes : gmap string string) : Prop :=
  forall s1 s2 c1 c2,
    s1 ∈ symbols items -> s2 ∈ symbols items -> s1 <> s2 ->
    codes !! s1 = Some c1 -> codes !! s2 = Some c2 ->
    ~ is_prefix c1 c2.

(** A code is a non-empty string of the characters 0 and 1. *)
Fixpoint is_bits (s : string) : bool :=
  match s with
  | EmptyString => true
  | String a s' => (Ascii.eqb a "0" || Ascii.eqb a "1") && is_bits s'
  end.

Definition is_code (c : string) : Prop := is_bits c = true /\ c <> "".

(** A prefix-free code for the symbols of [items]. *)
Definition prefix_code (items : list (string * nat))
    (codes : gmap string string) : Prop :=
  (forall s, s ∈ symbols items -> exists c, codes !! s = Some c /\ is_code c)
  /\ prefix_free items codes.

Definition code_length (codes : gmap string string) (s : string) : nat :=
  from_option String.length 0 (codes !! s).

(** Sum over the symbols of frequency times code length. *)
Definition weighted_length (items : list (string * nat))
    (codes : gmap string string) : nat :=
  sum_list_with (fun kv => snd kv * code_length codes (fst kv)) items.

(** Modelled from the spec: the source has no encoder; the round-trip
    property of the specification encodes a token sequence by concatenating
    the codes of its tokens. *)
Fixpoint encode (codes : gmap string string) (tokens : list string)
    : option string :=
  match tokens with
  | [] => Some ""
  | t :: tokens' =>
      match codes !! t, encode codes tokens' with
      | Some c, Some rest => Some (c ++ rest)
      | _, _ => None
      end
  end.

(** The symbol whose code is [c], if there is one. *)
Definition symbol_of (codes : gmap string string) (c : string)
    : option string :=
  fst <$> List.find (fun kv => String.eqb (snd kv) c) (map_to_list codes).

(** Modelled from the spec: the source has no decoder; decoding with a code
    map reads the bits from left to right and emits a symbol as soon as the
    bits read since the last symbol are the code of one.  Bits left over at
    the end are an error. *)
Fixpoint decode_from (codes : gmap string string) (buf bits : string)
    : option (list string) :=
  match bits with
  | EmptyString => if String.eqb buf "" then Some [] else None
  | String b bits' =>
      let buf' := buf ++ String b "" in
      match symbol_of codes buf' with
      | Some s =>
          match decode_from codes "" bits' with
          | Some tokens => Some (s :: tokens)
          | None => None
          end
      | None => decode_from codes buf' bits'
      end
  end.

Definition decode (codes : gmap string string) (bits : string)
    : option (list string) :=
  decode_from codes "" bits.

(** Kraft sum of code lengths [ds], scaled by [2 ^ L]. *)
Definition ksum (L : nat) (ds : list nat) : nat :=
  sum_list_with (fun d => 2 ^ (L - d)) ds.

Definition kraft (L : nat) (ds : list nat) : Prop :=
  Forall (fun d => d <= L) ds /\ ksum L ds <= 2 ^ L.

(** Sum of weight times depth. *)
Fixpoint dot (ws ds : list nat) : nat :=
  match ws, ds with
  | w :: ws', d :: ds' => w * d + dot ws' ds'
  | _, _ => 0
  end.

(** The symbols and frequencies of the nodes without children, from left to
    right. *)
Fixpoint node_leaves (n : HuffmanNode) : list (string * nat) :=
  match n with
  | mkNode c f None None => [(c, f)]
  | mkNode _ _ l r =>
      match l with Some nl => node_leaves nl | None => [] end
      ++ match r with Some nr => node_leaves nr | None => [] end
  end.

(** Every node has no child, or it has two, no symbol, and the sum of the
    frequencies of its children as frequency. *)
Fixpoint merged (n : HuffmanNode) : Prop :=
  match n with
  | mkNode _ _ None None => True
  | mkNode c f (Some l) (Some r) =>
      c = "" /\ f = freq l + freq r /\ merged l /\ merged r
  | _ => False
  end.

(** The number of times a token occurs. *)
Definition occurrences (s : string) (tokens : list string) : nat :=
  length (filter (fun t => t = s) tokens).

(** The tokens in the order of their first occurrence. *)
Fixpoint first_seen (tokens : list string) : list string :=
  match tokens with
  | [] => []
  | t :: tokens' => t :: filter (fun s => s <> t) (first_seen tokens')
  end.

End Huffman.

(** ** Red-black tree *)

Module RBT.

(** The strings ["red"] and ["black"]. *)
Inductive rb_color := Red | Black.

Definition is_red (c : rb_color) : bool :=
  match c with Red => true | Black => false end.

(** A reference to an [RBNode] object: its index in the object store. *)
Definition ref := nat.

(** [class RBNode] *)
Record RBNode := mkRBNode {
  key : string;
  color : rb_color;
  left : option ref;
  right : option ref;
  parent : option ref
}.

(** [class RedBlackTree]: the attribute [root], together with the store of
    all [RBNode] objects allocated so far. *)
Record RedBlackTree := mkTree {
  root : option ref;
  store : list RBNode
}.

(** [RedBlackTree()] *)
Definition empty : RedBlackTree := mkTree None [].

(** Methods read and write the tree and may raise. *)
Definition M (A : Type) : Type := RedBlackTree -> result (A * RedBlackTree).

Definition ret {A} (a : A) : M A := fun t => Ok (a, t).

Definition bind {A B} (m : M A) (k : A -> M B) : M B :=
  fun t =>
    match m t with
    | Ok (a, t') => k a t'
    | Raise e => Raise e
    | OutOfFuel => OutOfFuel
    end.

Definition raise {A} (e : exn) : M A := fun _ => Raise e.
Definition out_of_fuel {A} : M A := fun _ => OutOfFuel.

Definition lift {A} (r : result A) : M A :=
  fun t =>
    match r with
    | Ok a => Ok (a, t)
    | Raise e => Raise e
    | OutOfFuel => OutOfFuel
    end.

Declare Scope rbt_scope.
Delimit Scope rbt_scope with rbt.
Notation "'let*' x := m 'in' k" := (bind m (fun x => k))
  (at level 10, x name, m at level 100, k at level 200) : rbt_scope.
Notation "m ;; k" := (bind m (fun _ => k))
  (at level 100, k at level 200, right associativity) : rbt_scope.
Local Open Scope rbt_scope.

(** [x.attr]: an attribute of [None] raises [AttributeError]. *)
Definition get {A} (attr : RBNode -> A) (x : option ref) : M A :=
  fun t =>
    match x with
    | None => Raise AttributeError
    | Some i =>
        match store t !! i with
        | Some n => Ok (attr n, t)
        | None => Raise AttributeError
        end
    end.

(** [x.attr = v], as an update [upd] of the object. *)
Definition set (upd : RBNode -> RBNode) (x : option ref) : M unit :=
  fun t =>
    match x with
    | None => Raise AttributeError
    | Some i =>
        match store t !! i with
        | Some n => Ok (tt, mkTree (root t) (<[i := upd n]> (store t)))
        | None => Raise AttributeError
        end
    end.

Definition with_color (c : rb_color) (n : RBNode) : RBNode :=
  mkRBNode (key n) c (left n) (right n) (parent n).
Definition with_left (v : option ref) (n : RBNode) : RBNode :=
  mkRBNode (key n) (color n) v (right n) (parent n).
Definition with_right (v : option ref) (n : RBNode) : RBNode :=
  mkRBNode (key n) (color n) (left n) v (parent n).
Definition with_parent (v : option ref) (n : RBNode) : RBNode :=
  mkRBNode (key n) (color n) (left n) (right n) v.

Definition get_root : M (option ref) := fun t => Ok (root t, t).
Definition set_root (v : option ref) : M unit :=
  fun t => Ok (tt, mkTree v (store t)).

(** [RBNode(k)]: a new red object without links. *)
Definition new_node (k : string) : M (option ref) :=
  fun t => Ok (Some (length (store t)),
               mkTree (root t) (store t ++ [mkRBNode k Red None None None])).

(** The number of objects allocated, a bound on the length of any path. *)
Definition allocated : M nat := fun t => Ok (length (store t), t).

(** Objects are compared by identity. *)
Definition same (x y : option ref) : bool := bool_decide (x = y).

(** [x and x.color == "red"] *)
Definition red (x : option ref) : M bool :=
  match x with
  | None => ret false
  | Some _ => let* c := get color x in ret (is_red c)
  end.

Definition left_rotate (x : option ref) : M unit :=
  let* y := get right x in
  match y with
  | None => ret tt
  | Some _ =>
      (let* yl := get left y in set (with_right yl) x);;
      (let* yl := get left y in
       match yl with
       | Some _ => set (with_parent x) yl
       | None => ret tt
       end);;
      (let* xp := get parent x in set (with_parent xp) y);;
      (let* xp := get parent x in
       match xp with
       | None => set_root y
       | Some _ =>
           let* xpl := get left xp in
           if same x xpl then set (with_left y) xp
           else set (with_right y) xp
       end);;
      set (with_left x) y;;
      set (with_parent y) x
  end.

Definition right_rotate (y : option ref) : M unit :=
  let* x := get left y in
  match x with
  | None => ret tt
  | Some _ =>
      (let* xr := get right x in set (with_left xr) y);;
      (let* xr := get right x in
       match xr with
       | Some _ => set (with_parent y) xr
       | None => ret tt
       end);;
      (let* yp := get parent y in set (with_parent yp) x);;
      (let* yp := get parent y in
       match yp with
       | None => set_root x
       | Some _ =>
           let* ypr := get right yp in
           if same y ypr then set (with_right x) yp
           else set (with_left x) yp
       end);;
      set (with_right y) x;;
      set (with_parent x) y
  end.

(** [z.parent.color = c] and [z.parent.parent.color = c] *)
Definition set_parent_color (c : rb_color) (z : option ref) : M unit :=
  let* zp := get parent z in set (with_color c) zp.
Definition set_grandparent_color (c : rb_color) (z : option ref) : M unit :=
  let* zp := get parent z in
  let* zpp := get parent zp in set (with_color c) zpp.
Definition grandparent (z : option ref) : M (option ref) :=
  let* zp := get parent z in get parent zp.

(** The loop of [insert_fixup]; [break] and a false loop condition both
    leave it. *)
Fixpoint fixup_loop (fuel : nat) (z : option ref) : M unit :=
  match fuel with
  | 0 => out_of_fuel
  | S fuel' =>
      let* zp := get parent z in
      let* go := red zp in
      if negb go then ret tt else
      let* zpp := grandparent z in
      match zpp with
      | None => ret tt
      | Some _ =>
          let* zppl := get left zpp in
          if same zp zppl then
            let* y := get right zpp in
            let* yred := red y in
            if yred then
              set_parent_color Black z;;
              set (with_color Black) y;;
              set_grandparent_color Red z;;
              let* z' := grandparent z in
              fixup_loop fuel' z'
            else
              let* zpr := get right zp in
              let* z' :=
                (if same z zpr then
                   let* z' := get parent z in
                   left_rotate z';; ret z'
                 else ret z) in
              set_parent_color Black z';;
              set_grandparent_color Red z';;
              (let* g := grandparent z' in right_rotate g);;
              fixup_loop fuel' z'
          else
            let* y := get left zpp in
            let* yred := red y in
            if yred then
              set_parent_color Black z;;
              set (with_color Black) y;;
              set_grandparent_color Red z;;
              let* z' := grandparent z in
              fixup_loop fuel' z'
            else
              let* zpl := get left zp in
              let* z' :=
                (if same z zpl then
                   let* z' := get parent z in
                   right_rotate z';; ret z'
                 else ret z) in
              set_parent_color Black z';;
              set_grandparent_color Red z';;
              (let* g := grandparent z' in left_rotate g);;
              fixup_loop fuel' z'
      end
  end.

Definition insert_fixup (z : option ref) : M unit :=
  (let* n := allocated in fixup_loop n z);;
  let* r := get_root in
  match r with
  | Some _ => set (with_color Black) r
  | None => ret tt
  end.

(** The loop [while x: y = x; x = x.left if key < x.key else x.right];
    it returns the last value of [y]. *)
Fixpoint descend (fuel : nat) (k : value) (y x : option ref)
    : M (option ref) :=
  match x with
  | None => ret y
  | Some _ =>
      match fuel with
      | 0 => out_of_fuel
      | S fuel' =>
          let* xk := get key x in
          let* b := lift (Py.lt k xk) in
          let* x' := (if b : bool then get left x else get right x) in
          descend fuel' k x x'
      end
  end.

Definition insert (k : value) : M unit :=
  let* z := new_node (Py.str k) in
  let* x := get_root in
  let* n := allocated in
  let* y := descend n k None x in
  set (with_parent y) z;;
  (match y with
   | None => set_root z
   | Some _ =>
       let* yk := get key y in
       let* b := lift (Py.lt k yk) in
       if b : bool then set (with_left z) y else set (with_right z) y
   end);;
  insert_fixup z.

(** [for k in keys: tree.insert(k)] *)
Fixpoint insert_all (keys : list value) : M unit :=
  match keys with
  | [] => ret tt
  | k :: keys' => insert k;; insert_all keys'
  end.

(** *** Notions of the specification *)

(** The tree that the objects reachable from a reference form; every node
    carries the reference of its object. *)
Inductive tree :=
| Leaf
| Node (c : rb_color) (l : tree) (i : ref) (k : string) (r : tree).

Definition ptr (t : tree) : option ref :=
  match t with
  | Leaf => None
  | Node _ _ i _ _ => Some i
  end.

(** The store [h] holds the tree [t] below an object whose [parent]
    attribute is [p]: every object has the key, the color, the child
    references and the parent reference the tree says. *)
Fixpoint shape (h : list RBNode) (p : option ref) (t : tree) : Prop :=
  match t with
  | Leaf => True
  | Node c l i k r =>
      h !! i = Some (mkRBNode k c (ptr l) (ptr r) p)
      /\ shape h (Some i) l /\ shape h (Some i) r
  end.

(** Keys and references from left to right. *)
Fixpoint elements (t : tree) : list (string * ref) :=
  match t with
  | Leaf => []
  | Node _ l i k r => elements l ++ (k, i) :: elements r
  end.

Definition keys (t : tree) : list string := map fst (elements t).
Definition refs (t : tree) : list ref := map snd (elements t).

(** The tree object [T] holds the tree [t]: no object occurs twice. *)
Definition represents (T : RedBlackTree) (t : tree) : Prop :=
  root T = ptr t /\ shape (store T) None t /\ NoDup (refs t).

(** The red-black invariants. *)
Definition black_root (t : tree) : Prop :=
  match t with
  | Node Red _ _ _ _ => False
  | _ => True
  end.

Fixpoint no_red_red (t : tree) : Prop :=
  match t with
  | Leaf => True
  | Node c l _ _ r =>
      (c = Red -> black_root l /\ black_root r)
      /\ no_red_red l /\ no_red_red r
  end.

Definition blackness (c : rb_color) : nat :=
  match c with Red => 0 | Black => 1 end.

(** The number of black nodes on every downward path from the root of [t]
    to an absent child. *)
Fixpoint black_counts (t : tree) : list nat :=
  match t with
  | Leaf => [0]
  | Node c l _ _ r =>
      map (Nat.add (blackness c)) (black_counts l ++ black_counts r)
  end.

Fixpoint subtrees (t : tree) : list tree :=
  match t with
  | Leaf => [Leaf]
  | Node _ l _ _ r => t :: subtrees l ++ subtrees r
  end.

Definition black_balanced (t : tree) : Prop :=
  forall s a b,
    s ∈ subtrees t -> a ∈ black_counts s -> b ∈ black_counts s -> a = b.

Definition red_black (t : tree) : Prop :=
  black_root t /\ no_red_red t /\ black_balanced t.

(** The ordering invariant: nothing on the left is greater, nothing on the
    right is smaller. *)
Definition str_le (a b : string) : Prop := String.leb a b = true.

Fixpoint ordered (t : tree) : Prop :=
  match t with
  | Leaf => True
  | Node _ l _ k r =>
      Forall (fun k' => str_le k' k) (keys l)
      /\ Forall (fun k' => str_le k k') (keys r)
      /\ ordered l /\ ordered r
  end.

(** Objects are allocated in the order of insertion, so of two equal keys
    the one with the smaller reference was inserted first. *)
Definition entry_lt (a b : string * ref) : Prop :=
  String.ltb (fst a) (fst b) = true \/ (fst a = fst b /\ snd a < snd b).

(** From left to right the keys ascend, and equal keys stand in the order
    of their insertion. *)
Fixpoint ascending (l : list (string * ref)) : Prop :=
  match l with
  | [] => True
  | a :: l' => Forall (entry_lt a) l' /\ ascending l'
  end.

(** The object [j] is in the right subtree of the object [i]. *)
Inductive below (h : list RBNode) : ref -> ref -> Prop :=
| below_left i n c : h !! i = Some n -> left n = Some c -> below h i c
| below_right i n c : h !! i = Some n -> right n = Some c -> below h i c
| below_trans i j k : below h i j -> below h j k -> below h i k.

Definition in_right_subtree (h : list RBNode) (i j : ref) : Prop :=
  exists n r, h !! i = Some n /\ right n = Some r /\ (r = j \/ below h r j).

(** Every object with the key of an object inserted before it, and before
    which no object had that key, is in the right subtree of that object. *)
Definition equal_keys_right_of_first (h : list RBNode) : Prop :=
  forall i j ni nj,
    h !! i = Some ni -> h !! j = Some nj -> i < j -> key ni = key nj ->
    (forall i' ni', i' < i -> h !! i' = Some ni' -> key ni' <> key ni) ->
    in_right_subtree h i j.

(** The position of a subtree in a tree: the nodes on the way up, the one
    next to the subtree first.  A node on the way has the subtree on its
    left or on its right. *)
Inductive frame :=
| InLeft (c : rb_color) (i : ref) (k : string) (r : tree)
| InRight (c : rb_color) (l : tree) (i : ref) (k : string).

Definition fill (f : frame) (t : tree) : tree :=
  match f with
  | InLeft c i k r => Node c t i k r
  | InRight c l i k => Node c l i k t
  end.

Fixpoint plug (ctx : list frame) (t : tree) : tree :=
  match ctx with
  | [] => t
  | f :: ctx' => plug ctx' (fill f t)
  end.

Definition frame_ref (f : frame) : ref :=
  match f with InLeft _ i _ _ => i | InRight _ _ i _ => i end.
Definition frame_color (f : frame) : rb_color :=
  match f with InLeft c _ _ _ => c | InRight c _ _ _ => c end.
Definition frame_key (f : frame) : string :=
  match f with InLeft _ _ k _ => k | InRight _ _ _ k => k end.
Definition sibling (f : frame) : tree :=
  match f with InLeft _ _ _ r => r | InRight _ l _ _ => l end.

Definition parent_of (ctx : list frame) : option ref :=
  match ctx with
  | [] => None
  | f :: _ => Some (frame_ref f)
  end.

(** The way [descend] takes from a subtree [t] at the position [ctx]. *)
Fixpoint path (k : string) (ctx : list frame) (t : tree) : list frame :=
  match t with
  | Leaf => ctx
  | Node c l i kx r =>
      if String.ltb k kx then path k (InLeft c i kx r :: ctx) l
      else path k (InRight c l i kx :: ctx) r
  end.

(** A red-black tree, but for the color of its root, with [n] black nodes
    on every path. *)
Fixpoint rbt (t : tree) (n : nat) : Prop :=
  match t with
  | Leaf => n = 0
  | Node Red l _ _ r => black_root l /\ black_root r /\ rbt l n /\ rbt r n
  | Node Black l _ _ r => exists m, n = S m /\ rbt l m /\ rbt r m
  end.

(** *** The methods as functions on trees *)

Definition repaint (c : rb_color) (t : tree) : tree :=
  match t with
  | Leaf => Leaf
  | Node _ l i k r => Node c l i k r
  end.

Definition red_root (t : tree) : bool :=
  match t with
  | Node Red _ _ _ _ => true
  | _ => false
  end.

Definition paint (c : rb_color) (f : frame) : frame :=
  match f with
  | InLeft _ i k r => InLeft c i k r
  | InRight _ l i k => InRight c l i k
  end.

(** The grandparent turns red and the uncle black. *)
Definition recolor (g : frame) : frame :=
  match g with
  | InLeft _ i k u => InLeft Red i k (repaint Black u)
  | InRight _ u i k => InRight Red (repaint Black u) i k
  end.

(** The rotations of [insert_fixup] when the uncle is not red: [t] is the
    subtree of [z], [f] its parent and [g] its grandparent. *)
Definition rotate (f g : frame) (t : tree) : tree :=
  match g, f, t with
  | InLeft _ gi gk u, InLeft _ pi pk s, _ =>
      Node Black t pi pk (Node Red s gi gk u)
  | InLeft _ gi gk u, InRight pc s pi pk, Node _ zl zi zk zr =>
      Node Black (Node pc s pi pk zl) zi zk (Node Red zr gi gk u)
  | InRight _ u gi gk, InRight _ s pi pk, _ =>
      Node Black (Node Red u gi gk s) pi pk t
  | InRight _ u gi gk, InLeft pc pi pk s, Node _ zl zi zk zr =>
      Node Black (Node Red u gi gk zl) zi zk (Node pc zr pi pk s)
  | _, _, Leaf => plug [f; g] t
  end.

(** The loop of [insert_fixup] on the subtree [t] of [z] at the position
    [ctx]. *)
Fixpoint fixup (ctx : list frame) (t : tree) : tree :=
  match ctx with
  | f :: g :: ctx' =>
      if is_red (frame_color f) then
        if red_root (sibling g) then
          fixup ctx' (fill (recolor g) (fill (paint Black f) t))
        else plug ctx' (rotate f g t)
      else plug ctx t
  | _ => plug ctx t
  end.

(** [insert] of the string [k], whose object gets the reference [z]. *)
Definition insert_tree (k : string) (z : ref) (t : tree) : tree :=
  repaint Black (fixup (path k [] t) (Node Red Leaf z k Leaf)).

(** The greatest number of nodes on a downward path. *)
Fixpoint height (t : tree) : nat :=
  match t with
  | Leaf => 0
  | Node _ l _ _ r => S (Nat.max (height l) (height r))
  end.

End RBT.


(** ** The linked list of rows *)

Module MemDB.
Import Huffman.

(** A row of the table, [row.to_dict()]: column names and values. *)
Definition row := list (string * value).

Definition node_ref := nat.

(** [class Node] *)
Record Node := mkDBNode {
  data : row;
  next : option node_ref;
  prev : option node_ref
}.

(** [class MemoryDB]: the attributes [head] and [tail], together with the
    store of all [Node] objects allocated so far. *)
Record MemoryDB := mkDB {
  head : option node_ref;
  tail : option node_ref;
  nodes : list Node
}.

(** [MemoryDB()] *)
Definition empty_db : MemoryDB := mkDB None None [].

Definition with_next (v : option node_ref) (n : Node) : Node :=
  mkDBNode (data n) v (prev n).
Definition with_data (d : row) (n : Node) : Node :=
  mkDBNode d (next n) (prev n).

(** [db.append(data)] *)
Definition append (d : row) (db : MemoryDB) : MemoryDB :=
  let new_node := length (nodes db) in
  let nodes' := (nodes db ++ [mkDBNode d None (tail db)])%list in
  match tail db with
  | Some t => mkDB (head db) (Some new_node)
                   (alter (with_next (Some new_node)) t nodes')
  | None => mkDB (Some new_node) (Some new_node) nodes'
  end.

(** The loop of [load_csv_to_memorydb] over the rows of the table. *)
Definition load_rows (rows : list row) : MemoryDB :=
  fold_left (fun db d => append d db) rows empty_db.

(** [f"{fs}_{ag}"] for the columns [famsize] and [age] of a row. *)
Definition token_of (d : row) : string :=
  let fs := str (default (Str "") (dict_get d "famsize")) in
  let ag := str (default (Str "") (dict_get d "age")) in
  fs ++ "_" ++ ag.

(** The loop of [main] over the list: it follows [next] from [node],
    stores the token in the row of every node and collects the tokens. *)
Fixpoint token_loop (fuel : nat) (node : option node_ref) (db : MemoryDB)
    (combined_tokens : list string) : result (MemoryDB * list string) :=
  match fuel with
  | 0 => OutOfFuel
  | S fuel =>
      match node with
      | None => Ok (db, combined_tokens)
      | Some i =>
          match nodes db !! i with
          | None => Raise AttributeError
          | Some n =>
              let token := token_of (data n) in
              let n' := with_data (dict_set "famsize_age" (Str token) (data n)) n in
              token_loop fuel (next n)
                (mkDB (head db) (tail db) (<[i := n']> (nodes db)))
                (combined_tokens ++ [token])%list
          end
      end
  end.

(** [combined_tokens = []], [node = memdb.head] and the loop. *)
Definition combined_tokens (fuel : nat) (db : MemoryDB)
    : result (MemoryDB * list string) :=
  token_loop fuel (head db) db [].

(** *** Notions of the specification *)

(** The rows met from a node on along [next]. *)
Fixpoint forward (fuel : nat) (h : list Node) (node : option node_ref)
    : list row :=
  match fuel, node with
  | S fuel, Some i =>
      match h !! i with
      | Some n => data n :: forward fuel h (next n)
      | None => []
      end
  | _, _ => []
  end.

(** The rows met from a node back along [prev]. *)
Fixpoint backward (fuel : nat) (h : list Node) (node : option node_ref)
    : list row :=
  match fuel, node with
  | S fuel, Some i =>
      match h !! i with
      | Some n => data n :: backward fuel h (prev n)
      | None => []
      end
  | _, _ => []
  end.

(** The objects of a list of [n] rows: each is linked to its neighbours. *)
Definition node_at (n i : nat) : option node_ref :=
  if decide (i < n) then Some i else None.
Definition prev_of (i : nat) : option node_ref :=
  match i with 0 => None | S j => Some j end.
Definition linked (rows : list row) : list Node :=
  imap (fun i d => mkDBNode d (node_at (length rows) (S i)) (prev_of i)) rows.

(** The row with the token stored in the column [famsize_age]. *)
Definition tagged (d : row) : row :=
  dict_set "famsize_age" (Str (token_of d)) d.

End MemDB.

(** ** The exports of the red-black tree *)

Module Exporters.
Import RBT.

(** The string that the attribute [color] holds. *)
Definition color_name (c : rb_color) : string :=
  match c with Red => "red" | Black => "black" end.

(** [visualize]: the set of the objects visited and the lines printed are
    threaded through the calls; [fuel] bounds the depth of the recursion. *)
Definition branch (last : bool) : string :=
  if last then "└─ " else "├─ ".
Definition deeper (last : bool) : string :=
  if last then "   " else "│  ".
Definition outline_line (indent : string) (last : bool) (n : RBNode)
    : string :=
  indent ++ branch last ++ key n ++ " (" ++ color_name (color n) ++ ")".

Fixpoint visualize (fuel : nat) (T : RedBlackTree) (node : option ref)
    (indent : string) (last : bool) (visited : gset ref)
    (out : list string) : result (gset ref * list string) :=
  match fuel with
  | 0 => OutOfFuel
  | S fuel =>
      let node := match node with None => root T | Some _ => node end in
      match node with
      | None => Ok (visited, out)
      | Some i =>
          if decide (i ∈ visited) then Ok (visited, out) else
          match store T !! i with
          | None => Raise AttributeError
          | Some n =>
              let visited := {[i]} ∪ visited in
              let out := (out ++ [outline_line indent last n])%list in
              let indent := indent ++ deeper last in
              match visualize fuel T (left n) indent false visited out with
              | Ok (visited, out) =>
                  visualize fuel T (right n) indent true visited out
              | Raise e => Raise e
              | OutOfFuel => OutOfFuel
              end
          end
      end
  end.

(** [rb_tree.visualize()] *)
Definition visualize_tree (fuel : nat) (T : RedBlackTree)
    : result (gset ref * list string) :=
  visualize fuel T None "" true ∅ [].

(** [write_dot] of [main]: the statements written, a vertex with its fill
    color or an edge between two vertices; vertices are named by keys. *)
Inductive dot_stmt :=
| DotVertex (name fillcolor : string)
| DotEdge (src dst : string).

Definition fill_color (c : rb_color) : string :=
  if is_red c then "red" else "black".

Fixpoint write_dot (fuel : nat) (h : list RBNode) (node : option ref)
    (f : list dot_stmt) : result (list dot_stmt) :=
  match fuel with
  | 0 => OutOfFuel
  | S fuel =>
      match node with
      | None => Ok f
      | Some i =>
          match h !! i with
          | None => Raise AttributeError
          | Some n =>
              let f := (f ++ [DotVertex (key n) (fill_color (color n))])%list in
              let after_left :=
                match left n with
                | None => Ok f
                | Some l =>
                    match h !! l with
                    | None => Raise AttributeError
                    | Some ln =>
                        write_dot fuel h (left n)
                                  (f ++ [DotEdge (key n) (key ln)])%list
                    end
                end in
              match after_left with
              | Ok f =>
                  match right n with
                  | None => Ok f
                  | Some r =>
                      match h !! r with
                      | None => Raise AttributeError
                      | Some rn =>
                          write_dot fuel h (right n)
                                    (f ++ [DotEdge (key n) (key rn)])%list
                      end
                  end
              | Raise e => Raise e
              | OutOfFuel => OutOfFuel
              end
          end
      end
  end.

(** [rb_to_dict] of [main]: the nested dictionaries, [None] for no node. *)
Inductive record :=
| RNone
| RDict (key color : string) (left right : record).

Fixpoint rb_to_dict (fuel : nat) (h : list RBNode) (node : option ref)
    : result record :=
  match fuel with
  | 0 => OutOfFuel
  | S fuel =>
      match node with
      | None => Ok RNone
      | Some i =>
          match h !! i with
          | None => Raise AttributeError
          | Some n =>
              match rb_to_dict fuel h (left n) with
              | Ok l =>
                  match rb_to_dict fuel h (right n) with
                  | Ok r => Ok (RDict (key n) (color_name (color n)) l r)
                  | Raise e => Raise e
                  | OutOfFuel => OutOfFuel
                  end
              | Raise e => Raise e
              | OutOfFuel => OutOfFuel
              end
          end
      end
  end.

(** *** Notions of the specification *)

(** The outline of a tree: a line per node, a node before its subtrees. *)
Fixpoint outline (t : tree) (indent : string) (last : bool) : list string :=
  match t with
  | Leaf => []
  | Node c l i k r =>
      let line := indent ++ branch last ++ k ++ " (" ++ color_name c ++ ")" in
      let indent := indent ++ deeper last in
      (line :: outline l indent false ++ outline r indent true)%list
  end.

Definition root_key (t : tree) : option string :=
  match t with
  | Leaf => None
  | Node _ _ _ k _ => Some k
  end.

(** The graph of a tree: a vertex per node, an edge per child. *)
Definition edge_to (k : string) (t : tree) : list dot_stmt :=
  match root_key t with
  | Some k' => [DotEdge k k']
  | None => []
  end.

Fixpoint graph (t : tree) : list dot_stmt :=
  match t with
  | Leaf => []
  | Node c l i k r =>
      (DotVertex k (color_name c)
         :: edge_to k l ++ graph l ++ edge_to k r ++ graph r)%list
  end.

Definition is_vertex (s : dot_stmt) : bool :=
  match s with DotVertex _ _ => true | DotEdge _ _ => false end.
Definition is_edge (s : dot_stmt) : bool := negb (is_vertex s).

(** The names of the vertices that a graph declares. *)
Definition vertex_names (f : list dot_stmt) : list string :=
  omap (fun s => match s with
                 | DotVertex k _ => Some k
                 | DotEdge _ _ => None
                 end) f.

(** The nested record of a tree. *)
Fixpoint nested (t : tree) : record :=
  match t with
  | Leaf => RNone
  | Node c l i k r => RDict k (color_name c) (nested l) (nested r)
  end.

(** Reading a nested record back: the colors, keys and places of the
    nodes, not the objects. *)
Inductive outline_tree :=
| OLeaf
| ONode (c : rb_color) (l : outline_tree) (k : string) (r : outline_tree).

Fixpoint forget (t : tree) : outline_tree :=
  match t with
  | Leaf => OLeaf
  | Node c l _ k r => ONode c (forget l) k (forget r)
  end.

Fixpoint read_record (j : record) : option outline_tree :=
  match j with
  | RNone => Some OLeaf
  | RDict k c l r =>
      match read_record l, read_record r with
      | Some l', Some r' =>
          if String.eqb c "red" then Some (ONode Red l' k r')
          else if String.eqb c "black" then Some (ONode Black l' k r')
          else None
      | _, _ => None
      end
  end.

Fixpoint size (t : tree) : nat :=
  match t with
  | Leaf => 0
  | Node _ l _ _ r => size l + 1 + size r
  end.

End Exporters.
(** * Facts about the Huffman builder *)

Module HuffmanFacts.
Import Huffman.

(** ** Strings *)

#[local] Arguments String.append !_ _ : simpl nomatch.

Lemma append_nil_r (s : string) : s ++ "" = s.
Proof. induction s as [|a s IH]; simpl; [done | by rewrite IH]. Qed.

Lemma append_assoc (a b c : string) : (a ++ b) ++ c = a ++ (b ++ c).
Proof. induction a as [|x a IH]; simpl; [done | by rewrite IH]. Qed.

Lemma length_append (a b : string) :
  String.length (a ++ b) = String.length a + String.length b.
Proof. induction a as [|x a IH]; simpl; [done | by rewrite IH]. Qed.

Lemma append_eq_nil (a b : string) : a ++ b = "" -> a = "" /\ b = "".
Proof. destruct a; simpl; [done | discriminate]. Qed.

Lemma prefix_iff (a b : string) : is_prefix a b <-> exists c, b = a ++ c.
Proof.
  unfold is_prefix. revert b.
  induction a as [|x a IH]; intros b; simpl.
  - destruct b; simpl; split; eauto.
  - destruct b as [|y b]; simpl.
    + split; [discriminate | intros [c Hc]; discriminate].
    + destruct (ascii_dec x y) as [->|Hne].
      * rewrite IH. split; intros [c Hc]; exists c; congruence.
      * split; [discriminate | intros [c Hc]; congruence].
Qed.

Lemma append_inv_head (a b c : string) : a ++ b = a ++ c -> b = c.
Proof. induction a as [|x a IH]; simpl; [done | intros [= H]; auto]. Qed.

(** Two strings that go different ways after a common part are not prefixes
    of each other. *)
Lemma fork_not_prefix (p x y : string) :
  ~ is_prefix (p ++ "0" ++ x) (p ++ "1" ++ y) /\
  ~ is_prefix (p ++ "1" ++ y) (p ++ "0" ++ x).
Proof.
  split; rewrite prefix_iff; intros [c Hc];
    rewrite append_assoc in Hc; apply append_inv_head in Hc;
    simpl in Hc; discriminate.
Qed.

(** ** The stable sort *)

Section Sort.
Context {A : Type} (key : A -> nat).

Lemma place_perm x l : place key x l ≡ₚ x :: l.
Proof.
  induction l as [|y l IH]; simpl; [done |].
  destruct (key x <=? key y); [done |].
  rewrite IH. apply Permutation_swap.
Qed.

Lemma sort_perm l : sort key l ≡ₚ l.
Proof.
  induction l as [|x l IH]; simpl; [done |].
  by rewrite place_perm, IH.
Qed.

Lemma sort_length l : length (sort key l) = length l.
Proof. apply Permutation_length, sort_perm. Qed.

(** An ascending list: the head is not above anything that follows. *)
Fixpoint ascending (l : list A) : Prop :=
  match l with
  | [] => True
  | x :: l' => Forall (fun y => key x <= key y) l' /\ ascending l'
  end.

Lemma place_ascending x l : ascending l -> ascending (place key x l).
Proof.
  induction l as [|y l IH]; simpl; [by auto |].
  intros [Hy Hl].
  destruct (Nat.leb_spec (key x) (key y)) as [Hle|Hlt]; simpl.
  - repeat split; [|done..].
    constructor; [done |].
    eapply Forall_impl; [exact Hy | simpl; intros; lia].
  - split; [| by apply IH].
    rewrite place_perm. constructor; [lia | done].
Qed.

Lemma sort_ascending l : ascending (sort key l).
Proof.
  induction l as [|x l IH]; simpl; [done | by apply place_ascending].
Qed.
End Sort.

Lemma place_map {A B} (f : A -> B) (key : B -> nat) x l :
  place key (f x) (map f l) = map f (place (fun a => key (f a)) x l).
Proof.
  induction l as [|y l IH]; simpl; [done |].
  destruct (key (f x) <=? key (f y)); simpl; [done | by rewrite IH].
Qed.

Lemma sort_map {A B} (f : A -> B) (key : B -> nat) l :
  sort key (map f l) = map f (sort (fun a => key (f a)) l).
Proof.
  induction l as [|x l IH]; simpl; [done |].
  by rewrite IH, place_map.
Qed.

Lemma freq_to_node t : freq (to_node t) = weight t.
Proof. by destruct t. Qed.

Lemma sort_to_node ts :
  sort freq (map to_node ts) = map to_node (sort weight ts).
Proof.
  rewrite sort_map. f_equal.
  induction ts as [|t ts IH]; simpl; [done |].
  rewrite IH. clear IH.
  induction (sort weight ts) as [|y l IH]; simpl; [done |].
  by rewrite !freq_to_node, IH.
Qed.

(** ** The merge loop *)

Lemma merge_loop_hmerge fuel ts step out t :
  hmerge fuel ts = Some t ->
  exists out', merge_loop fuel (map to_node ts) step out
               = Ok (to_node t, out').
Proof.
  revert ts step out.
  induction fuel as [|fuel IH]; intros ts step out; simpl; [done |].
  rewrite length_map, sort_to_node.
  destruct (1 <? length ts).
  - destruct (sort weight ts) as [|l [|r ts']]; simpl; [done.. |].
    intros H. rewrite !freq_to_node.
    change (mkNode "" (weight l + weight r)
              (Some (to_node l)) (Some (to_node r)))
      with (to_node (HBranch l r)).
    change [to_node (HBranch l r)] with (map to_node [HBranch l r]).
    rewrite <- map_app. by apply IH.
  - destruct ts as [|t0 ts]; simpl; [done |].
    intros [= ->]. eauto.
Qed.

(** What one round does to a forest of at least two trees. *)
Lemma sort_two ts :
  2 <= length ts ->
  exists a b rest,
    sort weight ts = a :: b :: rest /\ ts ≡ₚ a :: b :: rest /\
    weight a <= weight b /\ Forall (fun t => weight b <= weight t) rest.
Proof.
  intros Hlen.
  pose proof (sort_perm weight ts) as Hp.
  pose proof (sort_ascending weight ts) as Hs.
  pose proof (sort_length weight ts) as Hl.
  destruct (sort weight ts) as [|a [|b rest]]; simpl in *; [lia.. |].
  exists a, b, rest. destruct Hs as (Ha & Hb & _).
  repeat split; [done | | done].
  by inversion Ha.
Qed.

Lemma hmerge_total n : forall ts fuel,
  length ts = S n -> S n <= fuel -> exists t, hmerge fuel ts = Some t.
Proof.
  induction n as [|n IH]; intros ts fuel Hlen Hfuel;
    (destruct fuel as [|fuel]; [lia |]); simpl; rewrite Hlen.
  - destruct ts as [|t [|??]]; simpl in *; [lia | eauto | lia].
  - change (1 <? S (S n)) with true. cbv iota.
    destruct (sort_two ts) as (a & b & rest & -> & Hp & _); [lia |].
    apply IH; [| lia].
    apply Permutation_length in Hp. rewrite length_app. simpl in *. lia.
Qed.

Lemma hmerge_leaves fuel : forall ts t,
  hmerge fuel ts = Some t -> leaves t ≡ₚ concat (map leaves ts).
Proof.
  induction fuel as [|fuel IH]; intros ts t; simpl; [done |].
  destruct (Nat.ltb_spec 1 (length ts)) as [Hlen|Hlen].
  - destruct (sort_two ts) as (a & b & rest & -> & Hp & _); [lia |].
    intros H. apply IH in H. rewrite H, Hp.
    rewrite map_app, concat_app. simpl.
    rewrite app_nil_r, (Permutation_app_comm (concat _)).
    by rewrite <- app_assoc.
  - destruct ts as [|t0 [|??]]; simpl in *; [done | | lia].
    intros [= ->]. by rewrite app_nil_r.
Qed.

(** With two trees or more the root is a branch. *)
Lemma hmerge_branch fuel : forall ts t,
  2 <= length ts -> hmerge fuel ts = Some t -> exists l r, t = HBranch l r.
Proof.
  induction fuel as [|fuel IH]; intros ts t Hlen; simpl; [done |].
  destruct (Nat.ltb_spec 1 (length ts)) as [_|?]; [| lia].
  destruct (sort_two ts) as (a & b & rest & -> & Hp & _); [done |].
  destruct rest as [|c rest].
  - destruct fuel; simpl; [done |]. intros [= <-]. eauto.
  - apply IH. rewrite length_app. simpl. lia.
Qed.

(** ** The code table *)

Lemma entries_leaves t p : map fst (entries t p) = leaves t.
Proof.
  revert p. induction t as [c f|l IHl r IHr]; intros p; simpl; [done |].
  by rewrite map_app, IHl, IHr.
Qed.

Lemma entries_symbol t p s f c :
  (s, f, c) ∈ entries t p -> s ∈ symbols (leaves t).
Proof.
  intros H. unfold symbols. rewrite <- (entries_leaves t p).
  apply list_elem_of_fmap. exists (s, f). split; [done |].
  apply list_elem_of_fmap. by exists (s, f, c).
Qed.

Lemma symbol_entries t p s :
  s ∈ symbols (leaves t) -> exists f c, (s, f, c) ∈ entries t p.
Proof.
  unfold symbols. rewrite <- (entries_leaves t p).
  intros ([s' f] & -> & ([[s'' f'] c] & [= -> ->] & H)%list_elem_of_fmap)
    %list_elem_of_fmap.
  eauto.
Qed.

Lemma entries_prefix t : forall p s f c,
  (s, f, c) ∈ entries t p -> exists x, c = p ++ x.
Proof.
  induction t as [c0 f0|l IHl r IHr]; intros p s f c; simpl.
  - intros [= _ _ ->]%list_elem_of_singleton.
    exists "". by rewrite append_nil_r.
  - intros [H|H]%elem_of_app.
    + apply IHl in H as [x ->]. exists ("0" ++ x). by rewrite append_assoc.
    + apply IHr in H as [x ->]. exists ("1" ++ x). by rewrite append_assoc.
Qed.

Lemma entries_prefix_free t : forall p s1 f1 c1 s2 f2 c2,
  (s1, f1, c1) ∈ entries t p -> (s2, f2, c2) ∈ entries t p ->
  s1 <> s2 -> ~ is_prefix c1 c2.
Proof.
  induction t as [c0 f0|l IHl r IHr]; intros p s1 f1 c1 s2 f2 c2; simpl.
  - intros [= -> _ _]%list_elem_of_singleton
           [= -> _ _]%list_elem_of_singleton. done.
  - intros [H1|H1]%elem_of_app [H2|H2]%elem_of_app Hne; eauto.
    + apply entries_prefix in H1 as [x ->].
      apply entries_prefix in H2 as [y ->].
      rewrite !append_assoc. apply fork_not_prefix.
    + apply entries_prefix in H1 as [x ->].
      apply entries_prefix in H2 as [y ->].
      rewrite !append_assoc. apply fork_not_prefix.
Qed.

Lemma is_bits_append a b :
  is_bits (a ++ b) = is_bits a && is_bits b.
Proof.
  induction a as [|x a IH]; simpl; [done |].
  rewrite IH. by rewrite andb_assoc.
Qed.

Lemma entries_bits t : forall p s f c,
  is_bits p = true -> (s, f, c) ∈ entries t p -> is_bits c = true.
Proof.
  induction t as [c0 f0|l IHl r IHr]; intros p s f c Hp; simpl.
  - by intros [= _ _ ->]%list_elem_of_singleton.
  - intros [H|H]%elem_of_app.
    + eapply IHl; [| done]. by rewrite is_bits_append, Hp.
    + eapply IHr; [| done]. by rewrite is_bits_append, Hp.
Qed.

(** Sum over a table of frequency times code length. *)
Definition table_length (tab : list (string * nat * string)) : nat :=
  sum_list_with (fun e => snd (fst e) * String.length (snd e)) tab.

Lemma table_length_app a b :
  table_length (a ++ b) = table_length a + table_length b.
Proof. apply sum_list_with_app. Qed.

Lemma weight_leaves t : weight t = sum_list_with snd (leaves t).
Proof.
  induction t as [c f|l IHl r IHr]; simpl; [lia |].
  rewrite sum_list_with_app. lia.
Qed.

Lemma entries_length t : forall p,
  table_length (entries t p) = cost t + weight t * String.length p.
Proof.
  induction t as [c f|l IHl r IHr]; intros p; simpl.
  - unfold table_length. simpl. lia.
  - rewrite table_length_app, IHl, IHr, !length_append. simpl. lia.
Qed.

(** ** What [build_huffman_codes] writes *)

Lemma build_codes_other t : forall p m s,
  s ∉ symbols (leaves t) ->
  build_huffman_codes (to_node t) p m !! s = m !! s.
Proof.
  induction t as [c f|l IHl r IHr]; intros p m s Hs; simpl in *.
  - apply lookup_insert_ne. set_solver.
  - unfold symbols in *. rewrite map_app in Hs.
    apply not_elem_of_app in Hs as [Hl Hr].
    rewrite IHr, IHl; done.
Qed.

Lemma build_codes_entry t : forall p m s f c,
  p <> "" -> NoDup (symbols (leaves t)) -> (s, f, c) ∈ entries t p ->
  build_huffman_codes (to_node t) p m !! s = Some c.
Proof.
  induction t as [c0 f0|l IHl r IHr]; intros p m s f c Hp Hnd; simpl.
  - intros [= -> _ ->]%list_elem_of_singleton.
    destruct (String.eqb_spec p ""); [done |].
    apply lookup_insert_eq.
  - unfold symbols in *. simpl in Hnd. rewrite map_app in Hnd.
    apply NoDup_app in Hnd as (Hl & Hlr & Hr).
    assert (forall q : string, p ++ q = "" -> False) as Hq.
    { intros q [? _]%append_eq_nil. done. }
    intros [H|H]%elem_of_app.
    + rewrite build_codes_other.
      * eapply IHl; eauto.
      * apply Hlr. eapply entries_symbol, H.
    + eapply IHr; eauto.
Qed.

Lemma huffman_codes_branch l r s f c :
  NoDup (symbols (leaves (HBranch l r))) ->
  (s, f, c) ∈ entries (HBranch l r) "" ->
  huffman_codes (to_node (HBranch l r)) !! s = Some c.
Proof.
  unfold huffman_codes, symbols. simpl. rewrite map_app.
  intros (Hl & Hlr & Hr)%NoDup_app [H|H]%elem_of_app.
  - rewrite build_codes_other.
    + eapply build_codes_entry; eauto; done.
    + apply Hlr. eapply entries_symbol, H.
  - eapply build_codes_entry; eauto; done.
Qed.

Lemma huffman_codes_leaf c f : huffman_codes (to_node (HLeaf c f)) = {[c := "0"]}.
Proof. done. Qed.

(** ** The tree and the code map of a frequency table *)

Definition hleaf (kv : string * nat) : htree := HLeaf (fst kv) (snd kv).

(** The code of every leaf, as [build_huffman_codes] called on the root
    assigns it. *)
Definition code_table (t : htree) : list (string * nat * string) :=
  match t with
  | HLeaf c f => [(c, f, "0")]
  | HBranch _ _ => entries t ""
  end.

Lemma leaves_forest items : concat (map leaves (map hleaf items)) = items.
Proof.
  induction items as [|[k v] items IH]; simpl; [done | by rewrite IH].
Qed.

Lemma build_tree_hmerge items :
  items <> [] ->
  exists t out,
    hmerge (length items) (map hleaf items) = Some t /\
    build_huffman_tree items = Ok (to_node t, out).
Proof.
  intros Hne.
  destruct (hmerge_total (pred (length items)) (map hleaf items)
              (length items)) as [t Ht].
  { rewrite length_map. destruct items; simpl; [done | lia]. }
  { destruct items; simpl; [done | lia]. }
  destruct items as [|[k v] [|kv items]]; [done | |].
  - simpl in Ht. injection Ht as <-. by exists (HLeaf k v), [].
  - destruct (merge_loop_hmerge _ _ 1 [] _ Ht) as [out Hout].
    exists t, out. split; [done |].
    unfold build_huffman_tree.
    rewrite length_map, <- Hout. f_equal.
    by rewrite map_map.
Qed.

Lemma code_table_leaves t : map fst (code_table t) = leaves t.
Proof. destruct t; [done | apply entries_leaves]. Qed.

Lemma code_table_lookup t s f c :
  NoDup (symbols (leaves t)) -> (s, f, c) ∈ code_table t ->
  huffman_codes (to_node t) !! s = Some c.
Proof.
  destruct t as [c0 f0|l r]; intros Hnd H.
  - apply list_elem_of_singleton in H as [= -> _ ->].
    rewrite huffman_codes_leaf. apply lookup_singleton_eq.
  - by eapply huffman_codes_branch.
Qed.

Lemma code_table_symbol t s :
  s ∈ symbols (leaves t) <-> exists f c, (s, f, c) ∈ code_table t.
Proof.
  unfold symbols. rewrite <- code_table_leaves. split.
  - intros ([s' f] & -> & ([[s'' f'] c] & [= -> ->] & H)%list_elem_of_fmap)
      %list_elem_of_fmap.
    eauto.
  - intros (f & c & H). apply list_elem_of_fmap. exists (s, f).
    split; [done |]. apply list_elem_of_fmap. by exists (s, f, c).
Qed.

Lemma code_table_is_code t s f c : (s, f, c) ∈ code_table t -> is_code c.
Proof.
  destruct t as [c0 f0|l r]; simpl.
  - by intros [= _ _ ->]%list_elem_of_singleton.
  - intros H. split.
    + assert ((s, f, c) ∈ entries (HBranch l r) "") as H' by done.
      by apply entries_bits in H'.
    + apply elem_of_app in H as [H|H];
        apply entries_prefix in H as [x ->]; done.
Qed.

Lemma code_table_prefix_free t s1 f1 c1 s2 f2 c2 :
  (s1, f1, c1) ∈ code_table t -> (s2, f2, c2) ∈ code_table t ->
  s1 <> s2 -> ~ is_prefix c1 c2.
Proof.
  destruct t as [c0 f0|l r].
  - intros [= -> _ _]%list_elem_of_singleton
           [= -> _ _]%list_elem_of_singleton. done.
  - apply entries_prefix_free.
Qed.

Lemma code_table_length t :
  table_length (code_table t)
  = cost t + match t with HLeaf _ f => f | HBranch _ _ => 0 end.
Proof.
  destruct t as [c f|l r].
  - unfold table_length. simpl. lia.
  - unfold code_table. rewrite entries_length. simpl. lia.
Qed.

(** Only the symbols of the leaves have a code. *)
Lemma huffman_codes_dom t s c :
  huffman_codes (to_node t) !! s = Some c -> s ∈ symbols (leaves t).
Proof.
  intros H. destruct (decide (s ∈ symbols (leaves t))) as [|Hn]; [done |].
  unfold huffman_codes in H. by rewrite build_codes_other in H.
Qed.

Lemma huffman_codes_table t s c :
  NoDup (symbols (leaves t)) ->
  huffman_codes (to_node t) !! s = Some c ->
  exists f, (s, f, c) ∈ code_table t.
Proof.
  intros Hnd H.
  pose proof (huffman_codes_dom _ _ _ H) as Hs.
  apply code_table_symbol in Hs as (f & c' & Hin).
  rewrite (code_table_lookup _ _ _ _ Hnd Hin) in H.
  injection H as ->. eauto.
Qed.

Lemma sum_list_with_map {A B} (f : B -> nat) (g : A -> B) l :
  sum_list_with f (map g l) = sum_list_with (fun a => f (g a)) l.
Proof. induction l as [|a l IH]; simpl; [done | by rewrite IH]. Qed.

Lemma sum_list_with_agree {A} (f g : A -> nat) l :
  (forall a, a ∈ l -> f a = g a) -> sum_list_with f l = sum_list_with g l.
Proof.
  induction l as [|a l IH]; intros H; simpl; [done |].
  rewrite H, IH; [done | | by left].
  intros b Hb. apply H. by right.
Qed.

Lemma weighted_length_table t items :
  NoDup (symbols (leaves t)) -> leaves t ≡ₚ items ->
  weighted_length items (huffman_codes (to_node t))
  = table_length (code_table t).
Proof.
  intros Hnd Hp. unfold weighted_length, table_length.
  rewrite <- Hp, <- code_table_leaves, sum_list_with_map.
  apply sum_list_with_agree. intros [[s f] c] Hin. simpl.
  unfold code_length. by rewrite (code_table_lookup _ _ _ _ Hnd Hin).
Qed.

(** The tree built for a frequency table, with what is known of it. *)
Lemma build_tree_spec items :
  items <> [] -> NoDup (symbols items) ->
  exists t out,
    build_huffman_tree items = Ok (to_node t, out) /\
    hmerge (length items) (map hleaf items) = Some t /\
    leaves t ≡ₚ items /\ NoDup (symbols (leaves t)).
Proof.
  intros Hne Hnd.
  destruct (build_tree_hmerge items Hne) as (t & out & Hm & Hb).
  exists t, out. repeat split; [done.. | |].
  - apply hmerge_leaves in Hm. by rewrite leaves_forest in Hm.
  - apply hmerge_leaves in Hm. rewrite leaves_forest in Hm.
    unfold symbols. by rewrite Hm.
Qed.

(** ** Decoding *)

Lemma symbol_of_Some codes c s :
  symbol_of codes c = Some s -> codes !! s = Some c.
Proof.
  unfold symbol_of.
  destruct (find _ _) as [[s' c']|] eqn:Hf; simpl; [| done].
  intros [= <-]. apply find_some in Hf as [Hin Heq]. simpl in Heq.
  apply String.eqb_eq in Heq as ->.
  by apply list_elem_of_In, elem_of_map_to_list in Hin.
Qed.

Lemma symbol_of_None codes c s :
  symbol_of codes c = None -> codes !! s <> Some c.
Proof.
  unfold symbol_of.
  destruct (find _ _) as [[s' c']|] eqn:Hf; simpl; [done |].
  intros _ Hs. apply elem_of_map_to_list, list_elem_of_In in Hs.
  eapply find_none in Hf; [| exact Hs]. simpl in Hf.
  by rewrite String.eqb_refl in Hf.
Qed.

Section Decode.
Variable codes : gmap string string.
Hypothesis codes_nonempty : forall s, codes !! s <> Some "".
Hypothesis codes_prefix : forall s1 s2 c1 c2,
  codes !! s1 = Some c1 -> codes !! s2 = Some c2 ->
  is_prefix c1 c2 -> s1 = s2.

Lemma decode_from_code x : forall buf s bits,
  x <> "" -> codes !! s = Some (buf ++ x) ->
  decode_from codes buf (x ++ bits)
  = cons s <$> decode_from codes "" bits.
Proof using codes_prefix.
  induction x as [|b x IH]; intros buf s bits Hx Hs; [done |].
  simpl.
  assert (buf ++ String b x = (buf ++ String b "") ++ x) as Heq.
  { by rewrite append_assoc. }
  rewrite Heq in Hs.
  destruct (symbol_of codes (buf ++ String b "")) as [s'|] eqn:Hsym.
  - pose proof (symbol_of_Some _ _ _ Hsym) as Hs'.
    assert (s' = s) as ->.
    { eapply codes_prefix; [exact Hs' | exact Hs |].
      apply prefix_iff. by exists x. }
    rewrite Hs in Hs'. injection Hs' as Hx'.
    rewrite <- (append_nil_r (buf ++ String b "")) in Hx' at 2.
    apply append_inv_head in Hx' as ->. simpl.
    by destruct (decode_from codes "" bits).
  - destruct x as [|b' x].
    + rewrite append_nil_r in Hs. by apply symbol_of_None with (s := s) in Hsym.
    + by apply IH.
Qed.

Lemma decode_encode tokens : forall bits,
  encode codes tokens = Some bits -> decode codes bits = Some tokens.
Proof using codes_nonempty codes_prefix.
  unfold decode.
  induction tokens as [|s tokens IH]; intros bits; simpl.
  - by intros [= <-].
  - destruct (codes !! s) as [c|] eqn:Hc; [| done].
    destruct (encode codes tokens) as [rest|]; [| done].
    intros [= <-].
    rewrite (decode_from_code c "" s); [| | done].
    + by rewrite (IH rest).
    + intros ->. by apply (codes_nonempty s).
Qed.
End Decode.

(** ** Code lengths that satisfy Kraft's inequality *)

Lemma pow2_pos n : 0 < 2 ^ n.
Proof. induction n; simpl; lia. Qed.

Lemma kraft_perm L ds ds' : ds ≡ₚ ds' -> kraft L ds -> kraft L ds'.
Proof.
  unfold kraft, ksum. intros Hp [Hall Hsum].
  by rewrite <- Hp.
Qed.

Lemma dot_length_le ws ds w0 d0 :
  dot (w0 :: ws) (d0 :: ds) = w0 * d0 + dot ws ds.
Proof. done. Qed.

(** The lightest symbol can take the greatest length at no cost. *)
Lemma lift_max w0 : forall ws ds d0,
  length ws = length ds -> Forall (fun w => w0 <= w) ws ->
  exists d0' ds',
    length ds' = length ds /\ d0' :: ds' ≡ₚ d0 :: ds /\
    Forall (fun d => d <= d0') ds' /\
    w0 * d0' + dot ws ds' <= w0 * d0 + dot ws ds.
Proof.
  induction ws as [|w1 ws IH]; intros [|d1 ds] d0 Hlen Hall;
    simpl in Hlen; try discriminate.
  - exists d0, []. simpl. split; [| split; [| split]]; done.
  - inversion Hall as [|? ? Hw1 Hws]; subst.
    destruct (IH ds d0) as (m & ds' & Hl & Hp & Hm & Hc); [lia | done |].
    destruct (le_lt_dec d1 m) as [Hle|Hlt].
    + exists m, (d1 :: ds'). simpl. split; [| split; [| split]].
      * lia.
      * rewrite Permutation_swap, Hp. apply Permutation_swap.
      * by constructor.
      * lia.
    + exists d1, (m :: ds'). simpl. split; [| split; [| split]].
      * lia.
      * rewrite Hp. apply Permutation_swap.
      * constructor; [lia |].
        eapply Forall_impl; [exact Hm | simpl; intros; lia].
      * nia.
Qed.

Lemma ksum_multiple L y ds :
  y <= L -> Forall (fun d => d <= y) ds ->
  exists M, ksum L ds = M * 2 ^ (L - y).
Proof.
  intros Hy. induction 1 as [|d ds Hd _ [M IH]].
  - by exists 0.
  - exists (2 ^ (y - d) + M). unfold ksum in *. simpl. rewrite IH.
    replace (L - d) with ((y - d) + (L - y)) by lia.
    rewrite Nat.pow_add_r. lia.
Qed.

(** Two symbols of the greatest length can be merged into one symbol that
    is one shorter. *)
Lemma kraft_merge L x y ds :
  y <= x -> Forall (fun d => d <= y) ds -> kraft L (x :: y :: ds) ->
  1 <= y /\ kraft L (pred y :: ds).
Proof.
  intros Hyx Hds [Hall Hsum].
  inversion Hall as [|? ? HxL Hall']; subst.
  inversion Hall' as [|? ? HyL HdsL]; subst.
  unfold ksum in Hsum. simpl in Hsum.
  fold (ksum L ds) in Hsum.
  destruct (ksum_multiple L y ds HyL Hds) as [M HM].
  pose proof (pow2_pos (L - x)) as Hpx.
  pose proof (pow2_pos (L - y)) as Hpy.
  assert (2 ^ L = 2 ^ y * 2 ^ (L - y)) as HL.
  { rewrite <- Nat.pow_add_r. f_equal. lia. }
  assert (1 <= y) as Hy1.
  { destruct y; [| lia]. rewrite Nat.sub_0_r in *. lia. }
  split; [done |].
  split; [constructor; [lia | done] |].
  unfold ksum. simpl. fold (ksum L ds).
  replace (L - pred y) with (S (L - y)) by lia.
  rewrite HM, HL in *. simpl.
  assert (M + 2 <= 2 ^ y) as HMy by nia.
  nia.
Qed.

Lemma merge_depths wa wb ws da db ds L :
  length ws = length ds -> wa <= wb -> Forall (fun w => wb <= w) ws ->
  kraft L (da :: db :: ds) ->
  exists d' ds',
    length ds' = length ds /\ kraft L (d' :: ds') /\
    dot ws ds' + (wa + wb) * S d' <= wa * da + wb * db + dot ws ds.
Proof.
  intros Hlen Hab Hws Hk.
  destruct (lift_max wa (wb :: ws) (db :: ds) da)
    as (x & ds1 & Hl1 & Hp1 & Hm1 & Hc1).
  { simpl. lia. }
  { constructor; [done |].
    eapply Forall_impl; [exact Hws | simpl; intros; lia]. }
  destruct ds1 as [|db1 ds1]; [done |].
  simpl in Hl1. injection Hl1 as Hl1.
  destruct (lift_max wb ws ds1 db1) as (y & ds2 & Hl2 & Hp2 & Hm2 & Hc2);
    [lia | done |].
  assert (y <= x) as Hyx.
  { rewrite <- Hp2 in Hm1. by inversion Hm1. }
  destruct (kraft_merge L x y ds2) as [Hy1 Hk2]; [done.. | |].
  { eapply kraft_perm; [| exact Hk].
    rewrite <- Hp1. by rewrite Hp2. }
  exists (pred y), ds2. repeat split; [lia | apply Hk2.. |].
  simpl in Hc1.
  replace (S (pred y)) with y by lia. nia.
Qed.

(** ** Kraft's inequality for prefix-free codes *)

Fixpoint prefix_free_list (cs : list string) : Prop :=
  match cs with
  | [] => True
  | c :: cs' =>
      Forall (fun c' => ~ is_prefix c c' /\ ~ is_prefix c' c) cs' /\
      prefix_free_list cs'
  end.

(** The rests of the strings that start with [b]. *)
Fixpoint tails (b : ascii) (cs : list string) : list string :=
  match cs with
  | [] => []
  | EmptyString :: cs' => tails b cs'
  | String a r :: cs' =>
      if Ascii.eqb a b then r :: tails b cs' else tails b cs'
  end.

Lemma prefix_nil c : is_prefix "" c.
Proof. by destruct c. Qed.

Lemma prefix_cons b x y : is_prefix (String b x) (String b y) <-> is_prefix x y.
Proof.
  unfold is_prefix. simpl. by destruct (ascii_dec b b).
Qed.

Lemma prefix_free_nil cs : prefix_free_list cs -> "" ∈ cs -> cs = [""].
Proof.
  destruct cs as [|c cs]; simpl.
  - intros _ Hin. by apply elem_of_nil in Hin.
  - intros [Hc Hcs] Hin. destruct c as [|a c].
    + destruct cs as [|c' cs]; [done |].
      apply Forall_cons in Hc as [[H _] _].
      destruct H. apply prefix_nil.
    + apply elem_of_cons in Hin as [|Hin]; [done |].
      rewrite Forall_forall in Hc.
      destruct (Hc _ Hin) as [_ H]. destruct H. apply prefix_nil.
Qed.

Lemma tails_elem b cs r : r ∈ tails b cs <-> String b r ∈ cs.
Proof.
  induction cs as [|c cs IH]; simpl.
  - split; intros H; by apply elem_of_nil in H.
  - destruct c as [|a c].
    + rewrite IH. split; [by right |].
      by intros [|]%elem_of_cons.
    + destruct (Ascii.eqb_spec a b) as [->|Hne].
      * rewrite !elem_of_cons, IH. split; intros [|]; auto; left; congruence.
      * rewrite IH, elem_of_cons. split; [by right |].
        intros [|]; [congruence | done].
Qed.

Lemma tails_prefix_free b cs :
  prefix_free_list cs -> prefix_free_list (tails b cs).
Proof.
  induction cs as [|c cs IH]; simpl; [done |].
  intros [Hc Hcs]. destruct c as [|a c]; [by apply IH |].
  destruct (Ascii.eqb_spec a b) as [->|Hne]; [| by apply IH].
  simpl. split; [| by apply IH].
  apply Forall_forall. intros r Hr%tails_elem.
  rewrite Forall_forall in Hc. specialize (Hc _ Hr).
  by rewrite !prefix_cons in Hc.
Qed.

Lemma ksum_tails L cs :
  Forall (fun c => is_code c) cs ->
  ksum (S L) (map String.length cs)
  = ksum L (map String.length (tails "0" cs))
    + ksum L (map String.length (tails "1" cs)).
Proof.
  unfold ksum. induction 1 as [|c cs [Hb Hne] _ IH]; simpl; [done |].
  destruct c as [|a c]; [done |]. simpl in Hb.
  apply andb_true_iff in Hb as [Ha _].
  change (2 ^ (S L - String.length (String a c)))
    with (2 ^ (L - String.length c)).
  rewrite IH.
  apply orb_true_iff in Ha as [->%Ascii.eqb_eq| ->%Ascii.eqb_eq]; simpl; lia.
Qed.

Lemma kraft_inequality L : forall cs,
  Forall (fun c => is_bits c = true /\ String.length c <= L) cs ->
  prefix_free_list cs ->
  ksum L (map String.length cs) <= 2 ^ L.
Proof.
  induction L as [|L IH]; intros cs Hall Hpf.
  - destruct cs as [|c cs]; [simpl; unfold ksum; simpl; lia |].
    assert ("" ∈ c :: cs) as Hin.
    { apply Forall_cons in Hall as [[_ Hc] _].
      destruct c; [by left | simpl in Hc; lia]. }
    by rewrite (prefix_free_nil _ Hpf Hin).
  - destruct (decide ("" ∈ cs)) as [Hin|Hnin].
    { rewrite (prefix_free_nil _ Hpf Hin). unfold ksum. simpl. lia. }
    rewrite ksum_tails.
    + assert (forall b, ksum L (map String.length (tails b cs)) <= 2 ^ L)
        as Hb.
      { intros b. apply IH; [| by apply tails_prefix_free].
        apply Forall_forall. intros r Hr%tails_elem.
        rewrite Forall_forall in Hall.
        destruct (Hall _ Hr) as [Hbits Hlen]. simpl in *.
        apply andb_true_iff in Hbits as [_ Hbits]. split; [done | lia]. }
      pose proof (Hb "0"%char). pose proof (Hb "1"%char). simpl. lia.
    + apply Forall_forall. intros c Hc. split.
      * rewrite Forall_forall in Hall. by apply Hall.
      * intros ->. done.
Qed.

(** ** The merge loop builds a tree of least cost *)

(** The cost of hanging each tree of a forest at a given depth. *)
Definition assignment_cost (tds : list (htree * nat)) : nat :=
  sum_list_with (fun td => weight (fst td) * snd td + cost (fst td)) tds.

Lemma assignment_cost_zip ts : forall ds,
  length ts = length ds ->
  assignment_cost (zip ts ds)
  = dot (map weight ts) ds + sum_list_with cost ts.
Proof.
  unfold assignment_cost.
  induction ts as [|t ts IH]; intros [|d ds] Hlen; simpl in *;
    try discriminate; [done |].
  rewrite IH by lia. lia.
Qed.

Lemma assignment_cost_split tds :
  assignment_cost tds
  = dot (map weight (map fst tds)) (map snd tds)
    + sum_list_with cost (map fst tds).
Proof.
  unfold assignment_cost.
  induction tds as [|[t d] tds IH]; simpl; [done |]. rewrite IH. lia.
Qed.

Lemma hmerge_optimal fuel : forall ts t,
  hmerge fuel ts = Some t ->
  forall L tds,
    map fst tds ≡ₚ ts -> kraft L (map snd tds) ->
    cost t <= assignment_cost tds.
Proof.
  induction fuel as [|fuel IH]; intros ts t; simpl; [done |].
  destruct (Nat.ltb_spec 1 (length ts)) as [Hlen|Hlen].
  - destruct (sort_two ts) as (a & b & rest & -> & Hp & Hab & Hrest);
      [lia |].
    intros Hm L tds Hfst Hk.
    rewrite Hp in Hfst. symmetry in Hfst.
    apply Permutation_map_inv in Hfst as (tds2 & Heq & Hp2).
    destruct tds2 as [|[a' da] [|[b' db] rds]]; try discriminate.
    simpl in Heq. injection Heq as <- <- Hrds.
    assert (assignment_cost tds = assignment_cost ((a, da) :: (b, db) :: rds))
      as ->.
    { unfold assignment_cost. by rewrite Hp2. }
    assert (kraft L (da :: db :: map snd rds)) as Hk2.
    { eapply kraft_perm; [| exact Hk]. by rewrite Hp2. }
    destruct (merge_depths (weight a) (weight b) (map weight rest)
                da db (map snd rds) L)
      as (d' & ds' & Hl & Hk' & Hc); [| done | | done |].
    { rewrite Hrds, !length_map. done. }
    { by apply Forall_fmap. }
    rewrite length_map in Hl.
    assert (length rest = length ds') as Hl'.
    { rewrite Hrds, length_map. lia. }
    specialize (IH _ _ Hm L (zip rest ds' ++ [(HBranch a b, d')])%list).
    rewrite !map_app in IH. simpl in IH.
    change (map fst (zip rest ds')) with (fst <$> zip rest ds') in IH.
    change (map snd (zip rest ds')) with (snd <$> zip rest ds') in IH.
    rewrite fst_zip, snd_zip in IH by lia.
    etrans; [apply IH |]; [done | |].
    { eapply kraft_perm; [| exact Hk']. apply Permutation_cons_append. }
    unfold assignment_cost at 1. rewrite sum_list_with_app.
    fold (assignment_cost (zip rest ds')).
    rewrite assignment_cost_zip by done.
    rewrite (assignment_cost_split (_ :: _ :: rds)). simpl.
    rewrite <- Hrds. nia.
  - destruct ts as [|t0 [|??]]; simpl in *; [done | | lia].
    intros [= ->] L tds Hp Hk.
    apply Permutation_length in Hp as Hl.
    destruct tds as [|[t' d] [|??]]; simpl in *; try discriminate.
    apply Permutation_singleton_r in Hp. injection Hp as ->.
    unfold assignment_cost. simpl. lia.
Qed.

(** ** Any other prefix code *)

Section Competitor.
Variable other : gmap string string.

Definition other_code (kv : string * nat) : string :=
  default "" (other !! fst kv).

Lemma other_prefix_free items :
  NoDup (symbols items) -> prefix_code items other ->
  prefix_free_list (map other_code items).
Proof.
  induction items as [|[s f] items IH]; simpl; [done |].
  intros [Hs Hnd]%NoDup_cons [Hdom Hpf].
  split.
  - apply Forall_forall. intros c' Hc'.
    apply list_elem_of_fmap in Hc' as ([s' f'] & -> & Hin).
    assert (s' ∈ symbols items) as Hs'.
    { apply list_elem_of_fmap. by exists (s', f'). }
    assert (s <> s') as Hne by (intros ->; done).
    destruct (Hdom s) as (c & Hc & _); [by left |].
    destruct (Hdom s') as (d & Hd & _); [by right |].
    unfold other_code. simpl. rewrite Hc, Hd. simpl.
    split.
    + apply (Hpf s s'); [by left | by right | done..].
    + apply (Hpf s' s); [by right | by left | done..].
  - apply IH; [done |]. split.
    + intros s' Hs'. apply Hdom. by right.
    + intros s1 s2 c1 c2 H1 H2. apply Hpf; by right.
Qed.

Lemma other_lengths items :
  prefix_code items other ->
  Forall (fun c => is_bits c = true /\
                   String.length c
                   <= sum_list_with String.length (map other_code items))
         (map other_code items).
Proof.
  intros [Hdom _]. apply Forall_forall. intros c Hc. split.
  - apply list_elem_of_fmap in Hc as ([s f] & -> & Hin).
    destruct (Hdom s) as (c & Hc & Hb & _).
    { apply list_elem_of_fmap. by exists (s, f). }
    unfold other_code. simpl. by rewrite Hc.
  - by apply sum_list_with_in.
Qed.

Lemma other_cost items :
  assignment_cost
    (map (fun kv => (hleaf kv, code_length other (fst kv))) items)
  = weighted_length items other.
Proof.
  unfold assignment_cost, weighted_length.
  rewrite sum_list_with_map. apply sum_list_with_agree.
  intros [s f] _. simpl. lia.
Qed.

Lemma hmerge_beats_other items t :
  NoDup (symbols items) -> prefix_code items other ->
  hmerge (length items) (map hleaf items) = Some t ->
  cost t <= weighted_length items other.
Proof.
  intros Hnd Hpc Hm. rewrite <- other_cost.
  eapply hmerge_optimal; [exact Hm | |].
  - by rewrite map_map.
  - rewrite map_map. simpl.
    split.
    + apply Forall_forall. intros d Hd.
      apply list_elem_of_fmap in Hd as (kv & -> & Hin).
      pose proof (other_lengths items Hpc) as Hall.
      rewrite Forall_forall in Hall.
      destruct (Hall (other_code kv)) as [_ Hle].
      { apply list_elem_of_fmap. by exists kv. }
      unfold code_length, other_code in *.
      destruct (other !! kv.1); simpl in *; [exact Hle | lia].
    + pose proof (kraft_inequality _ _ (other_lengths items Hpc)
                    (other_prefix_free items Hnd Hpc)) as Hk.
      rewrite map_map in Hk.
      assert (map (fun x => String.length (other_code x)) items
              = map (fun x => code_length other (fst x)) items) as <-.
      { apply map_ext. intros kv. unfold code_length, other_code.
        by destruct (other !! kv.1). }
      exact Hk.
Qed.
End Competitor.

(** ** The code map of a frequency table *)

Lemma symbols_perm items items' :
  items ≡ₚ items' -> forall s, s ∈ symbols items <-> s ∈ symbols items'.
Proof. intros Hp s. unfold symbols. by rewrite Hp. Qed.

Lemma huffman_prefix_code t items :
  NoDup (symbols (leaves t)) -> leaves t ≡ₚ items ->
  prefix_code items (huffman_codes (to_node t)).
Proof.
  intros Hnd Hp. split.
  - intros s Hs. apply (symbols_perm _ _ Hp) in Hs.
    apply code_table_symbol in Hs as (f & c & Hin).
    exists c. split.
    + by eapply code_table_lookup.
    + by eapply code_table_is_code.
  - intros s1 s2 c1 c2 _ _ Hne H1 H2.
    apply huffman_codes_table in H1 as [f1 H1]; [| done].
    apply huffman_codes_table in H2 as [f2 H2]; [| done].
    by eapply code_table_prefix_free.
Qed.

Lemma huffman_codes_decodable t :
  NoDup (symbols (leaves t)) ->
  (forall s, huffman_codes (to_node t) !! s <> Some "") /\
  (forall s1 s2 c1 c2,
      huffman_codes (to_node t) !! s1 = Some c1 ->
      huffman_codes (to_node t) !! s2 = Some c2 ->
      is_prefix c1 c2 -> s1 = s2).
Proof.
  intros Hnd. split.
  - intros s H. apply huffman_codes_table in H as [f H]; [| done].
    by apply code_table_is_code in H as [_ ?].
  - intros s1 s2 c1 c2 H1 H2 Hpre.
    apply huffman_codes_table in H1 as [f1 H1]; [| done].
    apply huffman_codes_table in H2 as [f2 H2]; [| done].
    destruct (decide (s1 = s2)) as [|Hne]; [done |].
    by destruct (code_table_prefix_free _ _ _ _ _ _ _ H1 H2 Hne).
Qed.

Lemma encode_total codes tokens :
  Forall (fun s => is_Some (codes !! s)) tokens ->
  is_Some (encode codes tokens).
Proof.
  induction 1 as [|s tokens [c Hc] _ [bits IH]]; simpl; [by eexists |].
  rewrite Hc, IH. by eexists.
Qed.

Lemma huffman_length_least t items other :
  NoDup (symbols items) -> leaves t ≡ₚ items ->
  hmerge (length items) (map hleaf items) = Some t ->
  prefix_code items other ->
  weighted_length items (huffman_codes (to_node t))
  <= weighted_length items other.
Proof.
  intros Hnd Hp Hm Hpc.
  assert (NoDup (symbols (leaves t))) as Hnd'.
  { unfold symbols. by rewrite Hp. }
  rewrite weighted_length_table, code_table_length by done.
  pose proof (hmerge_beats_other other items t Hnd Hpc Hm) as Hle.
  destruct t as [c f|l r]; [| lia].
  simpl in *. apply Permutation_singleton_l in Hp as <-.
  unfold weighted_length. simpl.
  destruct Hpc as [Hdom _].
  destruct (Hdom c) as (code & Hcode & _ & Hne).
  { by left. }
  unfold code_length. rewrite Hcode. simpl.
  destruct code; [done |]. simpl. lia.
Qed.

(** ** The properties of the specification *)

(** C6: [build_huffman_tree] raises exactly when the frequency table has
    no entry (and then it is the [ValueError]); it never runs out of fuel;
    on a table with one entry it returns the leaf of that symbol and
    frequency and prints no merge. *)
Theorem build_huffman_tree_raises_iff_empty (items : list (string * nat)) :
  ((exists e, build_huffman_tree items = Raise e) <-> items = []) /\
  build_huffman_tree items <> OutOfFuel /\
  (forall k v,
      build_huffman_tree [(k, v)] = Ok (mkNode k v None None, [])).
Proof.
  split; [| split; [| done]].
  - split.
    + intros [e He]. destruct items as [|kv items]; [done |].
      destruct (build_tree_hmerge (kv :: items)) as (t & out & _ & Hb);
        [done |].
      rewrite Hb in He. discriminate.
    + intros ->. by eexists.
  - destruct items as [|kv items]; [done |].
    destruct (build_tree_hmerge (kv :: items)) as (t & out & _ & Hb);
      [done |].
    by rewrite Hb.
Qed.

(** C7: for a frequency table with one entry the code map gives that
    symbol the code "0", and nothing else. *)
Theorem single_symbol_code (k : string) (v : nat) :
  exists root out,
    build_huffman_tree [(k, v)] = Ok (root, out) /\
    huffman_codes root = {[k := "0"]} /\
    huffman_codes root !! k = Some "0".
Proof.
  exists (mkNode k v None None), []. split; [done |].
  split; [done |]. apply lookup_insert_eq.
Qed.

(** C2: for a non-empty frequency table the code map gives every symbol a
    code, and no symbol's code is a prefix of the code of another symbol. *)
Theorem huffman_codes_prefix_free (items : list (string * nat)) :
  items <> [] -> NoDup (symbols items) ->
  exists root out,
    build_huffman_tree items = Ok (root, out) /\
    (forall s, s ∈ symbols items -> is_Some (huffman_codes root !! s)) /\
    prefix_free items (huffman_codes root).
Proof.
  intros Hne Hnd.
  destruct (build_tree_spec items Hne Hnd) as (t & out & Hb & _ & Hp & Hnd').
  exists (to_node t), out. split; [done |].
  destruct (huffman_prefix_code t items Hnd' Hp) as [Hdom Hpf].
  split; [| done].
  intros s Hs. destruct (Hdom s Hs) as (c & -> & _). by eexists.
Qed.

Lemma huffman_codes_prefix_free_witness :
  exists root out,
    build_huffman_tree [("A", 2); ("B", 1)] = Ok (root, out) /\
    (forall s, s ∈ symbols [("A", 2); ("B", 1)] ->
               is_Some (huffman_codes root !! s)) /\
    prefix_free [("A", 2); ("B", 1)] (huffman_codes root).
Proof.
  apply (huffman_codes_prefix_free [("A", 2); ("B", 1)]).
  - discriminate.
  - refine (bool_decide_unpack _ _). vm_compute. exact I.
Defined.

(** C3: for a non-empty frequency table the code map is a prefix-free
    code whose total weighted length is the least that any prefix-free
    code for these symbols and frequencies has. *)
Theorem huffman_codes_optimal (items : list (string * nat)) :
  items <> [] -> NoDup (symbols items) ->
  exists root out,
    build_huffman_tree items = Ok (root, out) /\
    prefix_code items (huffman_codes root) /\
    forall other,
      prefix_code items other ->
      weighted_length items (huffman_codes root)
      <= weighted_length items other.
Proof.
  intros Hne Hnd.
  destruct (build_tree_spec items Hne Hnd) as (t & out & Hb & Hm & Hp & Hnd').
  exists (to_node t), out. split; [done |].
  split; [by apply huffman_prefix_code |].
  intros other Hpc. by apply huffman_length_least.
Qed.

Lemma huffman_codes_optimal_witness :
  exists root out,
    build_huffman_tree [("A", 2); ("B", 1); ("C", 1)] = Ok (root, out) /\
    prefix_code [("A", 2); ("B", 1); ("C", 1)] (huffman_codes root) /\
    forall other,
      prefix_code [("A", 2); ("B", 1); ("C", 1)] other ->
      weighted_length [("A", 2); ("B", 1); ("C", 1)] (huffman_codes root)
      <= weighted_length [("A", 2); ("B", 1); ("C", 1)] other.
Proof.
  apply (huffman_codes_optimal [("A", 2); ("B", 1); ("C", 1)]).
  - discriminate.
  - refine (bool_decide_unpack _ _). vm_compute. exact I.
Defined.

(** C8: for a non-empty frequency table and tokens that are symbols of
    it, the concatenation of the tokens' codes decodes, with the same code
    map, to the tokens. *)
Theorem huffman_round_trip (items : list (string * nat))
    (tokens : list string) :
  items <> [] -> NoDup (symbols items) ->
  Forall (fun s => s ∈ symbols items) tokens ->
  exists root out bits,
    build_huffman_tree items = Ok (root, out) /\
    encode (huffman_codes root) tokens = Some bits /\
    decode (huffman_codes root) bits = Some tokens.
Proof.
  intros Hne Hnd Htok.
  destruct (build_tree_spec items Hne Hnd) as (t & out & Hb & _ & Hp & Hnd').
  destruct (huffman_prefix_code t items Hnd' Hp) as [Hdom _].
  destruct (encode_total (huffman_codes (to_node t)) tokens) as [bits Hbits].
  { eapply Forall_impl; [exact Htok |]. simpl. intros s Hs.
    destruct (Hdom s Hs) as (c & -> & _). by eexists. }
  exists (to_node t), out, bits. split; [done |]. split; [done |].
  destruct (huffman_codes_decodable t Hnd') as [H1 H2].
  by apply decode_encode.
Qed.

Lemma huffman_round_trip_witness :
  exists root out bits,
    build_huffman_tree [("A", 2); ("B", 1)] = Ok (root, out) /\
    encode (huffman_codes root) ["A"; "B"; "A"] = Some bits /\
    decode (huffman_codes root) bits = Some ["A"; "B"; "A"].
Proof.
  apply (huffman_round_trip [("A", 2); ("B", 1)] ["A"; "B"; "A"]).
  - discriminate.
  - refine (bool_decide_unpack _ _). vm_compute. exact I.
  - refine (bool_decide_unpack _ _). vm_compute. exact I.
Defined.


(** ** The shape of the tree *)

Lemma node_leaves_to_node t : node_leaves (to_node t) = leaves t.
Proof.
  induction t as [c f|l IHl r IHr]; simpl; [done |].
  by rewrite IHl, IHr.
Qed.

Lemma merged_to_node t : merged (to_node t).
Proof.
  induction t as [c f|l IHl r IHr]; simpl; [done |].
  by rewrite !freq_to_node.
Qed.

(** X11: for a frequency table that is not empty, every node of the tree
    that [build_huffman_tree] returns has no child or two; a node with
    children has the empty symbol and the sum of the frequencies of its
    children; the nodes without children carry the symbols and frequencies
    of the table, each entry once; so the root has the sum of all
    frequencies. *)
Theorem huffman_tree_structure (items : list (string * nat)) :
  items <> [] ->
  exists root out,
    build_huffman_tree items = Ok (root, out)
    /\ merged root
    /\ node_leaves root ≡ₚ items
    /\ freq root = sum_list_with snd items.
Proof.
  intros Hne.
  destruct (build_tree_hmerge items Hne) as (t & out & Hm & Hb).
  exists (to_node t), out. split; [done |].
  split; [apply merged_to_node |].
  apply hmerge_leaves in Hm. rewrite leaves_forest in Hm.
  split; [by rewrite node_leaves_to_node |].
  by rewrite freq_to_node, weight_leaves, Hm.
Qed.

Lemma huffman_tree_structure_witness :
  exists root out,
    build_huffman_tree [("A", 2); ("B", 1); ("C", 1)] = Ok (root, out)
    /\ merged root
    /\ node_leaves root ≡ₚ [("A", 2); ("B", 1); ("C", 1)]
    /\ freq root = sum_list_with snd [("A", 2); ("B", 1); ("C", 1)].
Proof.
  apply (huffman_tree_structure [("A", 2); ("B", 1); ("C", 1)]).
  discriminate.
Defined.

(** ** The lines printed by the merge loop *)

Definition line_adds (l : merge_line) : Prop :=
  line_merged l = snd (line_left l) + snd (line_right l).

Lemma merge_loop_lines fuel : forall heap step out root out',
  merge_loop fuel heap step out = Ok (root, out') ->
  exists new,
    out' = (out ++ new)%list
    /\ map line_step new = seq step (length heap - 1)
    /\ Forall line_adds new.
Proof.
  induction fuel as [|fuel IH]; intros heap step out root out'; simpl;
    [done |].
  destruct (Nat.ltb_spec 1 (length heap)) as [Hlen|Hlen].
  - pose proof (sort_length freq heap) as Hsl.
    destruct (sort freq heap) as [|l [|r heap']]; [done.. |].
    intros H. apply IH in H as (new & -> & Hsteps & Hadds).
    simpl in Hsl. rewrite length_app in Hsteps. simpl in Hsteps.
    eexists (_ :: new). split; [by rewrite <- app_assoc |].
    split.
    + simpl. rewrite Hsteps.
      replace (length heap' + 1 - 1) with (length heap') by lia.
      replace (length heap - 1) with (S (length heap')) by lia. done.
    + constructor; [done | done].
  - destruct heap as [|root0 heap]; [done |].
    simpl in Hlen. replace (length (root0 :: heap) - 1) with 0
      by (simpl; lia).
    intros [= _ <-]. exists []. rewrite app_nil_r.
    by repeat split.
Qed.

(** X12: for a frequency table with [n] entries, [n] at least one,
    [build_huffman_tree] prints [n - 1] lines, numbered from 1 on without
    a gap, and the frequency in each line is the sum of the two
    frequencies merged; the last of them is the frequency of the root. *)
Theorem huffman_merge_lines (items : list (string * nat)) :
  items <> [] ->
  exists root out,
    build_huffman_tree items = Ok (root, out)
    /\ map line_step out = seq 1 (length items - 1)
    /\ Forall line_adds out.
Proof.
  intros Hne.
  destruct (build_tree_hmerge items Hne) as (t & out & _ & Hb).
  exists (to_node t), out. split; [done |].
  destruct items as [|[k v] [|kv items]]; [done | |].
  - injection Hb as _ <-. by split.
  - unfold build_huffman_tree in Hb.
    apply merge_loop_lines in Hb as (new & -> & Hsteps & Hadds).
    rewrite length_map in Hsteps. by split.
Qed.

Lemma huffman_merge_lines_witness :
  exists root out,
    build_huffman_tree [("A", 2); ("B", 1); ("C", 1)] = Ok (root, out)
    /\ map line_step out = seq 1 (length [("A", 2); ("B", 1); ("C", 1)] - 1)
    /\ Forall line_adds out.
Proof.
  apply (huffman_merge_lines [("A", 2); ("B", 1); ("C", 1)]).
  discriminate.
Defined.

(** ** The entries of the code map *)

Lemma leaves_length_pos t : 1 <= length (leaves t).
Proof.
  induction t as [c f|l IHl r IHr]; simpl; [lia |].
  rewrite length_app. lia.
Qed.

Lemma entries_code_length t : forall p s f c,
  (s, f, c) ∈ entries t p ->
  String.length c + 1 <= String.length p + length (leaves t).
Proof.
  induction t as [c0 f0|l IHl r IHr]; intros p s f c; simpl.
  - intros [= _ _ ->]%list_elem_of_singleton. lia.
  - rewrite length_app.
    pose proof (leaves_length_pos l). pose proof (leaves_length_pos r).
    intros [H1|H1]%elem_of_app.
    + apply IHl in H1. rewrite length_append in H1. simpl in H1. lia.
    + apply IHr in H1. rewrite length_append in H1. simpl in H1. lia.
Qed.

Lemma code_table_code_length t s f c :
  (s, f, c) ∈ code_table t ->
  String.length c <= Nat.max 1 (length (leaves t) - 1).
Proof.
  destruct t as [c0 f0|l r].
  - intros [= _ _ ->]%list_elem_of_singleton. simpl. lia.
  - intros H. apply entries_code_length in H. simpl in *. lia.
Qed.

(** X13: for a frequency table with [n] distinct symbols the code map has
    exactly the symbols of the table as keys, [n] entries, and every code
    is a string of the characters 0 and 1 with at least one and at most
    [n - 1] of them (one if [n] is one). *)
Theorem huffman_code_map_entries (items : list (string * nat)) :
  items <> [] -> NoDup (symbols items) ->
  exists root out,
    build_huffman_tree items = Ok (root, out)
    /\ (forall s, is_Some (huffman_codes root !! s) <-> s ∈ symbols items)
    /\ size (huffman_codes root) = length items
    /\ forall s c,
         huffman_codes root !! s = Some c ->
         is_code c /\ String.length c <= Nat.max 1 (length items - 1).
Proof.
  intros Hne Hnd.
  destruct (build_tree_spec items Hne Hnd) as (t & out & Hb & _ & Hp & Hnd').
  exists (to_node t), out. split; [done |].
  assert (forall s, is_Some (huffman_codes (to_node t) !! s)
                    <-> s ∈ symbols items) as Hdom.
  { intros s. rewrite <- (symbols_perm _ _ Hp). split.
    - intros [c Hc]. by eapply huffman_codes_dom.
    - intros (f & c & Hin)%code_table_symbol.
      exists c. by eapply code_table_lookup. }
  split; [done |]. split.
  - rewrite <- size_dom.
    assert (dom (huffman_codes (to_node t))
            = list_to_set (symbols items)) as ->.
    { apply set_eq. intros s.
      rewrite elem_of_dom, elem_of_list_to_set. apply Hdom. }
    rewrite size_list_to_set by done. unfold symbols. by rewrite length_map.
  - intros s c Hc.
    apply huffman_codes_table in Hc as [f Hin]; [| done].
    split; [by eapply code_table_is_code |].
    apply code_table_code_length in Hin. by rewrite Hp in Hin.
Qed.

Lemma huffman_code_map_entries_witness :
  exists root out,
    build_huffman_tree [("A", 2); ("B", 1)] = Ok (root, out)
    /\ (forall s, is_Some (huffman_codes root !! s)
                  <-> s ∈ symbols [("A", 2); ("B", 1)])
    /\ size (huffman_codes root) = length [("A", 2); ("B", 1)]
    /\ forall s c,
         huffman_codes root !! s = Some c ->
         is_code c
         /\ String.length c <= Nat.max 1 (length [("A", 2); ("B", 1)] - 1).
Proof.
  apply (huffman_code_map_entries [("A", 2); ("B", 1)]).
  - discriminate.
  - refine (bool_decide_unpack _ _). vm_compute. exact I.
Defined.

(** ** The frequency table of [main] *)

Definition count_step (freq : list (string * nat)) (t : string)
    : list (string * nat) :=
  dict_set t (default 0 (dict_get freq t) + 1) freq.

Lemma dict_get_set_eq {V} (d : list (string * V)) k v :
  dict_get (dict_set k v d) k = Some v.
Proof.
  unfold dict_get.
  induction d as [|[k' v'] d IH]; simpl.
  - by rewrite String.eqb_refl.
  - destruct (String.eqb_spec k' k) as [->|Hne]; simpl.
    + by rewrite String.eqb_refl.
    + by destruct (String.eqb_spec k' k).
Qed.

Lemma dict_get_set_ne {V} (d : list (string * V)) k k' v :
  k <> k' -> dict_get (dict_set k v d) k' = dict_get d k'.
Proof.
  intros Hne. unfold dict_get.
  induction d as [|[k0 v0] d IH]; simpl.
  - by destruct (String.eqb_spec k k').
  - destruct (String.eqb_spec k0 k) as [->|Hne0]; simpl.
    + by destruct (String.eqb_spec k k').
    + destruct (String.eqb_spec k0 k'); [done | apply IH].
Qed.

Lemma dict_get_keys {V} (d : list (string * V)) k :
  is_Some (dict_get d k) <-> k ∈ map fst d.
Proof.
  unfold dict_get.
  induction d as [|[k0 v0] d IH]; simpl.
  - split; [by intros [? ?] | by intros ?%elem_of_nil].
  - destruct (String.eqb_spec k0 k) as [->|Hne]; simpl.
    + split; [intros _; by left | by eexists].
    + rewrite IH. split; [by right |].
      by intros [?|?]%elem_of_cons.
Qed.

Lemma dict_set_keys {V} (d : list (string * V)) k v :
  map fst (dict_set k v d)
  = if decide (k ∈ map fst d) then map fst d else (map fst d ++ [k])%list.
Proof.
  induction d as [|[k0 v0] d IH]; simpl.
  - destruct (decide (k ∈ [])) as [?%elem_of_nil|]; done.
  - destruct (String.eqb_spec k0 k) as [->|Hne]; simpl.
    + destruct (decide (k ∈ k :: map fst d)) as [|[]]; [done | by left].
    + rewrite IH.
      destruct (decide (k ∈ map fst d)) as [Hin|Hout].
      * destruct (decide (k ∈ k0 :: map fst d)) as [|[]]; [done | by right].
      * destruct (decide (k ∈ k0 :: map fst d))
          as [[?|?]%elem_of_cons|]; done.
Qed.

Lemma dict_set_sum (d : list (string * nat)) k v :
  sum_list_with snd (dict_set k v d) + default 0 (dict_get d k)
  = sum_list_with snd d + v.
Proof.
  unfold dict_get.
  induction d as [|[k0 v0] d IH]; simpl; [lia |].
  destruct (String.eqb_spec k0 k) as [->|Hne]; simpl; lia.
Qed.

Lemma count_step_sum freq t :
  sum_list_with snd (count_step freq t) = sum_list_with snd freq + 1.
Proof.
  unfold count_step.
  pose proof (dict_set_sum freq t (default 0 (dict_get freq t) + 1)). lia.
Qed.

Lemma fold_count_sum tokens : forall freq,
  sum_list_with snd (fold_left count_step tokens freq)
  = sum_list_with snd freq + length tokens.
Proof.
  induction tokens as [|t tokens IH]; intros freq; simpl; [lia |].
  rewrite IH, count_step_sum. lia.
Qed.

Lemma fold_count_get tokens : forall freq s,
  default 0 (dict_get (fold_left count_step tokens freq) s)
  = default 0 (dict_get freq s) + occurrences s tokens.
Proof.
  unfold occurrences.
  induction tokens as [|t tokens IH]; intros freq s; simpl; [lia |].
  rewrite IH. unfold count_step at 1.
  rewrite filter_cons.
  destruct (decide (t = s)) as [->|Hne]; simpl.
  - rewrite dict_get_set_eq. simpl. lia.
  - by rewrite dict_get_set_ne.
Qed.

Lemma filter_out_seen (seen : list string) t (l : list string) :
  t ∈ seen ->
  filter (fun s => s ∉ seen) (filter (fun s => s <> t) l)
  = filter (fun s => s ∉ seen) l.
Proof.
  intros Hin. rewrite list_filter_filter.
  apply list_filter_iff. intros s. split; [by intros [? _] |].
  intros Hs. split; [done |]. by intros ->.
Qed.

Lemma filter_out_snoc (seen : list string) t (l : list string) :
  filter (fun s => s ∉ (seen ++ [t])%list) l
  = filter (fun s => s ∉ seen) (filter (fun s => s <> t) l).
Proof.
  rewrite list_filter_filter.
  apply list_filter_iff. intros s.
  rewrite elem_of_app, list_elem_of_singleton. tauto.
Qed.

Lemma fold_count_keys tokens : forall freq ks,
  map fst freq = ks ->
  map fst (fold_left count_step tokens freq)
  = (ks ++ filter (fun s => s ∉ ks) (first_seen tokens))%list.
Proof.
  induction tokens as [|t tokens IH]; intros freq ks Hks; simpl.
  - by rewrite app_nil_r.
  - rewrite filter_cons.
    destruct (decide (t ∈ ks)) as [Hin|Hout].
    + rewrite (IH _ ks).
      * destruct (decide (t ∉ ks)); [done |]. by rewrite filter_out_seen.
      * unfold count_step. rewrite dict_set_keys, Hks.
        by rewrite decide_True.
    + rewrite (IH _ (ks ++ [t])%list).
      * destruct (decide (t ∉ ks)); [| done].
        rewrite <- app_assoc. simpl. by rewrite filter_out_snoc.
      * unfold count_step. rewrite dict_set_keys, Hks.
        by rewrite decide_False.
Qed.

Lemma first_seen_elem tokens s : s ∈ first_seen tokens <-> s ∈ tokens.
Proof.
  induction tokens as [|t tokens IH]; simpl; [done |].
  rewrite !elem_of_cons, list_elem_of_filter, IH.
  destruct (decide (s = t)); tauto.
Qed.

Lemma first_seen_NoDup tokens : NoDup (first_seen tokens).
Proof.
  induction tokens as [|t tokens IH]; simpl; [constructor |].
  constructor.
  - rewrite list_elem_of_filter. by intros [? _].
  - by apply NoDup_filter.
Qed.

Lemma count_tokens_keys tokens :
  map fst (count_tokens tokens) = first_seen tokens.
Proof.
  unfold count_tokens.
  change (map fst (fold_left count_step tokens []) = first_seen tokens).
  rewrite (fold_count_keys tokens [] []) by done. simpl.
  induction (first_seen tokens) as [|s l IH]; [done |].
  rewrite filter_cons_True; [by rewrite IH | apply not_elem_of_nil].
Qed.

Lemma count_tokens_get tokens s :
  dict_get (count_tokens tokens) s
  = if decide (s ∈ tokens) then Some (occurrences s tokens) else None.
Proof.
  pose proof (fold_count_get tokens [] s) as Hget.
  pose proof (dict_get_keys (count_tokens tokens) s) as Hkeys.
  rewrite count_tokens_keys, first_seen_elem in Hkeys.
  change (fold_left count_step tokens []) with (count_tokens tokens) in Hget.
  destruct (decide (s ∈ tokens)) as [Hin|Hout].
  - apply Hkeys in Hin as [n Hn]. rewrite Hn in *. simpl in Hget.
    by rewrite Hget.
  - destruct (dict_get (count_tokens tokens) s) eqn:E; [| done].
    destruct Hout. apply Hkeys. by eexists.
Qed.

(** X14: the frequency table that [main] builds lists the tokens in the
    order of their first occurrence, each once, and gives each token the
    number of its occurrences; a string that is no token has no entry. *)
Theorem count_tokens_counts (tokens : list string) :
  map fst (count_tokens tokens) = first_seen tokens
  /\ NoDup (map fst (count_tokens tokens))
  /\ forall s,
       dict_get (count_tokens tokens) s
       = if decide (s ∈ tokens) then Some (occurrences s tokens) else None.
Proof.
  split; [apply count_tokens_keys |]. split.
  - rewrite count_tokens_keys. apply first_seen_NoDup.
  - apply count_tokens_get.
Qed.

(** X15: the counts of the frequency table add up to the number of
    tokens, and every count is at least one. *)
Theorem count_tokens_total (tokens : list string) :
  sum_list_with snd (count_tokens tokens) = length tokens
  /\ Forall (fun kv => 1 <= snd kv) (count_tokens tokens).
Proof.
  split.
  - apply (fold_count_sum tokens []).
  - assert (NoDup (map fst (count_tokens tokens))) as Hnd.
    { rewrite count_tokens_keys. apply first_seen_NoDup. }
    apply Forall_forall. intros [k v] Hin. simpl.
    assert (dict_get (count_tokens tokens) k = Some v) as Hget.
    { revert Hnd Hin. generalize (count_tokens tokens) as d.
      unfold dict_get. induction d as [|[k0 v0] d IH]; simpl.
      - by intros _ ?%elem_of_nil.
      - intros [Hout Hnd]%NoDup_cons [[= -> ->]|Hin]%elem_of_cons.
        + by rewrite String.eqb_refl.
        + destruct (String.eqb_spec k0 k) as [->|Hne]; [| by apply IH].
          destruct Hout. apply list_elem_of_fmap. by exists (k, v). }
    rewrite count_tokens_get in Hget.
    destruct (decide (k ∈ tokens)) as [Hk|]; [| done].
    injection Hget as <-. unfold occurrences.
    apply list_elem_of_split in Hk as (l1 & l2 & ->).
    rewrite filter_app, filter_cons, decide_True by done.
    rewrite length_app. simpl. lia.
Qed.

Lemma count_tokens_nonempty tokens : tokens <> [] -> count_tokens tokens <> [].
Proof.
  intros Hne Hnil.
  pose proof (count_tokens_keys tokens) as Hk. rewrite Hnil in Hk.
  destruct tokens; [done | discriminate].
Qed.

Lemma count_tokens_symbols tokens s :
  s ∈ symbols (count_tokens tokens) <-> s ∈ tokens.
Proof.
  unfold symbols. change (s ∈ map fst (count_tokens tokens) <-> s ∈ tokens).
  by rewrite count_tokens_keys, first_seen_elem.
Qed.

(** X16: for a token sequence that is not empty the Huffman section of
    [main] returns a code map whose keys are the tokens, under which no
    token's code is a prefix of another token's, and which decodes the
    concatenation of the codes of the whole sequence to the sequence. *)
Theorem huffman_index_tokens (tokens : list string) :
  tokens <> [] ->
  exists codes out bits,
    huffman_index tokens = Ok (codes, out)
    /\ (forall s, is_Some (codes !! s) <-> s ∈ tokens)
    /\ prefix_free (count_tokens tokens) codes
    /\ encode codes tokens = Some bits
    /\ decode codes bits = Some tokens.
Proof.
  intros Hne.
  assert (NoDup (symbols (count_tokens tokens))) as Hnd.
  { unfold symbols.
    change (NoDup (map fst (count_tokens tokens))).
    rewrite count_tokens_keys. apply first_seen_NoDup. }
  destruct (build_tree_spec (count_tokens tokens)
              (count_tokens_nonempty tokens Hne) Hnd)
    as (t & out & Hb & _ & Hp & Hnd').
  destruct (huffman_prefix_code t _ Hnd' Hp) as [Hdom Hpf].
  assert (forall s, is_Some (huffman_codes (to_node t) !! s)
                    <-> s ∈ tokens) as Hkeys.
  { intros s. rewrite <- count_tokens_symbols. split.
    - intros [c Hc]. apply (symbols_perm _ _ Hp).
      by eapply huffman_codes_dom.
    - intros Hs. destruct (Hdom s Hs) as (c & -> & _). by eexists. }
  destruct (encode_total (huffman_codes (to_node t)) tokens)
    as [bits Hbits].
  { apply Forall_forall. intros s Hs. by apply Hkeys. }
  exists (huffman_codes (to_node t)), out, bits.
  unfold huffman_index. rewrite Hb.
  split; [done |]. split; [done |]. split; [done |]. split; [done |].
  destruct (huffman_codes_decodable t Hnd') as [H1 H2].
  by apply decode_encode.
Qed.

Lemma huffman_index_tokens_witness :
  exists codes out bits,
    huffman_index ["GT3_18"; "LE3_17"; "GT3_18"] = Ok (codes, out)
    /\ (forall s, is_Some (codes !! s)
                  <-> s ∈ ["GT3_18"; "LE3_17"; "GT3_18"])
    /\ prefix_free (count_tokens ["GT3_18"; "LE3_17"; "GT3_18"]) codes
    /\ encode codes ["GT3_18"; "LE3_17"; "GT3_18"] = Some bits
    /\ decode codes bits = Some ["GT3_18"; "LE3_17"; "GT3_18"].
Proof.
  apply (huffman_index_tokens ["GT3_18"; "LE3_17"; "GT3_18"]).
  discriminate.
Defined.

(** X17: the Huffman section of [main] raises exactly when there is no
    token, and then it is the [ValueError] of [build_huffman_tree]; the
    merge loop never runs out of fuel. *)
Theorem huffman_index_raises (tokens : list string) :
  ((exists e, huffman_index tokens = Raise e) <-> tokens = [])
  /\ huffman_index [] = Raise (ValueError "Empty frequency map")
  /\ huffman_index tokens <> OutOfFuel.
Proof.
  assert (tokens <> [] ->
          exists root out,
            build_huffman_tree (count_tokens tokens) = Ok (root, out))
    as Hok.
  { intros Hne.
    destruct (build_tree_hmerge (count_tokens tokens)
                (count_tokens_nonempty tokens Hne)) as (t & out & _ & Hb).
    by exists (to_node t), out. }
  split; [| split; [done |]].
  - split; [| intros ->; by eexists].
    intros [e He]. destruct tokens as [|t tokens]; [done |].
    destruct Hok as (root & out & Hb); [done |].
    unfold huffman_index in He. rewrite Hb in He. discriminate.
  - destruct tokens as [|t tokens]; [done |].
    destruct Hok as (root & out & Hb); [done |].
    unfold huffman_index. by rewrite Hb.
Qed.

(** ** The length of the encoded tokens *)

Lemma encode_length codes tokens : forall bits,
  encode codes tokens = Some bits ->
  String.length bits = sum_list_with (code_length codes) tokens.
Proof.
  induction tokens as [|t tokens IH]; intros bits; simpl.
  - by intros [= <-].
  - unfold code_length at 1.
    destruct (codes !! t) as [c|]; [| done].
    destruct (encode codes tokens) as [rest|]; [| done].
    intros [= <-]. rewrite length_append, (IH rest) by done. done.
Qed.

Lemma dict_set_weighted (g : string -> nat) (d : list (string * nat)) k v :
  sum_list_with (fun kv => snd kv * g (fst kv)) (dict_set k v d)
  + default 0 (dict_get d k) * g k
  = sum_list_with (fun kv => snd kv * g (fst kv)) d + v * g k.
Proof.
  unfold dict_get.
  induction d as [|[k0 v0] d IH]; simpl; [lia |].
  destruct (String.eqb_spec k0 k) as [->|Hne]; simpl; lia.
Qed.

Lemma fold_count_weighted (g : string -> nat) tokens : forall freq,
  sum_list_with (fun kv => snd kv * g (fst kv))
                (fold_left count_step tokens freq)
  = sum_list_with (fun kv => snd kv * g (fst kv)) freq
    + sum_list_with g tokens.
Proof.
  induction tokens as [|t tokens IH]; intros freq; simpl; [lia |].
  rewrite IH. unfold count_step.
  pose proof (dict_set_weighted g freq t (default 0 (dict_get freq t) + 1)).
  lia.
Qed.

Lemma count_tokens_weighted codes tokens :
  weighted_length (count_tokens tokens) codes
  = sum_list_with (code_length codes) tokens.
Proof. apply (fold_count_weighted (code_length codes) tokens []). Qed.

(** X24: for a token sequence that is not empty, no prefix-free code for
    the tokens encodes the sequence in fewer characters than the code map
    of the Huffman section of [main] does. *)
Theorem huffman_index_shortest (tokens : list string) :
  tokens <> [] ->
  exists codes out bits,
    huffman_index tokens = Ok (codes, out)
    /\ encode codes tokens = Some bits
    /\ forall other bits',
         prefix_code (count_tokens tokens) other ->
         encode other tokens = Some bits' ->
         String.length bits <= String.length bits'.
Proof.
  intros Hne.
  assert (NoDup (symbols (count_tokens tokens))) as Hnd.
  { unfold symbols.
    change (NoDup (map fst (count_tokens tokens))).
    rewrite count_tokens_keys. apply first_seen_NoDup. }
  destruct (build_tree_spec (count_tokens tokens)
              (count_tokens_nonempty tokens Hne) Hnd)
    as (t & out & Hb & Hm & Hp & Hnd').
  destruct (huffman_prefix_code t _ Hnd' Hp) as [Hdom _].
  destruct (encode_total (huffman_codes (to_node t)) tokens)
    as [bits Hbits].
  { apply Forall_forall. intros s Hs.
    apply count_tokens_symbols in Hs.
    destruct (Hdom s Hs) as (c & -> & _). by eexists. }
  exists (huffman_codes (to_node t)), out, bits.
  unfold huffman_index. rewrite Hb.
  split; [done |]. split; [done |].
  intros other bits' Hpc Hbits'.
  rewrite (encode_length _ _ _ Hbits), (encode_length _ _ _ Hbits').
  rewrite <- !count_tokens_weighted.
  by apply huffman_length_least.
Qed.

Lemma huffman_index_shortest_witness :
  exists codes out bits,
    huffman_index ["GT3_18"; "LE3_17"; "GT3_18"] = Ok (codes, out)
    /\ encode codes ["GT3_18"; "LE3_17"; "GT3_18"] = Some bits
    /\ forall other bits',
         prefix_code (count_tokens ["GT3_18"; "LE3_17"; "GT3_18"]) other ->
         encode other ["GT3_18"; "LE3_17"; "GT3_18"] = Some bits' ->
         String.length bits <= String.length bits'.
Proof.
  apply (huffman_index_shortest ["GT3_18"; "LE3_17"; "GT3_18"]).
  discriminate.
Defined.

End HuffmanFacts.

(** * Facts about the red-black tree *)

Module RBTFacts.
Import RBT.
Local Open Scope rbt_scope.
Local Open Scope list_scope.

(** ** The monad *)

Lemma bind_ok {A B} (m : M A) (k : A -> M B) T a T' :
  m T = Ok (a, T') -> bind m k T = k a T'.
Proof. unfold bind. by intros ->. Qed.

Lemma bind_assoc {A B C} (m : M A) (f : A -> M B) (g : B -> M C) T :
  bind (bind m f) g T = bind m (fun a => bind (f a) g) T.
Proof. unfold bind. by destruct (m T) as [[a T']| |]. Qed.

Lemma bind_ret {A B} (a : A) (k : A -> M B) T : bind (ret a) k T = k a T.
Proof. done. Qed.

(** ** Positions in a tree *)

Fixpoint before (ctx : list frame) : list (string * ref) :=
  match ctx with
  | [] => []
  | InLeft _ _ _ _ :: ctx' => before ctx'
  | InRight _ l i k :: ctx' => before ctx' ++ elements l ++ [(k, i)]
  end.

Fixpoint after (ctx : list frame) : list (string * ref) :=
  match ctx with
  | [] => []
  | InLeft _ i k r :: ctx' => (k, i) :: elements r ++ after ctx'
  | InRight _ _ _ _ :: ctx' => after ctx'
  end.

Lemma elements_plug ctx : forall t,
  elements (plug ctx t) = before ctx ++ elements t ++ after ctx.
Proof.
  induction ctx as [|f ctx IH]; intros t; simpl.
  - by rewrite app_nil_r.
  - rewrite IH. destruct f; simpl; by rewrite <- ?app_assoc.
Qed.

(** The references of the nodes on the way up and of their other
    subtrees. *)
Fixpoint refs_ctx (ctx : list frame) : list ref :=
  match ctx with
  | [] => []
  | f :: ctx' => frame_ref f :: refs (sibling f) ++ refs_ctx ctx'
  end.

Lemma refs_node c l i k r : refs (Node c l i k r) = refs l ++ i :: refs r.
Proof. unfold refs. simpl. by rewrite map_app. Qed.

Lemma refs_plug ctx : forall t, refs (plug ctx t) ≡ₚ refs t ++ refs_ctx ctx.
Proof.
  induction ctx as [|f ctx IH]; intros t; simpl.
  - by rewrite app_nil_r.
  - rewrite IH. destruct f; simpl; rewrite refs_node; solve_Permutation.
Qed.

(** The reference of the root. *)
Fixpoint root_of (ctx : list frame) (o : option ref) : option ref :=
  match ctx with
  | [] => o
  | f :: ctx' => root_of ctx' (Some (frame_ref f))
  end.

Lemma ptr_fill f t : ptr (fill f t) = Some (frame_ref f).
Proof. by destruct f. Qed.

Lemma ptr_plug ctx : forall t, ptr (plug ctx t) = root_of ctx (ptr t).
Proof.
  induction ctx as [|f ctx IH]; intros t; simpl; [done |].
  by rewrite IH, ptr_fill.
Qed.

(** The object of a node on the way up, with the subtree [o] below it and
    the parent [p]. *)
Definition frame_node (f : frame) (o p : option ref) : RBNode :=
  match f with
  | InLeft c i k r => mkRBNode k c o (ptr r) p
  | InRight c l i k => mkRBNode k c (ptr l) o p
  end.

Fixpoint shape_ctx (h : list RBNode) (ctx : list frame) (o : option ref)
    : Prop :=
  match ctx with
  | [] => True
  | f :: ctx' =>
      h !! frame_ref f = Some (frame_node f o (parent_of ctx'))
      /\ shape h (Some (frame_ref f)) (sibling f)
      /\ shape_ctx h ctx' (Some (frame_ref f))
  end.

Lemma shape_fill h p f t :
  shape h p (fill f t)
  <-> h !! frame_ref f = Some (frame_node f (ptr t) p)
      /\ shape h (Some (frame_ref f)) (sibling f)
      /\ shape h (Some (frame_ref f)) t.
Proof. destruct f; simpl; tauto. Qed.

Lemma shape_plug h ctx : forall t,
  shape h None (plug ctx t)
  <-> shape_ctx h ctx (ptr t) /\ shape h (parent_of ctx) t.
Proof.
  induction ctx as [|f ctx IH]; intros t; simpl; [tauto |].
  rewrite IH, shape_fill, ptr_fill. tauto.
Qed.

(** A tree at a position in the tree object. *)
Definition at_pos (T : RedBlackTree) (ctx : list frame) (t : tree) : Prop :=
  root T = root_of ctx (ptr t)
  /\ shape_ctx (store T) ctx (ptr t)
  /\ shape (store T) (parent_of ctx) t
  /\ NoDup (refs t ++ refs_ctx ctx).

Lemma at_pos_represents T ctx t :
  at_pos T ctx t <-> represents T (plug ctx t).
Proof.
  unfold at_pos, represents.
  rewrite ptr_plug, shape_plug, refs_plug. tauto.
Qed.

Lemma at_pos_up T f ctx t :
  at_pos T (f :: ctx) t <-> at_pos T ctx (fill f t).
Proof. by rewrite !at_pos_represents. Qed.

(** ** Stores that agree on a tree *)

Ltac solve_elem :=
  rewrite ?refs_node; simpl; rewrite ?elem_of_app, ?elem_of_cons, ?elem_of_app;
  tauto.

Lemma shape_agree h h' t : forall p,
  (forall j, j ∈ refs t -> h' !! j = h !! j) -> shape h p t -> shape h' p t.
Proof.
  induction t as [|c l IHl i k r IHr]; intros p Hag; simpl; [done |].
  intros (Hi & Hl & Hr). rewrite refs_node in Hag.
  split; [| split].
  - rewrite Hag; [done |]. solve_elem.
  - apply IHl; [| done]. intros j Hj. apply Hag. solve_elem.
  - apply IHr; [| done]. intros j Hj. apply Hag. solve_elem.
Qed.

Lemma shape_ctx_agree h h' ctx : forall o,
  (forall j, j ∈ refs_ctx ctx -> h' !! j = h !! j) ->
  shape_ctx h ctx o -> shape_ctx h' ctx o.
Proof.
  induction ctx as [|f ctx IH]; intros o Hag; simpl; [done |].
  intros (Hf & Hs & Hc). simpl in Hag.
  split; [| split].
  - rewrite Hag; [done |]. solve_elem.
  - eapply shape_agree; [| done]. intros j Hj. apply Hag. solve_elem.
  - apply IH; [| done]. intros j Hj. apply Hag. solve_elem.
Qed.

(** The root of a subtree gets another parent. *)
Lemma shape_reparent h h' p p' t :
  match t with
  | Leaf => True
  | Node c l i k r =>
      h' !! i = Some (mkRBNode k c (ptr l) (ptr r) p')
      /\ (forall j, j ∈ refs l ++ refs r -> h' !! j = h !! j)
  end ->
  shape h p t -> shape h' p' t.
Proof.
  destruct t as [|c l i k r]; simpl; [done |].
  intros [Hi Hag] (_ & Hl & Hr). split; [done |].
  split; (eapply shape_agree; [| done]); intros j Hj; apply Hag; solve_elem.
Qed.

(** The subtree below the innermost node on the way up is replaced. *)
Lemma shape_ctx_repoint h h' ctx o o' :
  NoDup (refs_ctx ctx) ->
  match ctx with
  | [] => True
  | f :: ctx' =>
      h' !! frame_ref f = Some (frame_node f o' (parent_of ctx'))
      /\ (forall j, j ∈ refs (sibling f) ++ refs_ctx ctx' -> h' !! j = h !! j)
  end ->
  shape_ctx h ctx o -> shape_ctx h' ctx o'.
Proof.
  destruct ctx as [|f ctx]; simpl; [done |].
  intros Hnd [Hf Hag] (_ & Hs & Hc). split; [done |].
  split.
  - eapply shape_agree; [| done]. intros j Hj. apply Hag. solve_elem.
  - eapply shape_ctx_agree; [| done]. intros j Hj. apply Hag. solve_elem.
Qed.

Lemma shape_refs h t : forall p j, shape h p t -> j ∈ refs t -> j < length h.
Proof.
  induction t as [|c l IHl i k r IHr]; intros p j; simpl.
  - intros _ Hj. by apply elem_of_nil in Hj.
  - intros (Hi & Hl & Hr). rewrite refs_node.
    intros [Hj|[->|Hj]%elem_of_cons]%elem_of_app; eauto.
    by apply lookup_lt_Some in Hi.
Qed.

Lemma shape_ctx_refs h ctx : forall o j,
  shape_ctx h ctx o -> j ∈ refs_ctx ctx -> j < length h.
Proof.
  induction ctx as [|f ctx IH]; intros o j; simpl.
  - intros _ Hj. by apply elem_of_nil in Hj.
  - intros (Hf & Hs & Hc).
    intros [->|[Hj|Hj]%elem_of_app]%elem_of_cons.
    + by apply lookup_lt_Some in Hf.
    + by eapply shape_refs.
    + by eapply IH.
Qed.

(** ** Reading and coloring a node *)

(** What [NoDup] says about the references of a tree at a position. *)
Ltac nodup_facts H :=
  repeat (rewrite ?refs_node in H; simpl in H;
          rewrite ?NoDup_app, ?NoDup_cons, ?not_elem_of_app,
            ?not_elem_of_cons in H);
  destruct_and?.

Lemma get_at {A} (attr : RBNode -> A) T ctx c l i k r :
  at_pos T ctx (Node c l i k r) ->
  get attr (Some i) T
  = Ok (attr (mkRBNode k c (ptr l) (ptr r) (parent_of ctx)), T).
Proof.
  intros (_ & _ & (Hi & _) & _). unfold get. by rewrite Hi.
Qed.

Lemma at_pos_length T ctx t j :
  at_pos T ctx t -> j ∈ refs t ++ refs_ctx ctx -> j < length (store T).
Proof.
  intros (_ & Hc & Ht & _) [Hj|Hj]%elem_of_app.
  - by eapply shape_refs.
  - by eapply shape_ctx_refs.
Qed.

Lemma set_color_at c' T ctx c l i k r :
  at_pos T ctx (Node c l i k r) ->
  exists T',
    set (with_color c') (Some i) T = Ok (tt, T')
    /\ at_pos T' ctx (Node c' l i k r)
    /\ length (store T') = length (store T).
Proof.
  intros (Hroot & Hc & (Hi & Hl & Hr) & Hnd).
  eexists. unfold set. rewrite Hi. split; [done |]. simpl.
  split; [| by rewrite length_insert].
  pose proof (lookup_lt_Some _ _ _ Hi) as Hlt.
  rewrite refs_node in Hnd.
  apply NoDup_app in Hnd as (Hnd1 & Hnd2 & Hnd3).
  apply NoDup_app in Hnd1 as (Hl1 & Hl2 & Hl3).
  apply NoDup_cons in Hl3 as (Hi3 & Hr3).
  unfold at_pos. simpl. split; [done |]. split; [| split].
  - eapply shape_ctx_agree; [| done]. intros j Hj.
    apply list_lookup_insert_ne. intros ->.
    apply (Hnd2 j); [solve_elem | done].
  - split; [by rewrite list_lookup_insert_eq |].
    split; (eapply shape_agree; [| done]); intros j Hj;
      apply list_lookup_insert_ne; intros ->.
    + apply (Hl2 j); [done | solve_elem].
    + done.
  - rewrite refs_node. apply NoDup_app. split; [| done].
    apply NoDup_app. split; [done |]. split; [done |].
    by apply NoDup_cons.
Qed.

(** ** Running a method on a store whose objects are known *)

Lemma get_ok {A B} (attr : RBNode -> A) (k : A -> M B) T i n :
  store T !! i = Some n -> bind (get attr (Some i)) k T = k (attr n) T.
Proof. intros H. unfold bind, get. by rewrite H. Qed.

Lemma set_ok {B} upd (k : unit -> M B) T i n :
  store T !! i = Some n ->
  bind (set upd (Some i)) k T
  = k tt (mkTree (root T) (<[i := upd n]> (store T))).
Proof. intros H. unfold bind, set. by rewrite H. Qed.

Lemma set_last upd T i n :
  store T !! i = Some n ->
  set upd (Some i) T = Ok (tt, mkTree (root T) (<[i := upd n]> (store T))).
Proof. intros H. unfold set. by rewrite H. Qed.

Lemma set_root_ok {B} v (k : unit -> M B) T :
  bind (set_root v) k T = k tt (mkTree v (store T)).
Proof. done. Qed.

Lemma same_refl x : same x x = true.
Proof. unfold same. by apply bool_decide_eq_true_2. Qed.

Lemma same_ne x y : x <> y -> same x y = false.
Proof. unfold same. by apply bool_decide_eq_false_2. Qed.

Lemma ptr_refs t i : ptr t = Some i -> i ∈ refs t.
Proof.
  destruct t; simpl; [done |]. intros [= ->]. solve_elem.
Qed.

Lemma ptr_not_refs t i : i ∉ refs t -> Some i <> ptr t.
Proof. intros Hi Heq. by apply Hi, ptr_refs. Qed.

Ltac lookups :=
  repeat first
    [ rewrite list_lookup_insert_eq by (rewrite ?length_insert; done)
    | rewrite list_lookup_insert_ne by congruence ].

Ltac known := simpl; lookups; first [reflexivity | eassumption].

Ltac step :=
  first
    [ rewrite bind_assoc
    | rewrite bind_ret
    | rewrite set_root_ok
    | erewrite get_ok by known
    | erewrite set_ok by known
    | rewrite same_refl
    | rewrite same_ne by (first [congruence | by apply ptr_not_refs]) ];
  unfold with_color, with_left, with_right, with_parent; simpl.

Ltac run :=
  repeat step; unfold set, ret; simpl; lookups;
  unfold with_color, with_left, with_right, with_parent; simpl; reflexivity.

(** The store [h'] is [h] but for the objects [touched]. *)
Definition differ (h h' : list RBNode) (touched : list ref) : Prop :=
  forall j, j ∉ touched -> h' !! j = h !! j.

Lemma differ_refl h : differ h h [].
Proof. done. Qed.

Lemma differ_insert h h' touched i v :
  differ h h' touched -> differ h (<[i := v]> h') (i :: touched).
Proof.
  intros H j Hj. apply not_elem_of_cons in Hj as [Hne Hj].
  rewrite list_lookup_insert_ne by done. by apply H.
Qed.

Ltac differs := repeat apply differ_insert; apply differ_refl.

(** The references written to are distinct from each other and occur
    nowhere else. *)
Lemma NoDup_2 {A} (x y : A) : NoDup [x; y] -> x <> y.
Proof. intros [H _]%NoDup_cons. set_solver. Qed.

Lemma NoDup_3 {A} (x y z : A) :
  NoDup [x; y; z] -> x <> y /\ x <> z /\ y <> z.
Proof. intros [H1 [H2 _]%NoDup_cons]%NoDup_cons. set_solver. Qed.

Lemma NoDup_4 {A} (x y z w : A) :
  NoDup [x; y; z; w] ->
  x <> y /\ x <> z /\ x <> w /\ y <> z /\ y <> w /\ z <> w.
Proof.
  intros [H1 [H2 [H3 _]%NoDup_cons]%NoDup_cons]%NoDup_cons. set_solver.
Qed.

Ltac elem_tac :=
  rewrite ?refs_node; simpl;
  repeat rewrite ?elem_of_app, ?elem_of_cons;
  intuition (auto; congruence).

(** Splits the references of a tree at a position into the ones a method
    writes to and the others. *)
Ltac split_refs Hnd touched others Ht Hfresh :=
  match type of Hnd with
  | NoDup ?L =>
      let Hp := fresh "Hp" in
      assert (L ≡ₚ touched ++ others) as Hp
        by (rewrite ?refs_node; simpl; solve_Permutation);
      rewrite Hp in Hnd; clear Hp;
      apply NoDup_app in Hnd as (Ht & Hfresh & _)
  end.

(** No written reference is in a part of the others. *)
Ltac fresh_in Hfresh :=
  repeat constructor;
  match goal with
  | |- ?j ∉ _ =>
      let Hin := fresh "Hin" in
      intros Hin; apply (Hfresh j); revert Hin; elem_tac
  end.

Lemma shape_differ h h' touched p t :
  differ h h' touched -> Forall (fun j => j ∉ refs t) touched ->
  shape h p t -> shape h' p t.
Proof.
  intros Hd Ht. apply shape_agree. intros j Hj. apply Hd.
  rewrite Forall_forall in Ht. intros Hin. by apply (Ht j).
Qed.

Lemma shape_ctx_differ h h' touched ctx o :
  differ h h' touched -> Forall (fun j => j ∉ refs_ctx ctx) touched ->
  shape_ctx h ctx o -> shape_ctx h' ctx o.
Proof.
  intros Hd Ht. apply shape_ctx_agree. intros j Hj. apply Hd.
  rewrite Forall_forall in Ht. intros Hin. by apply (Ht j).
Qed.

(** A subtree is replaced by another one. *)
Lemma at_pos_replace T ctx t T' t' touched :
  at_pos T ctx t ->
  differ (store T) (store T') touched ->
  root T' = root_of ctx (ptr t') ->
  NoDup (refs t' ++ refs_ctx ctx) ->
  match ctx with
  | [] => True
  | f :: ctx' =>
      store T' !! frame_ref f = Some (frame_node f (ptr t') (parent_of ctx'))
      /\ Forall (fun j => j ∉ refs (sibling f) ++ refs_ctx ctx') touched
  end ->
  shape (store T') (parent_of ctx) t' ->
  at_pos T' ctx t'.
Proof.
  intros (Hroot & Hc & Ht & Hnd) Hd Hroot' Hnd' Hctx Ht'.
  split; [done |]. split; [| split; [done |]].
  - destruct ctx as [|f ctx']; [done |].
    destruct Hctx as [Hf Hfresh]. destruct Hc as (_ & Hs & Hc).
    split; [done |]. split.
    + eapply shape_differ; [done | | done].
      eapply Forall_impl; [exact Hfresh |]. simpl. intros j Hj Hin.
      apply Hj. solve_elem.
    + eapply shape_ctx_differ; [done | | done].
      eapply Forall_impl; [exact Hfresh |]. simpl. intros j Hj Hin.
      apply Hj. solve_elem.
  - done.
Qed.

(** A subtree is replaced by another one with the same nodes. *)
Lemma at_pos_change T ctx t T' t' touched :
  at_pos T ctx t ->
  differ (store T) (store T') touched ->
  root T' = root_of ctx (ptr t') ->
  refs t' ≡ₚ refs t ->
  match ctx with
  | [] => True
  | f :: ctx' =>
      store T' !! frame_ref f = Some (frame_node f (ptr t') (parent_of ctx'))
      /\ Forall (fun j => j ∉ refs (sibling f) ++ refs_ctx ctx') touched
  end ->
  shape (store T') (parent_of ctx) t' ->
  at_pos T' ctx t'.
Proof.
  intros H Hd Hroot Hp Hctx Ht'.
  eapply at_pos_replace; try done.
  destruct H as (_ & _ & _ & Hnd). by rewrite Hp.
Qed.

(** ** Rotations *)

(** The shape of a tree in a store that was written to, from the shapes of
    its parts in the store before. *)
Ltac solve_shape Hfresh :=
  simpl; lookups;
  repeat match goal with
    | |- _ /\ _ => split
    | |- True => exact I
    | |- Some _ = Some _ => reflexivity
    | |- shape _ _ ?t =>
        is_var t; eapply shape_differ;
        [differs | fresh_in Hfresh | eassumption]
    end.

Ltac solve_rotation Hpos Hfresh :=
  eexists; split;
  [ unfold left_rotate, right_rotate; run
  | split; [| simpl; by rewrite !length_insert];
    eapply at_pos_change;
    [ exact Hpos
    | simpl; differs
    | done
    | rewrite !refs_node; simpl; solve_Permutation
    | simpl; lookups;
      first [exact I | split; [reflexivity | fresh_in Hfresh]]
    | solve_shape Hfresh ] ].

Lemma left_rotate_at T ctx cx a x kx cy b y ky c :
  at_pos T ctx (Node cx a x kx (Node cy b y ky c)) ->
  exists T',
    left_rotate (Some x) T = Ok (tt, T')
    /\ at_pos T' ctx (Node cy (Node cx a x kx b) y ky c)
    /\ length (store T') = length (store T).
Proof.
  intros Hpos.
  pose proof Hpos as (Hroot & Hc & (Hx & Ha & Hy & Hb & Hcc) & Hnd).
  pose proof (lookup_lt_Some _ _ _ Hx) as Hxlt.
  pose proof (lookup_lt_Some _ _ _ Hy) as Hylt.
  destruct b as [|cb bl bi bk br].
  - destruct ctx as [|[cf p kf sf|cf sf p kf] ctx']; simpl in *.
    + split_refs Hnd [x; y] (refs a ++ refs c) Ht Hfresh.
      apply NoDup_2 in Ht.
      solve_rotation Hpos Hfresh.
    + destruct Hc as (Hp & Hsf & Hc).
      pose proof (lookup_lt_Some _ _ _ Hp) as Hplt.
      split_refs Hnd [x; y; p] (refs a ++ refs c ++ refs sf ++ refs_ctx ctx')
        Ht Hfresh.
      apply NoDup_3 in Ht as (? & ? & ?).
      solve_rotation Hpos Hfresh.
    + destruct Hc as (Hp & Hsf & Hc).
      pose proof (lookup_lt_Some _ _ _ Hp) as Hplt.
      split_refs Hnd [x; y; p] (refs a ++ refs c ++ refs sf ++ refs_ctx ctx')
        Ht Hfresh.
      apply NoDup_3 in Ht as (? & ? & ?).
      assert (x ∉ refs sf) as Hxsf by fresh_in Hfresh.
      solve_rotation Hpos Hfresh.
  - destruct Hb as (Hbi & Hbl & Hbr).
    pose proof (lookup_lt_Some _ _ _ Hbi) as Hbilt.
    destruct ctx as [|[cf p kf sf|cf sf p kf] ctx']; simpl in *.
    + split_refs Hnd [x; y; bi] (refs a ++ refs bl ++ refs br ++ refs c)
        Ht Hfresh.
      apply NoDup_3 in Ht as (? & ? & ?).
      solve_rotation Hpos Hfresh.
    + destruct Hc as (Hp & Hsf & Hc).
      pose proof (lookup_lt_Some _ _ _ Hp) as Hplt.
      split_refs Hnd [x; y; bi; p]
        (refs a ++ refs bl ++ refs br ++ refs c ++ refs sf ++ refs_ctx ctx')
        Ht Hfresh.
      apply NoDup_4 in Ht as (? & ? & ? & ? & ? & ?).
      solve_rotation Hpos Hfresh.
    + destruct Hc as (Hp & Hsf & Hc).
      pose proof (lookup_lt_Some _ _ _ Hp) as Hplt.
      split_refs Hnd [x; y; bi; p]
        (refs a ++ refs bl ++ refs br ++ refs c ++ refs sf ++ refs_ctx ctx')
        Ht Hfresh.
      apply NoDup_4 in Ht as (? & ? & ? & ? & ? & ?).
      assert (x ∉ refs sf) as Hxsf by fresh_in Hfresh.
      solve_rotation Hpos Hfresh.
Qed.

Lemma right_rotate_at T ctx cx a x kx cy b y ky c :
  at_pos T ctx (Node cy (Node cx a x kx b) y ky c) ->
  exists T',
    right_rotate (Some y) T = Ok (tt, T')
    /\ at_pos T' ctx (Node cx a x kx (Node cy b y ky c))
    /\ length (store T') = length (store T).
Proof.
  intros Hpos.
  pose proof Hpos as (Hroot & Hc & (Hy & (Hx & Ha & Hb) & Hcc) & Hnd).
  pose proof (lookup_lt_Some _ _ _ Hx) as Hxlt.
  pose proof (lookup_lt_Some _ _ _ Hy) as Hylt.
  destruct b as [|cb bl bi bk br].
  - destruct ctx as [|[cf p kf sf|cf sf p kf] ctx']; simpl in *.
    + split_refs Hnd [x; y] (refs a ++ refs c) Ht Hfresh.
      apply NoDup_2 in Ht.
      solve_rotation Hpos Hfresh.
    + destruct Hc as (Hp & Hsf & Hc).
      pose proof (lookup_lt_Some _ _ _ Hp) as Hplt.
      split_refs Hnd [x; y; p] (refs a ++ refs c ++ refs sf ++ refs_ctx ctx')
        Ht Hfresh.
      apply NoDup_3 in Ht as (? & ? & ?).
      assert (y ∉ refs sf) as Hysf by fresh_in Hfresh.
      solve_rotation Hpos Hfresh.
    + destruct Hc as (Hp & Hsf & Hc).
      pose proof (lookup_lt_Some _ _ _ Hp) as Hplt.
      split_refs Hnd [x; y; p] (refs a ++ refs c ++ refs sf ++ refs_ctx ctx')
        Ht Hfresh.
      apply NoDup_3 in Ht as (? & ? & ?).
      solve_rotation Hpos Hfresh.
  - destruct Hb as (Hbi & Hbl & Hbr).
    pose proof (lookup_lt_Some _ _ _ Hbi) as Hbilt.
    destruct ctx as [|[cf p kf sf|cf sf p kf] ctx']; simpl in *.
    + split_refs Hnd [x; y; bi] (refs a ++ refs bl ++ refs br ++ refs c)
        Ht Hfresh.
      apply NoDup_3 in Ht as (? & ? & ?).
      solve_rotation Hpos Hfresh.
    + destruct Hc as (Hp & Hsf & Hc).
      pose proof (lookup_lt_Some _ _ _ Hp) as Hplt.
      split_refs Hnd [x; y; bi; p]
        (refs a ++ refs bl ++ refs br ++ refs c ++ refs sf ++ refs_ctx ctx')
        Ht Hfresh.
      apply NoDup_4 in Ht as (? & ? & ? & ? & ? & ?).
      assert (y ∉ refs sf) as Hysf by fresh_in Hfresh.
      solve_rotation Hpos Hfresh.
    + destruct Hc as (Hp & Hsf & Hc).
      pose proof (lookup_lt_Some _ _ _ Hp) as Hplt.
      split_refs Hnd [x; y; bi; p]
        (refs a ++ refs bl ++ refs br ++ refs c ++ refs sf ++ refs_ctx ctx')
        Ht Hfresh.
      apply NoDup_4 in Ht as (? & ? & ? & ? & ? & ?).
      solve_rotation Hpos Hfresh.
Qed.


(** ** The methods on a tree object that holds a tree *)

Lemma rep_shape T ctx t :
  represents T (plug ctx t) -> shape (store T) (parent_of ctx) t.
Proof. intros H. by apply at_pos_represents in H as (_ & _ & ? & _). Qed.

Lemma rep_nodup T ctx t : represents T (plug ctx t) -> NoDup (refs t).
Proof.
  intros H. apply at_pos_represents in H as (_ & _ & _ & Hnd).
  by apply NoDup_app in Hnd as [? _].
Qed.

Lemma nodup_left c l i k r : NoDup (refs (Node c l i k r)) -> NoDup (refs l).
Proof. rewrite refs_node. by intros [? _]%NoDup_app. Qed.

Lemma nodup_right c l i k r : NoDup (refs (Node c l i k r)) -> NoDup (refs r).
Proof.
  rewrite refs_node. by intros (_ & _ & [_ ?]%NoDup_cons)%NoDup_app.
Qed.

(** The roots of the two subtrees of a node are different objects. *)
Lemma children_differ c l i k r a :
  NoDup (refs (Node c l i k r)) -> ptr l = Some a -> Some a <> ptr r.
Proof.
  rewrite refs_node. intros (_ & Hd & _)%NoDup_app Hl Hr.
  apply ptr_refs in Hl. symmetry in Hr. apply ptr_refs in Hr.
  apply (Hd a Hl). by right.
Qed.

Lemma children_differ' c l i k r a :
  NoDup (refs (Node c l i k r)) -> ptr r = Some a -> Some a <> ptr l.
Proof.
  rewrite refs_node. intros (_ & Hd & _)%NoDup_app Hr Hl.
  apply ptr_refs in Hr. symmetry in Hl. apply ptr_refs in Hl.
  apply (Hd a Hl). by right.
Qed.

Lemma set_color_rep c' T ctx c l i k r :
  represents T (plug ctx (Node c l i k r)) ->
  exists T',
    (forall B (kont : unit -> M B),
        bind (set (with_color c') (Some i)) kont T = kont tt T')
    /\ represents T' (plug ctx (Node c' l i k r))
    /\ length (store T') = length (store T).
Proof.
  intros H. apply at_pos_represents in H.
  destruct (set_color_at c' _ _ _ _ _ _ _ H) as (T' & E & H' & Hlen).
  exists T'. split; [| split; [by apply at_pos_represents | done]].
  intros B kont. by apply bind_ok.
Qed.

Lemma left_rotate_rep T ctx cx a x kx cy b y ky c :
  represents T (plug ctx (Node cx a x kx (Node cy b y ky c))) ->
  exists T',
    (forall B (kont : unit -> M B),
        bind (left_rotate (Some x)) kont T = kont tt T')
    /\ represents T' (plug ctx (Node cy (Node cx a x kx b) y ky c))
    /\ length (store T') = length (store T).
Proof.
  intros H. apply at_pos_represents in H.
  destruct (left_rotate_at _ _ _ _ _ _ _ _ _ _ _ H) as (T' & E & H' & Hlen).
  exists T'. split; [| split; [by apply at_pos_represents | done]].
  intros B kont. by apply bind_ok.
Qed.

Lemma right_rotate_rep T ctx cx a x kx cy b y ky c :
  represents T (plug ctx (Node cy (Node cx a x kx b) y ky c)) ->
  exists T',
    (forall B (kont : unit -> M B),
        bind (right_rotate (Some y)) kont T = kont tt T')
    /\ represents T' (plug ctx (Node cx a x kx (Node cy b y ky c)))
    /\ length (store T') = length (store T).
Proof.
  intros H. apply at_pos_represents in H.
  destruct (right_rotate_at _ _ _ _ _ _ _ _ _ _ _ H) as (T' & E & H' & Hlen).
  exists T'. split; [| split; [by apply at_pos_represents | done]].
  intros B kont. by apply bind_ok.
Qed.

(** ** The loop of [insert_fixup] *)

(** The method [m] returns from the tree object [T], and [P] holds of what
    it returns and of the tree object then. *)
Definition returns {A} (m : M A) (T : RedBlackTree)
    (P : A -> RedBlackTree -> Prop) : Prop :=
  match m T with
  | Ok (a, T') => P a T'
  | _ => False
  end.

Lemma returns_iff {A} (m : M A) T P :
  returns m T P <-> exists a T', m T = Ok (a, T') /\ P a T'.
Proof.
  unfold returns. destruct (m T) as [[a T']| |].
  - split; [by eauto |]. by intros (? & ? & [= <- <-] & ?).
  - split; [done |]. by intros (? & ? & ? & ?).
  - split; [done |]. by intros (? & ? & ? & ?).
Qed.

Ltac facts H :=
  let Hs := fresh "Hs" in
  pose proof (rep_shape _ _ _ H) as Hs; simpl in Hs; destruct_and?.

Ltac rstep :=
  first
    [ rewrite bind_assoc
    | rewrite bind_ret
    | erewrite get_ok by eassumption
    | rewrite same_refl
    | rewrite same_ne by (first [congruence | eassumption]) ];
  simpl.

Ltac paint c ctx H :=
  let T' := fresh "T" in
  let E := fresh "E" in
  let H' := fresh "H" in
  let L := fresh "L" in
  destruct (set_color_rep c _ ctx _ _ _ _ _ H) as (T' & E & H' & L);
  rewrite E; clear E H; rename H' into H; simpl in H; facts H.

Ltac rot_left ctx H :=
  let T' := fresh "T" in
  let E := fresh "E" in
  let H' := fresh "H" in
  let L := fresh "L" in
  destruct (left_rotate_rep _ ctx _ _ _ _ _ _ _ _ _ H) as (T' & E & H' & L);
  rewrite E; clear E H; rename H' into H; simpl in H; facts H.

Ltac rot_right ctx H :=
  let T' := fresh "T" in
  let E := fresh "E" in
  let H' := fresh "H" in
  let L := fresh "L" in
  destruct (right_rotate_rep _ ctx _ _ _ _ _ _ _ _ _ H) as (T' & E & H' & L);
  rewrite E; clear E H; rename H' into H; simpl in H; facts H.

(** The loop ends at a node without parent or with a black parent. *)
Lemma fixup_loop_exit n f ctx T c l z k r :
  represents T (plug (f :: ctx) (Node c l z k r)) ->
  frame_color f = Black ->
  fixup_loop (S n) (Some z) T = Ok (tt, T).
Proof.
  intros H Hf. facts H. apply at_pos_represents in H as H'.
  destruct H' as (_ & (Hp & _) & _).
  destruct f; simpl in *; subst; unfold red; repeat rstep; done.
Qed.

Ltac start H := simpl in H; facts H.

Ltac unfold_loop :=
  simpl fixup_loop;
  unfold red, grandparent, set_parent_color, set_grandparent_color;
  repeat rstep.

(** [z] is not the right child of its parent, whose left child it is. *)
Ltac ne_right_of_z H :=
  match type of H with
  | represents _ (plug _ (Node _ (Node _ (Node _ _ ?z _ _) _ _ ?s) _ _ _)) =>
      assert (Some z <> ptr s)
        by (eapply children_differ;
            [eapply nodup_left, rep_nodup, H | done])
  end.

(** [z] is not the left child of its parent, whose right child it is. *)
Ltac ne_left_of_z H :=
  match type of H with
  | represents _ (plug _ (Node _ _ _ _ (Node _ ?s _ _ (Node _ _ ?z _ _)))) =>
      assert (Some z <> ptr s)
        by (eapply children_differ';
            [eapply nodup_right, rep_nodup, H | done])
  end.

(** The parent, a right child, is not the left child of its parent. *)
Ltac ne_uncle H :=
  match type of H with
  | represents _ (plug _ (Node _ ?u _ _ (Node _ _ ?p _ _))) =>
      let Hne := fresh "Hne" in
      assert (Some p <> ptr u) as Hne
        by (eapply children_differ'; [eapply rep_nodup, H | done]);
      simpl in Hne
  end.

Ltac finish_exit f ctx H :=
  match goal with
  | |- context [fixup_loop ?n _ _] =>
      destruct n; [simpl in *; lia |]
  end;
  erewrite (fixup_loop_exit _ f ctx) by done;
  split; [done | congruence].

Ltac finish_loop IH H :=
  match goal with
  | |- context [fixup_loop ?n (Some ?g) ?T] =>
      let R := fresh "R" in
      unshelve epose proof (IH _ _ _ _ _ _ _ _ H) as R;
      [simpl in *; lia |];
      unfold returns in R;
      destruct (fixup_loop n (Some g) T) as [[[] ?]| |]; [| done..];
      destruct R; split; [done | congruence]
  end.

Lemma fixup_loop_rep n : forall ctx T c l z k r,
  length ctx < n ->
  represents T (plug ctx (Node c l z k r)) ->
  returns (fixup_loop n (Some z)) T (fun _ T' =>
    represents T' (fixup ctx (Node c l z k r))
    /\ length (store T') = length (store T)).
Proof.
  induction n as [|n IH]; intros ctx T c l z k r Hn H; [lia |].
  unfold returns.
  destruct ctx as [|f [|g ctx']].
  - facts H. simpl. repeat rstep. done.
  - facts H. apply at_pos_represents in H as H'.
    destruct H' as (_ & (Hf & _) & _). simpl in Hf.
    destruct f as [[] ? ? ?|[] ? ? ?]; simpl in *.
    all: unfold red, grandparent; repeat rstep; done.
  - simpl in Hn.
    destruct (frame_color f) eqn:Hcf; cycle 1.
    { (* the parent is black *)
      simpl fixup. rewrite Hcf. simpl. facts H.
      destruct f as [? ? ? ?|? ? ? ?], g as [? ? ? ?|? ? ? ?];
        simpl in *; subst; facts H;
        unfold red, grandparent; repeat rstep; done. }
    destruct g as [cg gi gk u|cg u gi gk], f as [cp pi pk s|cp s pi pk];
      simpl in Hcf; subst cp; simpl fixup;
      destruct u as [|[] ul ui uk ur]; simpl red_root; cbv iota.
    (* the parent is a left child *)
    + start H. ne_right_of_z H. unfold_loop.
      paint Black (InLeft cg gi gk Leaf :: ctx') H. repeat rstep.
      paint Red ctx' H. repeat rstep.
      rot_right ctx' H.
      finish_exit (InLeft Black pi pk (Node Red s gi gk Leaf)) ctx' H.
    + start H. unfold_loop.
      paint Black (InLeft cg gi gk (Node Red ul ui uk ur) :: ctx') H.
      repeat rstep.
      paint Black (InRight cg (Node Black (Node c l z k r) pi pk s) gi gk
                   :: ctx') H.
      repeat rstep.
      paint Red ctx' H. repeat rstep.
      finish_loop IH H.
    + start H. ne_right_of_z H. unfold_loop.
      paint Black (InLeft cg gi gk (Node Black ul ui uk ur) :: ctx') H.
      repeat rstep.
      paint Red ctx' H. repeat rstep.
      rot_right ctx' H.
      finish_exit (InLeft Black pi pk (Node Red s gi gk (Node Black ul ui uk ur)))
        ctx' H.
    + start H. unfold_loop.
      rot_left (InLeft cg gi gk Leaf :: ctx') H. repeat rstep.
      paint Black (InLeft cg gi gk Leaf :: ctx') H. repeat rstep.
      paint Red ctx' H. repeat rstep.
      rot_right ctx' H.
      finish_exit (InLeft Black z k (Node Red r gi gk Leaf)) ctx' H.
    + start H. unfold_loop.
      paint Black (InLeft cg gi gk (Node Red ul ui uk ur) :: ctx') H.
      repeat rstep.
      paint Black (InRight cg (Node Black s pi pk (Node c l z k r)) gi gk
                   :: ctx') H.
      repeat rstep.
      paint Red ctx' H. repeat rstep.
      finish_loop IH H.
    + start H. unfold_loop.
      rot_left (InLeft cg gi gk (Node Black ul ui uk ur) :: ctx') H.
      repeat rstep.
      paint Black (InLeft cg gi gk (Node Black ul ui uk ur) :: ctx') H.
      repeat rstep.
      paint Red ctx' H. repeat rstep.
      rot_right ctx' H.
      finish_exit (InLeft Black z k (Node Red r gi gk (Node Black ul ui uk ur)))
        ctx' H.
    (* the parent is a right child *)
    + start H. unfold_loop.
      rot_right (InRight cg Leaf gi gk :: ctx') H. repeat rstep.
      paint Black (InRight cg Leaf gi gk :: ctx') H. repeat rstep.
      paint Red ctx' H. repeat rstep.
      rot_left ctx' H.
      finish_exit (InRight Black (Node Red Leaf gi gk l) z k) ctx' H.
    + start H. ne_uncle H. unfold_loop.
      paint Black (InRight cg (Node Red ul ui uk ur) gi gk :: ctx') H.
      repeat rstep.
      paint Black (InLeft cg gi gk (Node Black (Node c l z k r) pi pk s)
                   :: ctx') H.
      repeat rstep.
      paint Red ctx' H. repeat rstep.
      finish_loop IH H.
    + start H. ne_uncle H. unfold_loop.
      rot_right (InRight cg (Node Black ul ui uk ur) gi gk :: ctx') H.
      repeat rstep.
      paint Black (InRight cg (Node Black ul ui uk ur) gi gk :: ctx') H.
      repeat rstep.
      paint Red ctx' H. repeat rstep.
      rot_left ctx' H.
      finish_exit (InRight Black (Node Red (Node Black ul ui uk ur) gi gk l) z k)
        ctx' H.
    + start H. ne_left_of_z H. unfold_loop.
      paint Black (InRight cg Leaf gi gk :: ctx') H. repeat rstep.
      paint Red ctx' H. repeat rstep.
      rot_left ctx' H.
      finish_exit (InRight Black (Node Red Leaf gi gk s) pi pk) ctx' H.
    + start H. ne_uncle H. unfold_loop.
      paint Black (InRight cg (Node Red ul ui uk ur) gi gk :: ctx') H.
      repeat rstep.
      paint Black (InLeft cg gi gk (Node Black s pi pk (Node c l z k r))
                   :: ctx') H.
      repeat rstep.
      paint Red ctx' H. repeat rstep.
      finish_loop IH H.
    + start H. ne_uncle H. ne_left_of_z H. unfold_loop.
      paint Black (InRight cg (Node Black ul ui uk ur) gi gk :: ctx') H.
      repeat rstep.
      paint Red ctx' H. repeat rstep.
      rot_left ctx' H.
      finish_exit (InRight Black (Node Red (Node Black ul ui uk ur) gi gk s) pi pk)
        ctx' H.
Qed.

(** ** [insert_fixup] *)

Lemma bounded_nodup_length (l : list nat) n :
  NoDup l -> (forall j, j ∈ l -> j < n) -> length l <= n.
Proof.
  intros Hnd Hlt.
  trans (length (seq 0 n)); [| by rewrite length_seq].
  apply submseteq_length.
  apply NoDup_submseteq; [done |].
  intros j Hj. apply elem_of_seq. specialize (Hlt j Hj). lia.
Qed.

Lemma refs_ctx_length ctx : length ctx <= length (refs_ctx ctx).
Proof.
  induction ctx as [|f ctx IH]; simpl; [done |].
  rewrite length_app. lia.
Qed.

Lemma rep_size T ctx t :
  represents T (plug ctx t) ->
  length (refs t) + length ctx <= length (store T).
Proof.
  intros H. apply at_pos_represents in H as H'.
  destruct H' as (_ & _ & _ & Hnd).
  pose proof (bounded_nodup_length _ (length (store T)) Hnd) as Hlen.
  rewrite length_app in Hlen.
  pose proof (refs_ctx_length ctx).
  etrans; [| apply Hlen]; [lia |].
  intros j Hj. eapply at_pos_length; [| done].
  by apply at_pos_represents.
Qed.

Lemma repaint_ptr c t : ptr (repaint c t) = ptr t.
Proof. by destruct t. Qed.

Lemma insert_fixup_rep ctx T c l z k r :
  represents T (plug ctx (Node c l z k r)) ->
  returns (insert_fixup (Some z)) T (fun _ T' =>
    represents T' (repaint Black (fixup ctx (Node c l z k r)))
    /\ length (store T') = length (store T)).
Proof.
  intros H. unfold returns, insert_fixup.
  pose proof (rep_size _ _ _ H) as Hsize.
  rewrite refs_node, length_app in Hsize. simpl in Hsize.
  pose proof (fixup_loop_rep (length (store T)) ctx T c l z k r
                ltac:(lia) H) as R.
  unfold returns in R.
  rewrite !bind_assoc. unfold allocated at 1. unfold bind at 1. simpl.
  unfold bind at 1.
  destruct (fixup_loop (length (store T)) (Some z) T) as [[[] T1]| |];
    [| done..].
  destruct R as [H1 L1].
  unfold get_root, bind at 1. simpl.
  destruct H1 as (Hroot & Hshape & Hnd). rewrite Hroot.
  destruct (fixup ctx (Node c l z k r)) as [|c1 l1 i1 k1 r1] eqn:Hfix; simpl.
  - split; [| done]. by split.
  - assert (at_pos T1 [] (Node c1 l1 i1 k1 r1)) as H1.
    { apply at_pos_represents. by split. }
    destruct (set_color_at Black _ _ _ _ _ _ _ H1) as (T2 & E & H2 & L2).
    unfold set in E. rewrite E.
    apply at_pos_represents in H2. split; [done | congruence].
Qed.

(** ** The descent of [insert] *)

Lemma descend_rep k T t : forall ctx fuel,
  shape (store T) (parent_of ctx) t -> length (refs t) <= fuel ->
  descend fuel (Str k) (parent_of ctx) (ptr t) T
  = Ok (parent_of (path k ctx t), T).
Proof.
  induction t as [|c l IHl i kx r IHr]; intros ctx fuel Hs Hfuel; simpl.
  - by destruct fuel.
  - rewrite refs_node, length_app in Hfuel. simpl in Hfuel.
    destruct fuel as [|fuel]; [lia |]. destruct Hs as (Hi & Hl & Hr).
    simpl. rstep. unfold lift. simpl. unfold bind at 1. simpl.
    destruct (String.ltb k kx).
    + rstep. apply (IHl (InLeft c i kx r :: ctx)); [done | lia].
    + rstep. apply (IHr (InRight c l i kx :: ctx)); [done | lia].
Qed.

Lemma plug_path k t : forall ctx, plug (path k ctx t) Leaf = plug ctx t.
Proof.
  induction t as [|c l IHl i kx r IHr]; intros ctx; simpl; [done |].
  destruct (String.ltb k kx); [by rewrite IHl | by rewrite IHr].
Qed.

(** [k] went to the side of the node where the way continues. *)
Definition went (k : string) (f : frame) : Prop :=
  match f with
  | InLeft _ _ kf _ => String.ltb k kf = true
  | InRight _ _ _ kf => String.ltb k kf = false
  end.

Lemma path_went k t : forall ctx,
  Forall (went k) ctx -> Forall (went k) (path k ctx t).
Proof.
  induction t as [|c l IHl i kx r IHr]; intros ctx Hctx; simpl; [done |].
  destruct (String.ltb k kx) eqn:E; [apply IHl | apply IHr];
    by constructor.
Qed.

(** ** [insert] *)

(** The new object is linked below the last node of the descent. *)
Lemma link_at T ctx k z :
  at_pos T ctx Leaf ->
  store T !! z = Some (mkRBNode k Red None None None) ->
  z ∉ refs_ctx ctx ->
  Forall (went k) ctx ->
  returns
    (set (with_parent (parent_of ctx)) (Some z);;
     match parent_of ctx with
     | None => set_root (Some z)
     | Some _ =>
         let* yk := get key (parent_of ctx) in
         let* b := lift (Py.lt (Str k) yk) in
         if b : bool then set (with_left (Some z)) (parent_of ctx)
         else set (with_right (Some z)) (parent_of ctx)
     end)
    T
    (fun _ T' =>
       at_pos T' ctx (Node Red Leaf z k Leaf)
       /\ length (store T') = length (store T)).
Proof.
  intros Hpos Hz Hfresh Hwent. unfold returns.
  pose proof Hpos as (Hroot & Hc & _ & Hnd). simpl in Hnd.
  pose proof (lookup_lt_Some _ _ _ Hz) as Hzlt.
  destruct ctx as [|f ctx']; simpl in *.
  - repeat step. split; [| by rewrite length_insert].
    eapply at_pos_replace; [exact Hpos | simpl; differs | done | | done |].
    + simpl. apply NoDup_singleton.
    + simpl. lookups. done.
  - destruct Hc as (Hp & Hsf & Hc).
    pose proof (lookup_lt_Some _ _ _ Hp) as Hplt.
    apply Forall_cons in Hwent as [Hf _].
    assert (z <> frame_ref f) as Hzp.
    { intros ->. apply Hfresh. by left. }
    apply NoDup_cons in Hnd as [Hpn Hnd'].
    assert (Forall (fun j => j ∉ refs (sibling f) ++ refs_ctx ctx')
              [frame_ref f; z]) as Htouched.
    { repeat constructor; [done |].
      intros Hin. apply Hfresh. by right. }
    destruct f as [cf p kf sf|cf sf p kf]; simpl in *;
      repeat step; unfold lift; simpl; rewrite Hf; unfold bind at 1;
      (erewrite set_last by known);
      unfold with_left, with_right; simpl;
      (split; [| by rewrite !length_insert]);
      (eapply at_pos_replace;
       [ exact Hpos | simpl; differs | done
       | simpl; apply NoDup_cons; split; [done | by apply NoDup_cons]
       | simpl; lookups; split; [done | done]
       | simpl; lookups; done ]).
Qed.

Lemma new_node_rep T t k :
  represents T t ->
  represents (mkTree (root T) (store T ++ [mkRBNode k Red None None None])) t.
Proof.
  intros (Hroot & Hs & Hnd). split; [done |]. split; [| done]. simpl.
  eapply shape_agree; [| done]. intros j Hj.
  apply lookup_app_l. by eapply shape_refs.
Qed.

Lemma rep_fresh T t j : represents T t -> j ∈ refs t -> j < length (store T).
Proof. intros (_ & Hs & _) Hj. by eapply shape_refs. Qed.

(** [insert] of a string into a tree object that holds a tree returns, and
    the tree object then holds the tree with the new node. *)
Lemma new_node_ok {B} k (kont : option ref -> M B) T :
  bind (new_node k) kont T
  = kont (Some (length (store T)))
      (mkTree (root T) (store T ++ [mkRBNode k Red None None None])).
Proof. done. Qed.

Lemma get_root_ok {B} (kont : option ref -> M B) T :
  bind get_root kont T = kont (root T) T.
Proof. done. Qed.

Lemma allocated_ok {B} (kont : nat -> M B) T :
  bind allocated kont T = kont (length (store T)) T.
Proof. done. Qed.

Lemma returns_bind {A B} (m : M A) (kont : A -> M B) T P Q :
  returns m T P ->
  (forall a T', P a T' -> returns (kont a) T' Q) ->
  returns (bind m kont) T Q.
Proof.
  unfold returns, bind. destruct (m T) as [[a T']| |]; [| done..].
  intros HP HQ. by apply HQ.
Qed.

Lemma returns_impl {A} (m : M A) T (P Q : A -> RedBlackTree -> Prop) :
  returns m T P -> (forall a T', P a T' -> Q a T') -> returns m T Q.
Proof.
  unfold returns. destruct (m T) as [[a T']| |]; [| done..].
  intros HP HQ. by apply HQ.
Qed.

Lemma insert_rep T t k :
  represents T t ->
  returns (insert (Str k)) T (fun _ T' =>
    represents T' (insert_tree k (length (store T)) t)
    /\ length (store T') = S (length (store T))).
Proof.
  intros H. unfold returns at 1, insert.
  rewrite new_node_ok. simpl Py.str.
  pose proof (new_node_rep T t k H) as H1.
  remember (length (store T)) as z eqn:Ez.
  remember (mkTree (root T) (store T ++ [mkRBNode k Red None None None]))
    as T1 eqn:ET1.
  assert (store T1 !! z = Some (mkRBNode k Red None None None)) as Hz.
  { subst. simpl. rewrite lookup_app_r by done.
    by rewrite Nat.sub_diag. }
  assert (length (store T1) = S z) as L1.
  { subst. simpl. rewrite length_app. simpl. lia. }
  assert (root T1 = ptr t) as Hroot1 by apply H1.
  rewrite get_root_ok, allocated_ok, L1, Hroot1.
  pose proof (rep_size T1 [] t H1) as Hsize. simpl in Hsize.
  rewrite Nat.add_0_r in Hsize.
  erewrite (bind_ok (descend _ _ _ _));
    [| apply (descend_rep k T1 t []); [apply H1 | lia]].
  remember (path k [] t) as ctx eqn:Ectx.
  assert (represents T1 (plug ctx Leaf)) as Hp.
  { subst ctx. by rewrite plug_path. }
  assert (z ∉ refs_ctx ctx) as Hfresh.
  { intros Hin.
    assert (z ∈ refs (plug ctx Leaf)) as Hin'.
    { rewrite refs_plug. by apply elem_of_app; right. }
    subst ctx. rewrite plug_path in Hin'.
    assert (z < length (store T)); [| lia].
    eapply rep_fresh; done. }
  assert (Forall (went k) ctx) as Hwent.
  { subst ctx. by apply path_went. }
  pose proof (link_at T1 ctx k z (proj2 (at_pos_represents _ _ _) Hp) Hz
                Hfresh Hwent) as R.
  rewrite <- bind_assoc.
  eapply returns_bind; [exact R |].
  intros [] T2 [H2 L2]. apply at_pos_represents in H2.
  eapply returns_impl;
    [exact (insert_fixup_rep ctx T2 Red Leaf z k Leaf H2) |].
  intros [] T3 [H3 L3]. unfold insert_tree. rewrite <- Ectx.
  split; [done | congruence].
Qed.

(** ** The tree after [insert]: its nodes *)

Lemma frames_ind (P : list frame -> Prop) :
  P [] -> (forall f, P [f]) ->
  (forall f g ctx, P ctx -> P (f :: g :: ctx)) ->
  forall ctx, P ctx.
Proof.
  intros H0 H1 H2.
  assert (forall ctx, P ctx /\ forall f, P (f :: ctx)) as H.
  { induction ctx as [|g ctx [IH1 IH2]]; [by split |].
    split; [apply IH2 |]. intros f. by apply H2. }
  intros ctx. apply H.
Qed.

Lemma elements_repaint c t : elements (repaint c t) = elements t.
Proof. by destruct t. Qed.

Lemma elements_fill_cong f t t' :
  elements t = elements t' -> elements (fill f t) = elements (fill f t').
Proof. destruct f; simpl; by intros ->. Qed.

Lemma elements_plug_cong ctx t t' :
  elements t = elements t' -> elements (plug ctx t) = elements (plug ctx t').
Proof. intros H. by rewrite !elements_plug, H. Qed.

Lemma elements_rotate f g t :
  elements (rotate f g t) = elements (fill g (fill f t)).
Proof.
  destruct g, f, t; simpl; rewrite <- ?app_assoc; simpl;
    rewrite <- ?app_assoc; done.
Qed.

Lemma elements_recolor f g t :
  elements (fill (recolor g) (fill (paint Black f) t))
  = elements (fill g (fill f t)).
Proof. destruct g, f; simpl; by rewrite ?elements_repaint. Qed.

Lemma elements_fixup ctx : forall t,
  elements (fixup ctx t) = elements (plug ctx t).
Proof.
  induction ctx as [| |f g ctx IH] using frames_ind; intros t; [done.. |].
  simpl. destruct (is_red (frame_color f)); [| done].
  destruct (red_root (sibling g)).
  - rewrite IH. apply elements_plug_cong, elements_recolor.
  - apply elements_plug_cong, elements_rotate.
Qed.

(** The nodes of the tree before stand as they stood, the new node stands
    between them where the descent ended. *)
Lemma elements_insert_tree k z t :
  elements t = before (path k [] t) ++ after (path k [] t)
  /\ elements (insert_tree k z t)
     = before (path k [] t) ++ (k, z) :: after (path k [] t).
Proof.
  split.
  - change t with (plug [] t) at 1.
    by rewrite <- (plug_path k t []), elements_plug.
  - unfold insert_tree.
    by rewrite elements_repaint, elements_fixup, elements_plug.
Qed.

(** ** The tree after [insert]: its colors *)

Definition above_black (ctx : list frame) : Prop :=
  match ctx with
  | [] => False
  | f :: _ => frame_color f = Black
  end.

(** What is around a subtree with [n] black nodes on every path is as in a
    red-black tree. *)
Fixpoint ctx_ok (ctx : list frame) (n : nat) : Prop :=
  match ctx with
  | [] => True
  | f :: ctx' =>
      rbt (sibling f) n
      /\ (frame_color f = Red -> black_root (sibling f) /\ above_black ctx')
      /\ ctx_ok ctx' (blackness (frame_color f) + n)
  end.

Lemma rbt_fill f t n :
  rbt (fill f t) n
  <-> match frame_color f with
      | Red => black_root t /\ black_root (sibling f)
               /\ rbt t n /\ rbt (sibling f) n
      | Black => exists m, n = S m /\ rbt t m /\ rbt (sibling f) m
      end.
Proof.
  destruct f as [[] ? ? ?|[] ? ? ?]; simpl; try tauto;
    split; intros (m & ? & ? & ?); exists m; tauto.
Qed.

Lemma black_root_fill f t :
  black_root (fill f t) <-> frame_color f = Black.
Proof. destruct f as [[] ? ? ?|[] ? ? ?]; simpl; split; done. Qed.

Lemma rbt_plug_inv ctx : forall t m,
  rbt (plug ctx t) m -> black_root (plug ctx t) ->
  exists n, rbt t n /\ ctx_ok ctx n /\ (black_root t \/ above_black ctx).
Proof.
  induction ctx as [|f ctx IH]; intros t m Hrbt Hroot; simpl in *.
  - exists m. auto.
  - destruct (IH _ _ Hrbt Hroot) as (n & Hf & Hctx & Hor).
    rewrite black_root_fill in Hor. apply rbt_fill in Hf.
    destruct (frame_color f) eqn:Hc.
    + destruct Hf as (Ht & Hs & Hrt & Hrs).
      exists n. split; [done |]. split; [| by left].
      split; [done |]. split; [| done].
      intros _. split; [done |]. by destruct Hor.
    + destruct Hf as (n' & -> & Hrt & Hrs).
      exists n'. split; [done |]. split; [| by right].
      split; [done |]. split; [done | done].
Qed.

Lemma rbt_plug ctx : forall t n,
  ctx_ok ctx n -> rbt t n -> black_root t \/ above_black ctx ->
  exists m, rbt (plug ctx t) m.
Proof.
  induction ctx as [|f ctx IH]; intros t n Hctx Ht Hor; simpl in *.
  - by exists n.
  - destruct Hctx as (Hs & Hred & Hctx).
    apply (IH _ (blackness (frame_color f) + n)); [done | |].
    + apply rbt_fill. destruct (frame_color f) eqn:Hc; simpl.
      * destruct Hred as [Hbs _]; [done |].
        by destruct Hor as [?|?].
      * by exists n.
    + rewrite black_root_fill. destruct (frame_color f) eqn:Hc; [| by left].
      right. by destruct Hred.
Qed.

Lemma rbt_rotate f g t n :
  frame_color f = Red -> red_root (sibling g) = false ->
  red_root t = true -> rbt t n ->
  rbt (sibling f) n -> black_root (sibling f) -> rbt (sibling g) n ->
  rbt (rotate f g t) (S n) /\ black_root (rotate f g t).
Proof.
  intros Hf Hu Hred Ht Hsf Hbsf Hsg.
  assert (black_root (sibling g)) as Hbu.
  { destruct (sibling g) as [|[] ? ? ? ?]; done. }
  destruct t as [|[] zl z zk zr]; try done.
  destruct Ht as (Hzl & Hzr & Hrl & Hrr).
  destruct g as [cg gi gk u|cg u gi gk], f as [cf pi pk s|cf s pi pk];
    simpl in *; subst; (split; [| done]); exists n; tauto.
Qed.

Lemma rbt_recolor f g t n :
  frame_color f = Red -> red_root (sibling g) = true ->
  rbt t n -> rbt (sibling f) n -> black_root (sibling f) ->
  rbt (sibling g) n ->
  let t' := fill (recolor g) (fill (paint Black f) t) in
  rbt t' (S n) /\ red_root t' = true.
Proof.
  intros Hf Hu Ht Hsf Hbsf Hsg.
  destruct (sibling g) as [|[] ul ui uk ur] eqn:Eu; try done.
  destruct Hsg as (? & ? & ? & ?).
  destruct g as [cg gi gk u|cg u gi gk], f as [cf pi pk s|cf s pi pk];
    simpl in *; subst; (split; [| done]);
    (split; [done |]); (split; [done |]); split; exists n; tauto.
Qed.

Lemma rbt_fixup ctx : forall t n,
  ctx_ok ctx n -> rbt t n -> red_root t = true ->
  exists m, rbt (fixup ctx t) m.
Proof.
  induction ctx as [| |f g ctx IH] using frames_ind; intros t n Hctx Ht Hred.
  - by exists n.
  - simpl. eapply (rbt_plug [f]); [done.. |]. right. simpl.
    destruct Hctx as (_ & Hf & _).
    destruct (frame_color f); [| done]. by destruct Hf as [_ ?].
  - simpl fixup. destruct (frame_color f) eqn:Hf; simpl; cycle 1.
    { eapply (rbt_plug (f :: g :: ctx)); [done.. |]. by right. }
    destruct Hctx as (Hsf & Hfred & Hsg & _ & Hctx).
    destruct (Hfred Hf) as [Hbsf Hgb]. simpl in Hgb.
    rewrite Hf, Hgb in *. simpl in *.
    destruct (red_root (sibling g)) eqn:Hu.
    + destruct (rbt_recolor f g t n) as [Ht' Hred']; try done.
      by eapply IH.
    + destruct (rbt_rotate f g t n) as [Ht' Hroot']; try done.
      eapply rbt_plug; [done.. |]. by left.
Qed.

Lemma rbt_repaint_black t n :
  rbt t n -> exists m, rbt (repaint Black t) m /\ black_root (repaint Black t).
Proof.
  destruct t as [|[] l i k r]; simpl.
  - intros ->. by exists 0.
  - intros (_ & _ & ? & ?). exists (S n). split; [| done]. by exists n.
  - intros H. by exists n.
Qed.

(** [insert] keeps the colors of a red-black tree in order. *)
Lemma rbt_insert_tree k z t n :
  rbt t n -> black_root t ->
  exists m, rbt (insert_tree k z t) m /\ black_root (insert_tree k z t).
Proof.
  intros Ht Hroot. unfold insert_tree.
  change t with (plug [] t) in Ht, Hroot.
  rewrite <- (plug_path k t []) in Ht, Hroot.
  destruct (rbt_plug_inv _ _ _ Ht Hroot) as (n0 & Hleaf & Hctx & _).
  simpl in Hleaf. subst n0.
  destruct (rbt_fixup (path k [] t) (Node Red Leaf z k Leaf) 0)
    as [m Hm]; [done | by simpl | done |].
  by apply rbt_repaint_black in Hm.
Qed.

(** ** The red-black invariants as the specification states them *)

Lemma rbt_no_red_red t : forall n, rbt t n -> no_red_red t.
Proof.
  induction t as [|c l IHl i k r IHr]; intros n; simpl; [done |].
  destruct c.
  - intros (? & ? & ? & ?). split; [done |]. split; eauto.
  - intros (m & _ & ? & ?). split; [done |]. split; eauto.
Qed.

Lemma rbt_black_counts t : forall n a,
  rbt t n -> a ∈ black_counts t -> a = n.
Proof.
  induction t as [|c l IHl i k r IHr]; intros n a; simpl.
  - intros -> Ha. by apply list_elem_of_singleton in Ha.
  - intros Hrbt (b & -> & [Hb|Hb]%elem_of_app)%list_elem_of_fmap;
      destruct c; simpl in *.
    + destruct Hrbt as (_ & _ & Hl & _). eauto.
    + destruct Hrbt as (m & -> & Hl & _). f_equal. eauto.
    + destruct Hrbt as (_ & _ & _ & Hr). eauto.
    + destruct Hrbt as (m & -> & _ & Hr). f_equal. eauto.
Qed.

Lemma rbt_subtrees t : forall n s,
  rbt t n -> s ∈ subtrees t -> exists m, rbt s m.
Proof.
  induction t as [|c l IHl i k r IHr]; intros n s Hrbt; simpl.
  - intros ->%list_elem_of_singleton. eauto.
  - intros [->|[Hs|Hs]%elem_of_app]%elem_of_cons; [eauto | |];
      destruct c; simpl in Hrbt.
    + destruct Hrbt as (_ & _ & Hl & _). eauto.
    + destruct Hrbt as (m & -> & Hl & _). eauto.
    + destruct Hrbt as (_ & _ & _ & Hr). eauto.
    + destruct Hrbt as (m & -> & _ & Hr). eauto.
Qed.

Lemma rbt_red_black t n : rbt t n -> black_root t -> red_black t.
Proof.
  intros Hrbt Hroot. split; [done |]. split; [by eapply rbt_no_red_red |].
  intros s a b Hs Ha Hb.
  destruct (rbt_subtrees _ _ _ Hrbt Hs) as [m Hm].
  rewrite (rbt_black_counts _ _ _ Hm Ha).
  by rewrite (rbt_black_counts _ _ _ Hm Hb).
Qed.

(** ** The order of strings *)

Lemma ltb_lt a b : String.ltb a b = true <-> String.compare a b = Lt.
Proof. unfold String.ltb. by destruct (String.compare a b). Qed.

Lemma ltb_irrefl a : String.ltb a a = false.
Proof.
  unfold String.ltb.
  destruct (String.compare a a) eqn:E; try done.
  pose proof (String.compare_antisym a a) as H. by rewrite E in H.
Qed.

Lemma ltb_leb a b : String.ltb a b = true -> String.leb a b = true.
Proof. unfold String.ltb, String.leb. by destruct (String.compare a b). Qed.

Lemma ltb_false a b :
  String.ltb a b = false -> String.ltb b a = true \/ b = a.
Proof.
  unfold String.ltb. rewrite (String.compare_antisym b a).
  destruct (String.compare a b) eqn:E; simpl; try done; [| by left].
  intros _. right. symmetry. by apply String.compare_eq_iff.
Qed.

Lemma ltb_false_leb a b : String.ltb a b = false -> String.leb b a = true.
Proof.
  unfold String.ltb, String.leb. rewrite (String.compare_antisym b a).
  by destruct (String.compare a b).
Qed.

Lemma leb_trans a b c :
  String.leb a b = true -> String.leb b c = true -> String.leb a c = true.
Proof.
  intros H1 H2.
  pose proof (@transitivity _ String.le _ a b c) as Ht.
  unfold String.le in Ht. apply Is_true_true. apply Ht; by apply Is_true_true.
Qed.

Lemma ltb_leb_trans a b c :
  String.ltb a b = true -> String.leb b c = true -> String.ltb a c = true.
Proof.
  intros H1 H2.
  destruct (String.ltb a c) eqn:E; [done |].
  apply ltb_false_leb in E.
  pose proof (leb_trans _ _ _ H2 E) as Hba.
  pose proof (String.leb_antisym _ _ (ltb_leb _ _ H1) Hba) as ->.
  by rewrite ltb_irrefl in H1.
Qed.

Lemma leb_ltb_trans a b c :
  String.leb a b = true -> String.ltb b c = true -> String.ltb a c = true.
Proof.
  intros H1 H2.
  destruct (String.ltb a c) eqn:E; [done |].
  apply ltb_false_leb in E.
  pose proof (leb_trans _ _ _ E H1) as Hcb.
  pose proof (String.leb_antisym _ _ (ltb_leb _ _ H2) Hcb) as ->.
  by rewrite ltb_irrefl in H2.
Qed.

Lemma leb_refl a : String.leb a a = true.
Proof.
  destruct (String.leb_total a a); done.
Qed.

Lemma entry_lt_leb a b : entry_lt a b -> String.leb (fst a) (fst b) = true.
Proof. intros [H|[-> _]]; [by apply ltb_leb | apply leb_refl]. Qed.

(** ** The tree after [insert]: its order *)

Lemma ascending_app l1 l2 :
  ascending (l1 ++ l2)
  <-> ascending l1 /\ ascending l2
      /\ forall a b, a ∈ l1 -> b ∈ l2 -> entry_lt a b.
Proof.
  induction l1 as [|x l1 IH]; simpl.
  - split; [intros H; repeat split; [done |] | tauto].
    intros a b Ha. by apply elem_of_nil in Ha.
  - rewrite Forall_app, IH. split.
    + intros ([Hx1 Hx2] & H1 & H2 & H12). repeat split; try done.
      intros a b [->|Ha]%elem_of_cons Hb; [| by apply H12].
      rewrite Forall_forall in Hx2. by apply Hx2.
    + intros ([Hx1 H1] & H2 & H12). repeat split; try done.
      * apply Forall_forall. intros b Hb. apply H12; [by left | done].
      * intros a b Ha Hb. apply H12; [by right | done].
Qed.

Lemma ascending_cons e l :
  ascending (e :: l) <-> (forall b, b ∈ l -> entry_lt e b) /\ ascending l.
Proof. simpl. by rewrite Forall_forall. Qed.

Lemma ascending_insert l1 l2 e :
  ascending (l1 ++ l2) ->
  (forall a, a ∈ l1 -> entry_lt a e) ->
  (forall b, b ∈ l2 -> entry_lt e b) ->
  ascending (l1 ++ e :: l2).
Proof.
  rewrite !ascending_app, ascending_cons.
  intros (H1 & H2 & H12) Ha Hb. repeat split; try done.
  intros a b Hin [->|Hin']%elem_of_cons; auto.
Qed.

(** On the way of [k] the nodes left behind on the left are not above [k],
    those left behind on the right are above it. *)
Lemma path_sides k t : forall ctx,
  ascending (elements (plug ctx t)) ->
  Forall (fun e => String.ltb k (fst e) = false) (before ctx) ->
  Forall (fun e => String.ltb k (fst e) = true) (after ctx) ->
  Forall (fun e => String.ltb k (fst e) = false) (before (path k ctx t))
  /\ Forall (fun e => String.ltb k (fst e) = true) (after (path k ctx t)).
Proof.
  induction t as [|c l IHl i kx r IHr]; intros ctx Hasc Hb Ha; simpl;
    [done |].
  pose proof Hasc as Hmid.
  rewrite elements_plug in Hmid.
  apply ascending_app in Hmid as (_ & Hmid & _).
  apply ascending_app in Hmid as (Hmid & _ & _). simpl in Hmid.
  apply ascending_app in Hmid as (_ & Hr & Hl).
  apply ascending_cons in Hr as [Hr _].
  destruct (String.ltb k kx) eqn:E.
  - apply IHl; [done | done |]. simpl.
    constructor; [done |]. apply Forall_app. split; [| done].
    apply Forall_forall. intros e He.
    eapply ltb_leb_trans; [exact E |].
    apply (entry_lt_leb (kx, i) e). by apply Hr.
  - apply IHr; [done | | done]. simpl.
    apply Forall_app. split; [done |]. apply Forall_app. split.
    + apply Forall_forall. intros e He.
      destruct (String.ltb k (fst e)) eqn:E'; [| done].
      rewrite <- E. symmetry. eapply ltb_leb_trans; [exact E' |].
      apply (entry_lt_leb e (kx, i)). apply Hl; [done | by left].
    + by constructor.
Qed.

Lemma ascending_insert_tree k z t :
  ascending (elements t) ->
  (forall e, e ∈ elements t -> snd e < z) ->
  ascending (elements (insert_tree k z t)).
Proof.
  intros Hasc Hz.
  destruct (elements_insert_tree k z t) as [Ht ->].
  destruct (path_sides k t []) as [Hb Ha]; [done.. |].
  rewrite Forall_forall in Hb. rewrite Forall_forall in Ha.
  apply ascending_insert; [by rewrite <- Ht | |].
  - intros a Hin. destruct (ltb_false _ _ (Hb a Hin)) as [Hlt|Heq].
    + by left.
    + right. split; [done |]. apply Hz. rewrite Ht. apply elem_of_app. by left.
  - intros b Hin. left. by apply Ha.
Qed.

Lemma ascending_ordered t : ascending (elements t) -> ordered t.
Proof.
  induction t as [|c l IHl i k r IHr]; simpl; [done |].
  intros (Hl & Hr & Hlr)%ascending_app.
  apply ascending_cons in Hr as [Hk Hr].
  split; [| split; [| by auto]].
  - apply Forall_forall. intros k' ([k'' j] & -> & Hin)%list_elem_of_fmap.
    apply (entry_lt_leb (k'', j) (k, i)). apply Hlr; [done | by left].
  - apply Forall_forall. intros k' ([k'' j] & -> & Hin)%list_elem_of_fmap.
    apply (entry_lt_leb (k, i) (k'', j)). by apply Hk.
Qed.

(** ** Sequences of insertions *)

(** What every [insert] of a string keeps: the tree object holds a
    red-black tree whose keys ascend from left to right, equal keys in the
    order of insertion, and every object is a node of the tree. *)
Definition well_formed (T : RedBlackTree) (t : tree) : Prop :=
  represents T t
  /\ (exists n, rbt t n) /\ black_root t
  /\ ascending (elements t)
  /\ refs t ≡ₚ seq 0 (length (store T)).

Lemma well_formed_empty : well_formed empty Leaf.
Proof.
  split; [| split; [by exists 0 | done]].
  split; [done |]. split; [done | constructor].
Qed.

Lemma refs_insert_tree k z t : refs (insert_tree k z t) ≡ₚ z :: refs t.
Proof.
  unfold refs. destruct (elements_insert_tree k z t) as [-> ->].
  rewrite !map_app. simpl. by rewrite Permutation_middle.
Qed.

Lemma insert_well_formed T t k :
  well_formed T t ->
  returns (insert (Str k)) T (fun _ T' =>
    well_formed T' (insert_tree k (length (store T)) t)
    /\ length (store T') = S (length (store T))).
Proof.
  intros (Hrep & [n Hrbt] & Hroot & Hasc & Hrefs).
  eapply returns_impl; [by apply insert_rep |].
  intros [] T' [Hrep' Hlen]. split; [| done].
  split; [done |].
  destruct (rbt_insert_tree k (length (store T)) t n) as (m & Hm & Hroot');
    [done.. |].
  split; [by exists m |]. split; [done |]. split.
  - apply ascending_insert_tree; [done |].
    intros [k' j] Hin. simpl.
    assert (j ∈ refs t) as Hj.
    { apply list_elem_of_fmap. by exists (k', j). }
    rewrite Hrefs in Hj. apply elem_of_seq in Hj. lia.
  - rewrite refs_insert_tree, Hlen, Hrefs, seq_S. simpl.
    by rewrite Permutation_cons_append.
Qed.

Lemma insert_all_well_formed ks : forall T t,
  well_formed T t ->
  returns (insert_all (map Str ks)) T (fun _ T' =>
    exists t',
      well_formed T' t'
      /\ length (store T') = length (store T) + length ks
      /\ elements t'
         ≡ₚ elements t ++ zip ks (seq (length (store T)) (length ks))).
Proof.
  induction ks as [|k ks IH]; intros T t Hwf; simpl.
  - unfold returns. simpl. exists t. split; [done |].
    split; [lia | by rewrite app_nil_r].
  - eapply returns_bind; [by apply insert_well_formed |].
    intros [] T1 [Hwf1 Hlen1].
    eapply returns_impl; [by apply IH |].
    intros [] T2 (t2 & Hwf2 & Hlen2 & Hel).
    exists t2. split; [done |]. split; [lia |].
    rewrite Hel, Hlen1.
    destruct (elements_insert_tree k (length (store T)) t) as [-> ->].
    rewrite <- !app_assoc. simpl. solve_Permutation.
Qed.

(** ** The objects of the tree *)

Lemma shape_lookup h t : forall p k i,
  shape h p t -> (k, i) ∈ elements t ->
  exists n, h !! i = Some n /\ key n = k.
Proof.
  induction t as [|c l IHl j kx r IHr]; intros p k i; simpl.
  - intros _ Hin. by apply elem_of_nil in Hin.
  - intros (Hj & Hl & Hr) [Hin|[[= -> ->]|Hin]%elem_of_cons]%elem_of_app;
      eauto.
Qed.

Lemma store_keys T t ks :
  represents T t -> length (store T) = length ks ->
  elements t ≡ₚ zip ks (seq 0 (length ks)) ->
  map key (store T) = ks.
Proof.
  intros (_ & Hs & _) Hlen Hel.
  apply list_eq. intros i. rewrite list_lookup_fmap.
  destruct (ks !! i) as [k|] eqn:Hk.
  - assert ((k, i) ∈ elements t) as Hin.
    { rewrite Hel. apply list_elem_of_lookup. exists i.
      apply lookup_zip_with_Some. exists k, i. split; [done |].
      split; [done |]. apply lookup_seq. split; [done |].
      by apply lookup_lt_Some in Hk. }
    destruct (shape_lookup _ _ _ _ _ Hs Hin) as (n & Hn & <-).
    unfold ref in Hn. by rewrite Hn.
  - apply lookup_ge_None in Hk.
    rewrite (proj2 (lookup_ge_None _ _)); [done | lia].
Qed.

(** ** The height of a red-black tree *)

Lemma rbt_size t : forall n, rbt t n -> 2 ^ n <= S (length (elements t)).
Proof.
  induction t as [|c l IHl i k r IHr]; intros n; simpl.
  - intros ->. simpl. lia.
  - rewrite length_app. simpl. destruct c.
    + intros (_ & _ & Hl & Hr). specialize (IHl _ Hl). lia.
    + intros (m & -> & Hl & Hr).
      specialize (IHl _ Hl). specialize (IHr _ Hr). simpl. lia.
Qed.

Lemma rbt_height t : forall n,
  rbt t n -> height t <= 2 * n + (if red_root t then 1 else 0).
Proof.
  induction t as [|c l IHl i k r IHr]; intros n; simpl; [lia |].
  destruct c.
  - intros (Hbl & Hbr & Hl & Hr).
    specialize (IHl _ Hl). specialize (IHr _ Hr).
    assert (red_root l = false) as El by (by destruct l as [|[] ? ? ? ?]).
    assert (red_root r = false) as Er by (by destruct r as [|[] ? ? ? ?]).
    rewrite El, Er in *. lia.
  - intros (m & -> & Hl & Hr).
    specialize (IHl _ Hl). specialize (IHr _ Hr).
    destruct (red_root l), (red_root r); lia.
Qed.

(** ** The properties of the red-black tree *)

(** X1: [left_rotate] on a node [x] with a right child [y], anywhere in a
    tree that the tree object holds, returns, and then the tree object
    holds the tree in which [y] stands in the place of [x], [x] is the left
    child of [y] and the left subtree of [y] has become the right subtree of
    [x]: all child and parent references agree.  The nodes from left to
    right are the same as before, and no object is added. *)
Theorem left_rotate_contract T ctx cx a x kx cy b y ky c :
  represents T (plug ctx (Node cx a x kx (Node cy b y ky c))) ->
  exists T',
    left_rotate (Some x) T = Ok (tt, T')
    /\ represents T' (plug ctx (Node cy (Node cx a x kx b) y ky c))
    /\ elements (plug ctx (Node cy (Node cx a x kx b) y ky c))
       = elements (plug ctx (Node cx a x kx (Node cy b y ky c)))
    /\ length (store T') = length (store T).
Proof.
  intros H. apply at_pos_represents in H.
  destruct (left_rotate_at _ _ _ _ _ _ _ _ _ _ _ H) as (T' & E & H' & L).
  exists T'. split; [done |]. split; [by apply at_pos_represents |].
  split; [| done].
  apply elements_plug_cong. simpl. by rewrite <- !app_assoc.
Qed.

(** X2: [right_rotate] on a node [y] with a left child [x] is the
    inverse: [x] takes the place of [y], [y] becomes the right child of [x]
    and the right subtree of [x] the left subtree of [y]. *)
Theorem right_rotate_contract T ctx cx a x kx cy b y ky c :
  represents T (plug ctx (Node cy (Node cx a x kx b) y ky c)) ->
  exists T',
    right_rotate (Some y) T = Ok (tt, T')
    /\ represents T' (plug ctx (Node cx a x kx (Node cy b y ky c)))
    /\ elements (plug ctx (Node cx a x kx (Node cy b y ky c)))
       = elements (plug ctx (Node cy (Node cx a x kx b) y ky c))
    /\ length (store T') = length (store T).
Proof.
  intros H. apply at_pos_represents in H.
  destruct (right_rotate_at _ _ _ _ _ _ _ _ _ _ _ H) as (T' & E & H' & L).
  exists T'. split; [done |]. split; [by apply at_pos_represents |].
  split; [| done].
  apply elements_plug_cong. simpl. by rewrite <- !app_assoc.
Qed.

(** X3: a rotation on a node that lacks the child to rotate with returns
    without an error and leaves the tree object, root and all objects, as
    it is. *)
Theorem rotate_without_child T x n :
  store T !! x = Some n ->
  (right n = None -> left_rotate (Some x) T = Ok (tt, T))
  /\ (left n = None -> right_rotate (Some x) T = Ok (tt, T)).
Proof.
  intros Hx. split; intros Hn.
  - unfold left_rotate. erewrite get_ok by done. by rewrite Hn.
  - unfold right_rotate. erewrite get_ok by done. by rewrite Hn.
Qed.

(** X4: [insert] of a string into a tree object that holds a tree, whatever
    its colors, returns without an error; it allocates one object, and the
    tree object then holds a tree again, with a black root: every child
    reference is matched by the parent reference of the child. *)
Theorem insert_str_returns T t k :
  represents T t ->
  exists T' t',
    insert (Str k) T = Ok (tt, T')
    /\ represents T' t' /\ black_root t'
    /\ length (store T') = S (length (store T)).
Proof.
  intros H. pose proof (insert_rep T t k H) as R.
  apply returns_iff in R as ([] & T' & E & H' & L).
  exists T', (insert_tree k (length (store T)) t).
  repeat split; try done; try apply H'.
  unfold insert_tree. by destruct (fixup _ _) as [|[] ? ? ? ?].
Qed.

(** X5: [insert] of a string puts the new node, with the string as its key
    and the new object as its reference, somewhere between the nodes of the
    tree; the other nodes keep their keys and their order from left to
    right. *)
Theorem insert_str_elements T t k :
  represents T t ->
  exists T' t' l1 l2,
    insert (Str k) T = Ok (tt, T')
    /\ represents T' t'
    /\ elements t = l1 ++ l2
    /\ elements t' = l1 ++ (k, length (store T)) :: l2.
Proof.
  intros H. pose proof (insert_rep T t k H) as R.
  apply returns_iff in R as ([] & T' & E & H' & L).
  destruct (elements_insert_tree k (length (store T)) t) as [E1 E2].
  by exists T', (insert_tree k (length (store T)) t),
    (before (path k [] t)), (after (path k [] t)).
Qed.

Lemma insert_all_from_empty ks :
  exists T t,
    insert_all (map Str ks) empty = Ok (tt, T)
    /\ well_formed T t
    /\ length (store T) = length ks
    /\ elements t ≡ₚ zip ks (seq 0 (length ks)).
Proof.
  pose proof (insert_all_well_formed ks empty Leaf well_formed_empty) as R.
  apply returns_iff in R as ([] & T & E & t & Hwf & Hlen & Hel).
  by exists T, t.
Qed.

(** X6: after the insertion of any strings, one after the other, into an
    empty tree, the tree object holds a tree with the red-black invariants:
    the root is black, no red node has a red child, and from every node all
    downward paths to an absent child have the same number of black
    nodes. *)
Theorem insert_all_red_black (ks : list string) :
  exists T t,
    insert_all (map Str ks) empty = Ok (tt, T)
    /\ represents T t /\ red_black t.
Proof.
  destruct (insert_all_from_empty ks)
    as (T & t & E & (Hrep & [n Hrbt] & Hroot & _) & _).
  exists T, t. split; [done |]. split; [done |].
  by eapply rbt_red_black.
Qed.

(** X7: after the insertion of any strings into an empty tree, no key in
    the left subtree of a node is greater than the key of the node and no
    key in its right subtree is smaller; from left to right equal keys
    stand in the order in which they were inserted. *)
Theorem insert_all_ordered (ks : list string) :
  exists T t,
    insert_all (map Str ks) empty = Ok (tt, T)
    /\ represents T t /\ ordered t /\ ascending (elements t).
Proof.
  destruct (insert_all_from_empty ks)
    as (T & t & E & (Hrep & _ & _ & Hasc & _) & _).
  exists T, t. split; [done |]. split; [done |].
  split; [by apply ascending_ordered | done].
Qed.

(** X8: after the insertion of the strings [ks] into an empty tree there is
    one object for each of them, the i-th object with the i-th string as
    its key, and every object is a node of the tree, once. *)
Theorem insert_all_keys (ks : list string) :
  exists T t,
    insert_all (map Str ks) empty = Ok (tt, T)
    /\ represents T t
    /\ map key (store T) = ks
    /\ refs t ≡ₚ seq 0 (length ks).
Proof.
  destruct (insert_all_from_empty ks)
    as (T & t & E & (Hrep & _ & _ & _ & Hrefs) & Hlen & Hel).
  exists T, t. split; [done |]. split; [done |].
  split; [by eapply store_keys |]. by rewrite <- Hlen.
Qed.

(** X9: the tree after the insertion of any strings into an empty tree is
    at most twice the binary logarithm of the number of its nodes plus one
    high. *)
Theorem insert_all_height (ks : list string) :
  exists T t,
    insert_all (map Str ks) empty = Ok (tt, T)
    /\ represents T t
    /\ length (elements t) = length ks
    /\ height t <= 2 * Nat.log2 (S (length ks)).
Proof.
  destruct (insert_all_from_empty ks)
    as (T & t & E & (Hrep & [n Hrbt] & Hroot & _) & Hlen & Hel).
  exists T, t. split; [done |]. split; [done |].
  assert (length (elements t) = length ks) as Hsize.
  { rewrite Hel, length_zip, length_seq. lia. }
  split; [done |].
  pose proof (rbt_height _ _ Hrbt) as Hh.
  pose proof (rbt_size _ _ Hrbt) as Hs. rewrite Hsize in Hs.
  assert (red_root t = false) as Er by (by destruct t as [|[] ? ? ? ?]).
  rewrite Er in Hh.
  apply Nat.log2_le_pow2 in Hs; lia.
Qed.

(** X10: the key of [insert] is compared with the keys in the tree as it
    is, only the new object holds it as a string: an [int] put into a tree
    with a root raises [TypeError], an [int] put into the empty tree becomes
    the root with its decimal digits as key. *)
Theorem insert_int_key (z : Z) (T : RedBlackTree) (r : ref) (n : RBNode) :
  root T = Some r -> store T !! r = Some n ->
  insert (Int z) T = Raise TypeError
  /\ insert (Int z) empty
     = Ok (tt, mkTree (Some 0)
                 [mkRBNode (NilZero.string_of_int (Z.to_int z)) Black
                           None None None]).
Proof.
  intros Hr Hn. split; [| done]. unfold insert.
  rewrite new_node_ok, get_root_ok, allocated_ok. simpl.
  rewrite length_app, Hr. simpl. rewrite Nat.add_1_r. simpl.
  rewrite bind_assoc.
  erewrite get_ok by (simpl; by apply lookup_app_l_Some).
  done.
Qed.

(** Two nodes, the second the red right child of the first. *)
Definition two_right : RedBlackTree :=
  mkTree (Some 0)
    [mkRBNode "a" Black None (Some 1) None;
     mkRBNode "b" Red None None (Some 0)].

(** Two nodes, the second the red left child of the first. *)
Definition two_left : RedBlackTree :=
  mkTree (Some 0)
    [mkRBNode "b" Black (Some 1) None None;
     mkRBNode "a" Red None None (Some 0)].

Lemma left_rotate_contract_witness :
  exists T',
    left_rotate (Some 0) two_right = Ok (tt, T')
    /\ represents T'
         (plug [] (Node Red (Node Black Leaf 0 "a" Leaf) 1 "b" Leaf))
    /\ elements (plug [] (Node Red (Node Black Leaf 0 "a" Leaf) 1 "b" Leaf))
       = elements (plug [] (Node Black Leaf 0 "a" (Node Red Leaf 1 "b" Leaf)))
    /\ length (store T') = length (store two_right).
Proof.
  apply (left_rotate_contract two_right [] Black Leaf 0 "a" Red Leaf 1 "b"
           Leaf).
  split; [reflexivity |]. split.
  - simpl. repeat split; reflexivity.
  - refine (bool_decide_unpack _ _). vm_compute. exact I.
Defined.

Lemma right_rotate_contract_witness :
  exists T',
    right_rotate (Some 0) two_left = Ok (tt, T')
    /\ represents T'
         (plug [] (Node Red Leaf 1 "a" (Node Black Leaf 0 "b" Leaf)))
    /\ elements (plug [] (Node Red Leaf 1 "a" (Node Black Leaf 0 "b" Leaf)))
       = elements (plug [] (Node Black (Node Red Leaf 1 "a" Leaf) 0 "b" Leaf))
    /\ length (store T') = length (store two_left).
Proof.
  apply (right_rotate_contract two_left [] Red Leaf 1 "a" Black Leaf 0 "b"
           Leaf).
  split; [reflexivity |]. split.
  - simpl. repeat split; reflexivity.
  - refine (bool_decide_unpack _ _). vm_compute. exact I.
Defined.

Lemma rotate_without_child_witness :
  left_rotate (Some 1) two_right = Ok (tt, two_right)
  /\ right_rotate (Some 1) two_right = Ok (tt, two_right).
Proof.
  destruct (rotate_without_child two_right 1
              (mkRBNode "b" Red None None (Some 0)) eq_refl) as [Hl Hr].
  split; [apply Hl | apply Hr]; reflexivity.
Defined.

Lemma represents_two_right :
  represents two_right (Node Black Leaf 0 "a" (Node Red Leaf 1 "b" Leaf)).
Proof.
  split; [reflexivity |]. split.
  - simpl. repeat split; reflexivity.
  - refine (bool_decide_unpack _ _). vm_compute. exact I.
Defined.

Lemma insert_str_returns_witness :
  exists T' t',
    insert (Str "c") two_right = Ok (tt, T')
    /\ represents T' t' /\ black_root t'
    /\ length (store T') = S (length (store two_right)).
Proof.
  exact (insert_str_returns two_right _ "c" represents_two_right).
Defined.

Lemma insert_str_elements_witness :
  exists T' t' l1 l2,
    insert (Str "c") two_right = Ok (tt, T')
    /\ represents T' t'
    /\ elements (Node Black Leaf 0 "a" (Node Red Leaf 1 "b" Leaf)) = l1 ++ l2
    /\ elements t' = l1 ++ ("c", length (store two_right)) :: l2.
Proof.
  exact (insert_str_elements two_right _ "c" represents_two_right).
Defined.

Lemma insert_int_key_witness :
  insert (Int 5) two_right = Raise TypeError
  /\ insert (Int 5) empty
     = Ok (tt, mkTree (Some 0)
                 [mkRBNode (NilZero.string_of_int (Z.to_int 5)) Black
                           None None None]).
Proof.
  apply (insert_int_key 5 two_right 0
           (mkRBNode "a" Black None (Some 1) None)); reflexivity.
Defined.

End RBTFacts.

(** * The linked list of rows *)

Module MemDBFacts.
Import Huffman.
Import MemDB.
Local Open Scope list_scope.

Lemma linked_length rows : length (linked rows) = length rows.
Proof. unfold linked. by rewrite length_imap. Qed.

Lemma linked_lookup rows i d :
  rows !! i = Some d ->
  linked rows !! i
  = Some (mkDBNode d (node_at (length rows) (S i)) (prev_of i)).
Proof. intros H. unfold linked. by rewrite list_lookup_imap, H. Qed.

Lemma linked_lookup_middle done d todo :
  linked (done ++ d :: todo) !! length done
  = Some (mkDBNode d (node_at (length (done ++ d :: todo)) (S (length done)))
                   (prev_of (length done))).
Proof. apply linked_lookup. by rewrite list_lookup_middle. Qed.

Lemma linked_insert_middle done d todo n' d' :
  n' = mkDBNode d' (node_at (length (done ++ d :: todo)) (S (length done)))
                (prev_of (length done)) ->
  <[length done := n']> (linked (done ++ d :: todo))
  = linked (done ++ d' :: todo).
Proof.
  intros ->. apply list_eq. intros i.
  assert (length (done ++ d' :: todo) = length (done ++ d :: todo)) as Hlen.
  { by rewrite !length_app. }
  destruct (decide (i = length done)) as [->|Hne].
  - rewrite list_lookup_insert_eq.
    + by rewrite linked_lookup_middle, Hlen.
    + rewrite linked_length, length_app. simpl. lia.
  - rewrite list_lookup_insert_ne by done.
    unfold linked. rewrite !list_lookup_imap, Hlen.
    destruct (decide (i < length done)).
    + by rewrite !lookup_app_l by done.
    + rewrite !lookup_app_r by lia.
      destruct (i - length done) as [|j] eqn:E; [lia | done].
Qed.

Lemma load_rows_snoc rows d :
  load_rows (rows ++ [d]) = append d (load_rows rows).
Proof. unfold load_rows. by rewrite fold_left_app. Qed.

Lemma linked_lookup_full rows i :
  linked rows !! i
  = (fun d => mkDBNode d (node_at (length rows) (S i)) (prev_of i))
      <$> rows !! i.
Proof. unfold linked. by rewrite list_lookup_imap. Qed.

Lemma append_linked rows d :
  append d (mkDB (node_at (length rows) 0) (prev_of (length rows))
                 (linked rows))
  = mkDB (node_at (S (length rows)) 0) (prev_of (S (length rows)))
         (linked (rows ++ [d])).
Proof.
  unfold append. simpl. rewrite linked_length.
  destruct (length rows) as [|m] eqn:Hn.
  - destruct rows; [done | discriminate].
  - simpl. f_equal. apply list_eq. intros i.
    rewrite linked_lookup_full, length_app, Hn. simpl.
    replace (S m + 1) with (S (S m)) by lia.
    destruct (decide (i = m)) as [->|Hne].
    + rewrite list_lookup_alter_eq.
      rewrite lookup_app_l by (rewrite linked_length; lia).
      rewrite lookup_app_l by lia.
      rewrite linked_lookup_full, Hn.
      destruct (rows !! m) eqn:E; [| done]. simpl.
      unfold with_next, node_at. simpl.
      repeat case_decide; first [done | lia].
    + rewrite list_lookup_alter_ne by done.
      destruct (decide (i < S m)) as [Hlt|Hge].
      * rewrite lookup_app_l by (rewrite linked_length; lia).
        rewrite lookup_app_l by lia.
        rewrite linked_lookup_full, Hn.
        destruct (rows !! i) eqn:E; [| done]. simpl.
        unfold node_at. repeat case_decide; first [done | lia].
      * rewrite lookup_app_r by (rewrite linked_length; lia).
        rewrite lookup_app_r by lia.
        rewrite linked_length, Hn.
        destruct (i - S m) as [|j] eqn:E; [| done]. simpl.
        replace i with (S m) by lia.
        unfold node_at. repeat case_decide; first [done | lia].
Qed.

Lemma load_rows_linked rows :
  load_rows rows
  = mkDB (node_at (length rows) 0) (prev_of (length rows)) (linked rows).
Proof.
  induction rows as [|d rows IH] using rev_ind; [done |].
  rewrite load_rows_snoc, IH, append_linked, length_app. simpl.
  by replace (length rows + 1) with (S (length rows)) by lia.
Qed.

Lemma forward_linked rows : forall fuel k,
  length rows <= fuel + k ->
  forward fuel (linked rows) (node_at (length rows) k) = drop k rows.
Proof.
  induction fuel as [|fuel IH]; intros k Hk; unfold node_at.
  - simpl. by rewrite drop_ge by lia.
  - destruct (decide (k < length rows)) as [Hlt|Hge]; simpl; unfold node_ref.
    + destruct (lookup_lt_is_Some_2 rows k Hlt) as [d Hd].
      rewrite (linked_lookup _ _ _ Hd). simpl.
      rewrite IH by lia. symmetry. by apply drop_S.
    + by rewrite drop_ge by lia.
Qed.

Lemma backward_linked rows : forall k fuel,
  k <= fuel -> k <= length rows ->
  backward fuel (linked rows) (prev_of k) = rev (take k rows).
Proof.
  induction k as [|k IH]; intros fuel Hf Hk.
  - destruct fuel; by rewrite take_0.
  - destruct fuel as [|fuel]; [lia |]. simpl. unfold node_ref.
    destruct (lookup_lt_is_Some_2 rows k) as [d Hd]; [lia |].
    rewrite (linked_lookup _ _ _ Hd). simpl.
    rewrite IH by lia.
    rewrite (take_S_r _ _ _ Hd), rev_app_distr. done.
Qed.

Lemma token_loop_linked h t : forall todo done fuel toks,
  length todo < fuel ->
  token_loop fuel (node_at (length (done ++ todo)) (length done))
             (mkDB h t (linked (done ++ todo))) toks
  = Ok (mkDB h t (linked (done ++ map tagged todo)),
        toks ++ map token_of todo).
Proof.
  induction todo as [|d todo IH]; intros done fuel toks Hf;
    (destruct fuel as [|fuel]; [simpl in Hf; lia |]).
  - simpl. unfold node_at. rewrite app_nil_r.
    case_decide; [lia |]. by rewrite app_nil_r.
  - simpl in Hf. unfold node_at at 1.
    rewrite decide_True by (rewrite length_app; simpl; lia).
    simpl. unfold node_ref. rewrite linked_lookup_middle. simpl.
    rewrite (linked_insert_middle done d todo _ (tagged d)) by done.
    replace (done ++ tagged d :: todo)
      with ((done ++ [tagged d]) ++ todo) by (by rewrite <- app_assoc).
    replace (node_at (length (done ++ d :: todo)) (S (length done)))
      with (node_at (length ((done ++ [tagged d]) ++ todo))
                    (length (done ++ [tagged d]))).
    + rewrite IH by lia. by rewrite <- !app_assoc.
    + f_equal; rewrite !length_app; simpl; lia.
Qed.

(** X18: after the rows of the table are appended to an empty
    [MemoryDB], the list is doubly linked in the order of the rows: there
    are as many objects as rows, following [next] from [head] meets the
    rows in their order and following [prev] from [tail] meets them in the
    reverse order; without rows [head] and [tail] are [None], otherwise
    [head] is the first object, which has no [prev], and [tail] the last,
    which has no [next]. *)
Theorem load_rows_linked_list (rows : list row) :
  length (nodes (load_rows rows)) = length rows
  /\ forward (length rows) (nodes (load_rows rows)) (head (load_rows rows))
     = rows
  /\ backward (length rows) (nodes (load_rows rows)) (tail (load_rows rows))
     = rev rows
  /\ match rows with
     | [] => head (load_rows rows) = None /\ tail (load_rows rows) = None
     | _ :: rows' =>
         head (load_rows rows) = Some 0
         /\ tail (load_rows rows) = Some (length rows')
         /\ (prev <$> nodes (load_rows rows) !! 0) = Some None
         /\ (next <$> nodes (load_rows rows) !! length rows') = Some None
     end.
Proof.
  rewrite load_rows_linked. cbn [nodes head tail].
  split; [apply linked_length |].
  split; [by rewrite forward_linked, drop_0 by lia |].
  split; [by rewrite backward_linked, firstn_all by lia |].
  destruct rows as [|d rows]; [done |].
  split; [done |]. split; [done |]. split.
  - by rewrite (linked_lookup (d :: rows) 0 d).
  - destruct (lookup_lt_is_Some_2 (d :: rows) (length rows)) as [d' Hd'];
      [simpl; lia |].
    rewrite (linked_lookup _ _ _ Hd'). simpl.
    unfold node_at. by rewrite decide_False by lia.
Qed.

(** X19: on the list of the rows of the table, the loop of [main] ends
    within one more step than there are rows, returns the token of every
    row in the order of the rows, and leaves the list linked as it was,
    with the token of each row stored under [famsize_age] in that row. *)
Theorem combined_tokens_of_rows (rows : list row) (fuel : nat) :
  length rows < fuel ->
  combined_tokens fuel (load_rows rows)
  = Ok (load_rows (map tagged rows), map token_of rows)
  /\ Forall (fun d => dict_get (tagged d) "famsize_age"
                      = Some (Str (token_of d))) rows.
Proof.
  intros Hf. split.
  - rewrite !load_rows_linked, length_map. unfold combined_tokens. simpl.
    exact (token_loop_linked _ _ rows [] fuel [] Hf).
  - apply Forall_forall. intros d _. apply HuffmanFacts.dict_get_set_eq.
Qed.

Lemma combined_tokens_of_rows_witness :
  combined_tokens 3
    (load_rows [[("famsize", Str "GT3"); ("age", Int 18)];
                [("famsize", Str "LE3"); ("age", Int 17)]])
  = Ok (load_rows
          (map tagged [[("famsize", Str "GT3"); ("age", Int 18)];
                       [("famsize", Str "LE3"); ("age", Int 17)]]),
        map token_of [[("famsize", Str "GT3"); ("age", Int 18)];
                      [("famsize", Str "LE3"); ("age", Int 17)]])
  /\ Forall (fun d => dict_get (tagged d) "famsize_age"
                      = Some (Str (token_of d)))
            [[("famsize", Str "GT3"); ("age", Int 18)];
             [("famsize", Str "LE3"); ("age", Int 17)]].
Proof.
  apply (combined_tokens_of_rows
           [[("famsize", Str "GT3"); ("age", Int 18)];
            [("famsize", Str "LE3"); ("age", Int 17)]] 3).
  simpl. lia.
Defined.

End MemDBFacts.

(** * The exports of the red-black tree *)

Module ExportFacts.
Import RBT.
Import RBTFacts.
Import Exporters.
Local Open Scope list_scope.

Lemma fill_color_name c : fill_color c = color_name c.
Proof. by destruct c. Qed.

(** ** The nested record *)

Lemma rb_to_dict_shape h t : forall p fuel,
  shape h p t -> height t < fuel ->
  rb_to_dict fuel h (ptr t) = Ok (nested t).
Proof.
  induction t as [|c l IHl i k r IHr]; intros p fuel Hs Hf;
    (destruct fuel as [|fuel]; [lia |]); simpl; [done |].
  destruct Hs as (Hi & Hl & Hr). simpl in Hf.
  unfold ref in *. rewrite Hi. simpl.
  rewrite (IHl _ _ Hl) by lia. by rewrite (IHr _ _ Hr) by lia.
Qed.

Lemma read_nested t : read_record (nested t) = Some (forget t).
Proof.
  induction t as [|c l IHl i k r IHr]; simpl; [done |].
  rewrite IHl, IHr. by destruct c.
Qed.

(** ** The graph *)

(** The edge to a child and the graph below it. *)
Definition write_child (fuel : nat) (h : list RBNode) (k : string)
    (child : option ref) (f : list dot_stmt) : result (list dot_stmt) :=
  match child with
  | None => Ok f
  | Some l =>
      match h !! l with
      | None => Raise AttributeError
      | Some ln => write_dot fuel h child (f ++ [DotEdge k (key ln)])
      end
  end.

Lemma write_dot_node fuel h i n f :
  h !! i = Some n ->
  write_dot (S fuel) h (Some i) f
  = match write_child fuel h (key n) (left n)
            (f ++ [DotVertex (key n) (fill_color (color n))]) with
    | Ok f' => write_child fuel h (key n) (right n) f'
    | Raise e => Raise e
    | OutOfFuel => OutOfFuel
    end.
Proof. intros Hi. simpl. unfold ref in *. by rewrite Hi. Qed.

Lemma write_child_shape h t fuel k i f :
  (forall p f, shape h p t -> write_dot fuel h (ptr t) f = Ok (f ++ graph t)) ->
  shape h (Some i) t ->
  write_child fuel h k (ptr t) f = Ok (f ++ edge_to k t ++ graph t).
Proof.
  intros IH Hs. unfold write_child.
  destruct t as [|c l j kj r].
  - simpl. by rewrite app_nil_r.
  - pose proof Hs as (Hj & _). cbn [ptr]. unfold ref in *. rewrite Hj.
    rewrite (IH _ _ Hs). cbn [key edge_to root_key].
    by rewrite <- ?app_assoc.
Qed.

Lemma write_dot_shape h t : forall p fuel f,
  shape h p t -> height t < fuel ->
  write_dot fuel h (ptr t) f = Ok (f ++ graph t).
Proof.
  induction t as [|c l IHl i k r IHr]; intros p fuel f Hs Hf;
    (destruct fuel as [|fuel]; [lia |]).
  - simpl. by rewrite app_nil_r.
  - destruct Hs as (Hi & Hl & Hr). simpl in Hf.
    cbn [ptr]. rewrite (write_dot_node _ _ _ _ _ Hi).
    cbn [key color left right]. rewrite fill_color_name.
    rewrite (write_child_shape h l fuel k i); [| | done].
    + rewrite (write_child_shape h r fuel k i); [| | done].
      * cbn [graph]. rewrite <- ?app_assoc. simpl.
        by rewrite <- ?app_assoc.
      * intros p' f' Hs'. apply (IHr p'); [done | lia].
    + intros p' f' Hs'. apply (IHl p'); [done | lia].
Qed.

Lemma edge_to_vertices k t : filter is_vertex (edge_to k t) = [].
Proof. by destruct t. Qed.

Lemma graph_vertices t : length (filter is_vertex (graph t)) = size t.
Proof.
  induction t as [|c l IHl i k r IHr]; [done |]. cbn [graph size].
  rewrite filter_cons_True by done.
  rewrite !filter_app, !edge_to_vertices. cbn [length app].
  rewrite length_app, IHl, IHr. lia.
Qed.

Lemma graph_edges_below k t :
  length (filter is_edge (edge_to k t ++ graph t)) = size t.
Proof.
  revert k. induction t as [|c l IHl i k' r IHr]; intros k; [done |].
  cbn [graph size edge_to root_key app].
  rewrite filter_cons_True by done.
  rewrite filter_cons_False by (by intros ?).
  cbn [length]. rewrite (app_assoc (edge_to k' l)), filter_app, length_app.
  rewrite IHl, IHr. lia.
Qed.

Lemma graph_edges t : length (filter is_edge (graph t)) = size t - 1.
Proof.
  destruct t as [|c l i k r]; [done |]. cbn [graph size].
  rewrite filter_cons_False by (by intros ?).
  rewrite (app_assoc (edge_to k l)), filter_app, length_app.
  rewrite !graph_edges_below. lia.
Qed.

Lemma edge_to_names k t : vertex_names (edge_to k t) = [].
Proof. by destruct t. Qed.

Lemma vertex_names_app f g :
  vertex_names (f ++ g) = vertex_names f ++ vertex_names g.
Proof. unfold vertex_names. apply omap_app. Qed.

Lemma graph_vertex_names t : vertex_names (graph t) ≡ₚ keys t.
Proof.
  unfold keys.
  induction t as [|c l IHl i k r IHr]; [done |]. cbn [graph elements].
  change (vertex_names (DotVertex k (color_name c) :: ?f))
    with (k :: vertex_names f).
  rewrite !vertex_names_app, !edge_to_names, IHl, IHr, map_app. simpl.
  by rewrite Permutation_middle.
Qed.

(** ** The outline *)

Lemma outline_length t : forall indent last,
  length (outline t indent last) = size t.
Proof.
  induction t as [|c l IHl i k r IHr]; intros indent last; [done |].
  cbn [outline size length]. rewrite length_app, IHl, IHr. lia.
Qed.

Lemma visualize_shape T t : forall p fuel indent last visited out,
  shape (store T) p t -> NoDup (refs t) ->
  (forall i, i ∈ refs t -> i ∉ visited) ->
  (forall r, root T = Some r -> r ∈ visited \/ Some r = ptr t) ->
  height t < fuel ->
  visualize fuel T (ptr t) indent last visited out
  = Ok (list_to_set (refs t) ∪ visited, out ++ outline t indent last).
Proof.
  induction t as [|c l IHl i k r IHr];
    intros p fuel indent last visited out Hs Hnd Hnew Hroot Hf;
    (destruct fuel as [|fuel]; [lia |]).
  - cbn [visualize ptr]. rewrite app_nil_r.
    replace (list_to_set (refs Leaf) ∪ visited) with visited
      by (unfold refs; simpl; set_solver).
    destruct (root T) as [r|] eqn:Er; [| done].
    destruct (Hroot r eq_refl) as [Hin|?]; [| done].
    by rewrite decide_True.
  - destruct Hs as (Hi & Hl & Hr). simpl in Hf.
    rewrite refs_node in Hnd, Hnew.
    apply NoDup_app in Hnd as (Hndl & Hlr & [Hir Hndr]%NoDup_cons).
    assert (i ∉ refs l) as Hil.
    { intros Hin. apply (Hlr i Hin). by left. }
    cbn [visualize ptr].
    rewrite decide_False by (apply Hnew; set_solver).
    unfold ref in *. rewrite Hi.
    rewrite (IHl (Some i)); [| done | done | | | lia].
    + rewrite (IHr (Some i)); [| done | done | | | lia].
      * cbn [outline]. unfold outline_line. cbn [key color].
        f_equal. f_equal.
        -- rewrite refs_node. set_solver.
        -- by rewrite <- !app_assoc.
      * intros j Hj.
        rewrite !elem_of_union, elem_of_list_to_set, elem_of_singleton.
        intros [Hjl|[->|Hjv]].
        -- apply (Hlr j Hjl). by right.
        -- done.
        -- revert Hjv. apply Hnew. set_solver.
      * intros r0 Hr0. left.
        destruct (Hroot r0 Hr0) as [?|[= ->]]; set_solver.
    + intros j Hj. rewrite elem_of_union, elem_of_singleton.
      intros [->|Hjv]; [done |].
      revert Hjv. apply Hnew. set_solver.
    + intros r0 Hr0. left.
      destruct (Hroot r0 Hr0) as [?|[= ->]]; set_solver.
Qed.


Lemma size_elements t : size t = length (elements t).
Proof.
  induction t as [|c l IHl i k r IHr]; simpl; [done |].
  rewrite length_app. simpl. lia.
Qed.

Lemma visualize_represents T t fuel :
  represents T t -> height t < fuel ->
  visualize_tree fuel T = Ok (list_to_set (refs t), outline t "" true).
Proof.
  intros (Hroot & Hs & Hnd) Hf. unfold visualize_tree.
  destruct fuel as [|fuel]; [lia |].
  assert (visualize (S fuel) T None "" true ∅ []
          = visualize (S fuel) T (ptr t) "" true ∅ []) as ->.
  { cbn [visualize]. rewrite Hroot. by destruct (ptr t). }
  rewrite (visualize_shape T t None); [| done | done | | | done].
  - f_equal. f_equal. set_solver.
  - intros i _. set_solver.
  - intros r Hr. right. by rewrite <- Hroot.
Qed.

(** ** The properties of the exports *)

(** X20: on a tree object that holds a tree, [rb_to_dict] returns, within
    a depth of recursion of one more than the height of the tree, the
    nested record of the tree: a record with key, color, left and right
    for every node and [None] for every absent child; reading the record
    back gives the keys, colors and places of all nodes. *)
Theorem rb_to_dict_nested (T : RedBlackTree) (t : tree) (fuel : nat) :
  represents T t -> height t < fuel ->
  rb_to_dict fuel (store T) (root T) = Ok (nested t)
  /\ read_record (nested t) = Some (forget t).
Proof.
  intros (Hroot & Hs & _) Hf. split; [| apply read_nested].
  rewrite Hroot. by eapply rb_to_dict_shape.
Qed.

Lemma rb_to_dict_nested_witness :
  rb_to_dict 3 (store two_right) (root two_right)
  = Ok (nested (Node Black Leaf 0 "a" (Node Red Leaf 1 "b" Leaf)))
  /\ read_record (nested (Node Black Leaf 0 "a" (Node Red Leaf 1 "b" Leaf)))
     = Some (forget (Node Black Leaf 0 "a" (Node Red Leaf 1 "b" Leaf))).
Proof.
  apply (rb_to_dict_nested two_right
           (Node Black Leaf 0 "a" (Node Red Leaf 1 "b" Leaf)) 3).
  - exact represents_two_right.
  - simpl. lia.
Defined.

(** X21: on a tree object that holds a tree, [write_dot] writes, within a
    depth of recursion of one more than the height of the tree, one vertex
    for every node, named by its key and filled with its color, and after
    it, for each child that is there, the edge to the child followed by
    the statements of the child: as many vertices as nodes, one edge less,
    and the names of the vertices are the keys of the tree, a key that
    several nodes have as often as they have it. *)
Theorem write_dot_graph (T : RedBlackTree) (t : tree) (fuel : nat) :
  represents T t -> height t < fuel ->
  write_dot fuel (store T) (root T) [] = Ok (graph t)
  /\ length (filter is_vertex (graph t)) = size t
  /\ length (filter is_edge (graph t)) = size t - 1
  /\ vertex_names (graph t) ≡ₚ keys t.
Proof.
  intros (Hroot & Hs & _) Hf.
  split; [| split; [apply graph_vertices |
                    split; [apply graph_edges | apply graph_vertex_names]]].
  rewrite Hroot. by rewrite (write_dot_shape _ t None fuel []).
Qed.

Lemma write_dot_graph_witness :
  write_dot 3 (store two_right) (root two_right) []
  = Ok (graph (Node Black Leaf 0 "a" (Node Red Leaf 1 "b" Leaf)))
  /\ length (filter is_vertex
               (graph (Node Black Leaf 0 "a" (Node Red Leaf 1 "b" Leaf))))
     = size (Node Black Leaf 0 "a" (Node Red Leaf 1 "b" Leaf))
  /\ length (filter is_edge
               (graph (Node Black Leaf 0 "a" (Node Red Leaf 1 "b" Leaf))))
     = size (Node Black Leaf 0 "a" (Node Red Leaf 1 "b" Leaf)) - 1
  /\ vertex_names (graph (Node Black Leaf 0 "a" (Node Red Leaf 1 "b" Leaf)))
     ≡ₚ keys (Node Black Leaf 0 "a" (Node Red Leaf 1 "b" Leaf)).
Proof.
  apply (write_dot_graph two_right
           (Node Black Leaf 0 "a" (Node Red Leaf 1 "b" Leaf)) 3).
  - exact represents_two_right.
  - simpl. lia.
Defined.

(** X22: on a tree object that holds a tree, [visualize] without
    arguments prints, within a depth of recursion of one more than the
    height of the tree, one line for every node, a node before its left
    subtree and that before its right subtree, each a level deeper; the
    call for an absent child starts again at the root and stops there,
    because the root has been visited; in the end exactly the objects of
    the tree have been visited. *)
Theorem visualize_outline (T : RedBlackTree) (t : tree) (fuel : nat) :
  represents T t -> height t < fuel ->
  visualize_tree fuel T = Ok (list_to_set (refs t), outline t "" true)
  /\ length (outline t "" true) = size t.
Proof.
  intros Hrep Hf. split; [by apply visualize_represents |].
  apply outline_length.
Qed.

Lemma visualize_outline_witness :
  visualize_tree 3 two_right
  = Ok (list_to_set (refs (Node Black Leaf 0 "a" (Node Red Leaf 1 "b" Leaf))),
        outline (Node Black Leaf 0 "a" (Node Red Leaf 1 "b" Leaf)) "" true)
  /\ length (outline (Node Black Leaf 0 "a" (Node Red Leaf 1 "b" Leaf))
                     "" true)
     = size (Node Black Leaf 0 "a" (Node Red Leaf 1 "b" Leaf)).
Proof.
  apply (visualize_outline two_right
           (Node Black Leaf 0 "a" (Node Red Leaf 1 "b" Leaf)) 3).
  - exact represents_two_right.
  - simpl. lia.
Defined.

(** X23: after the insertion of any [n] strings into an empty tree the
    three exports return within a depth of recursion of twice the binary
    logarithm of [n + 1], plus one: the outline has [n] lines, the graph
    [n] vertices, named by the strings inserted, and [n - 1] edges, and
    the nested record reads back as the tree. *)
Theorem exports_after_inserts (ks : list string) :
  exists T t,
    insert_all (map Str ks) empty = Ok (tt, T)
    /\ represents T t
    /\ let fuel := S (2 * Nat.log2 (S (length ks))) in
       visualize_tree fuel T
       = Ok (list_to_set (seq 0 (length ks)), outline t "" true)
       /\ length (outline t "" true) = length ks
       /\ write_dot fuel (store T) (root T) [] = Ok (graph t)
       /\ vertex_names (graph t) ≡ₚ ks
       /\ length (filter is_vertex (graph t)) = length ks
       /\ length (filter is_edge (graph t)) = length ks - 1
       /\ rb_to_dict fuel (store T) (root T) = Ok (nested t)
       /\ read_record (nested t) = Some (forget t).
Proof.
  destruct (insert_all_from_empty ks)
    as (T & t & E & (Hrep & [n Hrbt] & Hroot & _ & Hrefs) & Hlen & Hel).
  exists T, t. split; [done |]. split; [done |].
  assert (size t = length ks) as Hsize.
  { rewrite size_elements, Hel, length_zip, length_seq. lia. }
  assert (height t < S (2 * Nat.log2 (S (length ks)))) as Hf.
  { pose proof (rbt_height _ _ Hrbt) as Hh.
    pose proof (rbt_size _ _ Hrbt) as Hs.
    rewrite <- size_elements, Hsize in Hs.
    assert (red_root t = false) as Er by (by destruct t as [|[] ? ? ? ?]).
    rewrite Er in Hh.
    apply Nat.log2_le_pow2 in Hs; lia. }
  pose proof Hrep as (Hr & Hs & _).
  cbv zeta. repeat split.
  - rewrite (visualize_represents T t) by done.
    f_equal. f_equal. apply set_eq. intros i.
    by rewrite !elem_of_list_to_set, Hrefs, Hlen.
  - by rewrite outline_length.
  - rewrite Hr. by rewrite (write_dot_shape _ t None _ []).
  - rewrite graph_vertex_names. unfold keys. rewrite Hel.
    rewrite fst_zip; [done |]. rewrite length_seq. lia.
  - by rewrite graph_vertices.
  - by rewrite graph_edges, Hsize.
  - rewrite Hr. by eapply rb_to_dict_shape.
  - apply read_nested.
Qed.

End ExportFacts.
